(** * RoamWise backend: route orchestrator, matrix cache, search-along-route
      and day planner.

    A shallow embedding of [routes/route.js], [src/ops/cache-matrix.js],
    [routes/sar.js] and [routes/planner.js], with the properties of the
    design document checked against it, and of the code around them:
    [ops/counters.js], [ops/metrics.js], [src/providers/google-matrix.js],
    [src/providers/google-places.js], [src/ops/cache-places.js], the
    details route of [routes/places.js] and the feed normalisation of
    [routes/hazards.js].

    Conventions.
    - A JavaScript number that the code only compares, adds or rounds is a
      rational ([Q]) when it may carry a fraction (coordinates, provider
      distances) and an integer ([Z]) when the code makes it one
      (timestamps in ms, parsed durations in seconds, rounded minutes).
    - [undefined] is [None]; [+Infinity] in a travel matrix is [Infinity].
    - Module-level mutable state ([breakerUntil], the caches, the counters)
      is threaded explicitly; [Date.now()] and the upstream replies are
      arguments of the handlers. *)

From Stdlib Require Import ZArith QArith Qround Qabs List String Ascii Lia Bool.
From Stdlib Require Import DecimalString DecimalZ Permutation Sorted Lqa.
From stdpp Require Import gmap strings.

Import ListNotations.
Local Open Scope string_scope.
Local Open Scope list_scope.
Local Open Scope Z_scope.

(* ------------------------------------------------------------------ *)
(** ** JavaScript primitives used by the sources *)

Module JS.

(** [Math.round]: nearest integer, halves toward +Infinity. *)
Definition Math_round (x : Q) : Z := Qfloor (x + (1 # 2)).

(** Template-literal rendering of an integral number. *)
Definition int_to_string (z : Z) : string := NilZero.string_of_int (Z.to_int z).

(** Rendering of a number that may be [NaN]. *)
Definition num_to_string (o : option Z) : string :=
  match o with
  | Some z => int_to_string z
  | None => "NaN"
  end.

Fixpoint zeros (n : nat) : string :=
  match n with
  | O => ""
  | S n' => String "0" (zeros n')
  end.

(** [Number.prototype.toFixed(f)] on the exact value of the number: the
    sign is taken first, then [n] is the integer nearest to [|x| * 10^f]
    (the larger one on a tie), printed with [f] digits after the point. *)
Definition toFixed (f : nat) (x : Q) : string :=
  let s := if Qle_bool 0 x then "" else "-" in
  let n := Qfloor (Qabs x * inject_Z (10 ^ Z.of_nat f) + (1 # 2)) in
  let m := int_to_string n in
  match f with
  | O => s +:+ m
  | _ =>
    let k := String.length m in
    let m' := if (k <=? f)%nat then zeros (f + 1 - k) +:+ m else m in
    let k' := String.length m' in
    s +:+ substring 0 (k' - f) m' +:+ "." +:+ substring (k' - f) f m'
  end.

(** Truthiness of a string and of a number. *)
Definition truthy_str (s : string) : bool := negb (String.eqb s "").
Definition truthy_num (x : Q) : bool := negb (Qeq_bool x 0).

(** A cell of a travel matrix: a whole number of seconds (or metres), or
    [+Infinity] for an unreachable pair. *)
Inductive xnum : Type :=
  | Fin (z : Z)
  | Infinity.

(** [Number.isFinite] on the result of an array read ([None] = undefined). *)
Definition isFinite (o : option xnum) : bool :=
  match o with
  | Some (Fin _) => true
  | _ => false
  end.

(** [a < b] on the result of an array read against a number. *)
Definition lt_num (o : option xnum) (b : xnum) : bool :=
  match o, b with
  | Some (Fin x), Fin y => x <? y
  | Some (Fin _), Infinity => true
  | _, _ => false
  end.

(** [x || 0] on an optional number. *)
Definition or_zero (o : option Q) : Q :=
  match o with
  | Some x => x
  | None => 0%Q
  end.

(** Truthiness of an optional number and of an optional string. *)
Definition truthy_onum (o : option Q) : bool :=
  match o with
  | Some x => truthy_num x
  | None => false
  end.

Definition truthy_ostr (o : option string) : bool :=
  match o with
  | Some s => truthy_str s
  | None => false
  end.

(** [a ?? b] *)
Definition nullish {A : Type} (a b : option A) : option A :=
  match a with
  | Some _ => a
  | None => b
  end.

(** A number as it reaches [slice] or a comparison with a length: the
    [ToNumber] of a value of a request body. A string that is no numeral
    or an object reads as [NaN], [null] as 0 and the JSON numeral [1e999]
    as [+Infinity]. *)
Inductive num : Type :=
  | NaN
  | Num (q : Q)
  | PosInf
  | NegInf.

(** The integral part of a finite number (truncation toward zero). *)
Definition trunc (q : Q) : Z := Z.quot (Qnum q) (Zpos (Qden q)).

(** [arr.slice(0, e)]: [e] is truncated, [NaN] reads as 0, a negative
    end counts from the end of the array, and the bounds are clamped. *)
Definition slice_to {A : Type} (e : num) (l : list A) : list A :=
  match e with
  | NaN | NegInf => []
  | PosInf => l
  | Num q =>
    let k := trunc q in
    if k <? 0 then firstn (Z.to_nat (Z.of_nat (length l) + k)) l
    else firstn (Z.to_nat k) l
  end.

(** [n >= x] for an array length [n]. *)
Definition length_ge (n : nat) (x : num) : bool :=
  match x with
  | NaN | PosInf => false
  | Num q => Qle_bool q (inject_Z (Z.of_nat n))
  | NegInf => true
  end.

Definition upper_ascii (c : ascii) : ascii :=
  let n := nat_of_ascii c in
  if ((97 <=? n) && (n <=? 122))%nat then ascii_of_nat (n - 32) else c.

(** [String.prototype.toUpperCase] on ASCII text. *)
Fixpoint toUpperCase (s : string) : string :=
  match s with
  | EmptyString => EmptyString
  | String c rest => String (upper_ascii c) (toUpperCase rest)
  end.

(** The text holds ASCII characters only. Outside ASCII the upper case
    of a character can be an ASCII letter, as for the dotless i, which
    [toUpperCase] above does not render. *)
Fixpoint is_ascii (s : string) : bool :=
  match s with
  | EmptyString => true
  | String c rest => (nat_of_ascii c <? 128)%nat && is_ascii rest
  end.

(** [Array.prototype.sort(cmp)] is a stable sort: [a] stays before [b]
    unless [cmp(a, b) > 0]. Rendered as a stable insertion sort. *)
Section Sort.

Context {A : Type} (cmp : A -> A -> Q).

Fixpoint insert_sorted (x : A) (l : list A) : list A :=
  match l with
  | [] => [x]
  | y :: rest =>
    if Qle_bool (cmp x y) 0 then x :: y :: rest
    else y :: insert_sorted x rest
  end.

Fixpoint sort (l : list A) : list A :=
  match l with
  | [] => []
  | x :: rest => insert_sorted x (sort rest)
  end.

End Sort.

End JS.

(** A geographic point [{lat, lon}]. *)
Record point : Type := mkPoint { lat : Q; lon : Q }.

(** The [ok:true] result of [googleComputeRouteMatrix]: [n] points and two
    [n]x[n] tables, pre-filled with [Infinity]. *)
Record matrix_res : Type := mkMatrix {
  mx_n : nat;
  duration_s : list (list JS.xnum);
  distance_m : list (list JS.xnum)
}.

(** What [googleComputeRouteMatrix] resolves to. *)
Inductive matrix_reply : Type :=
  | MatrixOk (m : matrix_res)
  | MatrixFail (error : string).

(** [dur[i][j]]; [None] when the read yields [undefined]. *)
Definition cell (dur : list (list JS.xnum)) (i j : nat) : option JS.xnum :=
  match nth_error dur i with
  | Some row => nth_error row j
  | None => None
  end.

(* ------------------------------------------------------------------ *)
(** ** src/ops/cache-matrix.js and getTravelMatrix *)

Module MatrixCache.

Record entry : Type := mkEntry { t : Z; v : matrix_res }.

Record lookup_result : Type := mkLookup {
  hit : bool;
  key : string;
  value : option matrix_res
}.

Section WithDateParse.

(** [Date.parse]: milliseconds since the epoch, [None] for [NaN]. *)
Variable Date_parse : string -> option Z.

Definition hashPoints (points : list point) : string :=
  String.concat "|"
    (map (fun p => JS.toFixed 4 (lat p) +:+ "," +:+ JS.toFixed 4 (lon p)) points).

(** 5-minute buckets. *)
Definition timeBucket (iso : option string) (now : Z) : option Z :=
  let t :=
    match iso with
    | Some s => if JS.truthy_str s then Date_parse s else Some now
    | None => Some now
    end in
  option_map (fun t => t / (5 * 60 * 1000)) t.

Definition cacheKey (mode : string) (points : list point)
    (iso : option string) (now : Z) : string :=
  mode +:+ "|" +:+ hashPoints points +:+ "|" +:+ JS.num_to_string (timeBucket iso now).

Definition getMatrixCache (store : gmap string entry) (now : Z)
    (mode : string) (points : list point) (iso : option string)
  : lookup_result * gmap string entry :=
  let key := cacheKey mode points iso now in
  match store !! key with
  | None => (mkLookup false key None, store)
  | Some ent =>
    if 60000 <? now - t ent
    then (mkLookup false key None, delete key store)
    else (mkLookup true key (Some (v ent)), store)
  end.

Definition setMatrixCache (store : gmap string entry) (now : Z)
    (key : string) (value : matrix_res) : gmap string entry :=
  <[key := mkEntry now value]> store.

(** [getTravelMatrix] of routes/route.js. [provider] is the reply of
    [googleComputeRouteMatrix] for this call; [now] is the clock at the
    lookup and [tset] the clock when the reply is stored. The result is
    the matrix, or the thrown error, and the number of provider calls. *)
Definition getTravelMatrix (provider : list point -> string -> matrix_reply)
    (store : gmap string entry) (now tset : Z)
    (points : list point) (mode : string) (iso : option string)
  : (matrix_res + string) * nat * gmap string entry :=
  let '(c, store1) := getMatrixCache store now mode points iso in
  match hit c, value c with
  | true, Some m => (inl m, O, store1)
  | _, _ =>
    match provider points mode with
    | MatrixFail e => (inr e, 1%nat, store1)
    | MatrixOk res => (inl res, 1%nat, setMatrixCache store1 tset (key c) res)
    end
  end.

End WithDateParse.

End MatrixCache.

(* ------------------------------------------------------------------ *)
(** ** routes/route.js: POST /api/route *)

Module Route.

(** What [MAP[term]] reads from one of the two tables. Both are plain
    objects, so a term that is no key of the table is looked up in
    [Object.prototype]: [Own s] is a string of the table,
    [Inherited name] what the prototype holds under [name], a function
    or, under [__proto__], the prototype object. *)
Inductive table_value : Type :=
  | Own (s : string)
  | Inherited (name : string).

(** The string-keyed properties of [Object.prototype]. *)
Definition prototype_names : list string :=
  ["constructor"; "__defineGetter__"; "__defineSetter__"; "hasOwnProperty";
   "__lookupGetter__"; "__lookupSetter__"; "isPrototypeOf";
   "propertyIsEnumerable"; "toString"; "valueOf"; "__proto__";
   "toLocaleString"].

Definition inherited (term : string) : option table_value :=
  if existsb (String.eqb term) prototype_names then Some (Inherited term)
  else None.

(** User-friendly avoid terms to OSRM exclude classes. A term is the
    property key that an element of the [avoid] array gives. Terms
    outside the table and the prototype read as [undefined]. *)
Definition AVOID_MAP (term : string) : option table_value :=
  if String.eqb term "tolls" then Some (Own "toll")
  else if String.eqb term "ferries" then Some (Own "ferry")
  else if String.eqb term "highways" then Some (Own "motorway")
  else inherited term.

(** User-friendly avoid terms to ORS avoid features. *)
Definition ORS_AVOID_MAP (term : string) : option table_value :=
  if String.eqb term "tolls" then Some (Own "tollways")
  else if String.eqb term "ferries" then Some (Own "ferries")
  else if String.eqb term "highways" then Some (Own "highways")
  else inherited term.

(** [val === val'] on table values: strings by content, the inherited
    objects by identity, one object per name. *)
Definition value_eqb (a b : table_value) : bool :=
  match a, b with
  | Own s, Own s' => String.eqb s s'
  | Inherited n, Inherited n' => String.eqb n n'
  | _, _ => false
  end.

(** [Boolean(val)]: every object is truthy. *)
Definition truthy_value (v : table_value) : bool :=
  match v with
  | Own s => JS.truthy_str s
  | Inherited _ => true
  end.

(** [String(val)], as [join] writes an element. *)
Definition to_string (v : table_value) : string :=
  match v with
  | Own s => s
  | Inherited name =>
    if String.eqb name "__proto__" then "[object Object]"
    else if String.eqb name "constructor"
    then "function Object() { [native code] }"
    else "function " +:+ name +:+ "() { [native code] }"
  end.

(** Environment configuration read at module load. *)
Record config : Type := mkConfig {
  ORS_API_KEY : string;
  TEST_HOOKS : bool;
  CACHE_MAX : nat;
  CACHE_TTL_MS : Z
}.

(** [arr.indexOf(val)]. *)
Fixpoint indexOf (val : table_value) (arr : list table_value) : option nat :=
  match arr with
  | [] => None
  | x :: rest =>
    if value_eqb x val then Some O
    else option_map S (indexOf val rest)
  end.

Fixpoint enumerate_from {A : Type} (i : nat) (l : list A) : list (nat * A) :=
  match l with
  | [] => []
  | x :: rest => (i, x) :: enumerate_from (S i) rest
  end.

(** [.filter((val, idx, arr) => arr.indexOf(val) === idx)]. *)
Definition dedupe (arr : list table_value) : list table_value :=
  map snd
    (List.filter (fun iv => match indexOf (snd iv) arr with
                       | Some j => Nat.eqb j (fst iv)
                       | None => false
                       end)
            (enumerate_from O arr)).

(** [.map(term => MAP[term]).filter(Boolean)]. *)
Fixpoint map_truthy (f : string -> option table_value) (l : list string)
  : list table_value :=
  match l with
  | [] => []
  | x :: rest =>
    match f x with
    | Some y => if truthy_value y then y :: map_truthy f rest else map_truthy f rest
    | None => map_truthy f rest
    end
  end.

(** [avoid] holds the terms of [constraints.avoid] when that is an
    array; any other value takes the first branch of the source, like
    the empty array. *)
Definition buildExcludeParam (avoid : list string) : string :=
  match avoid with
  | [] => ""
  | _ => String.concat "," (map to_string (dedupe (map_truthy AVOID_MAP avoid)))
  end.

Definition keyFor (stops : list point) (exclude : string) : string :=
  let s := String.concat "->"
             (map (fun p => JS.toFixed 5 (lat p) +:+ "," +:+ JS.toFixed 5 (lon p)) stops) in
  let suffix := if JS.truthy_str exclude then ":ex=" +:+ exclude else "" in
  "r:" +:+ s +:+ suffix.

(** *** Upstream replies *)

(** How a [fetch] ends: it rejects (with [e.name] and [String(e)]), or it
    resolves with a status, the body text and the result of [r.json()]
    (the parsed body, or [String(e)] of the parse error). *)
Inductive fetch_outcome (B : Type) : Type :=
  | Threw (name : string) (str : string)
  | Responded (status : Z) (text : string) (parsed : B + string).
Arguments Threw {B} name str.
Arguments Responded {B} status text parsed.

Record osrm_route : Type := mkOsrmRoute {
  rt_distance : option Q;
  rt_duration : option Q;
  rt_geometry : string
}.

(** The OSRM body, as far as the handler reads it. A [null] body reads
    like one with no field. *)
Record osrm_json : Type := mkOsrmJson {
  code : option string;
  routes : option (list osrm_route);
  message : option string
}.

(** The object returned by [callOsrm]; absent properties are [None]. *)
Record osrm_result : Type := mkOsrmResult {
  ok : bool;
  json : option osrm_json;
  status : option Z;
  error : option string;
  body : option string
}.

(** [r.ok] of a fetch response. *)
Definition http_ok (status : Z) : bool := (200 <=? status) && (status <=? 299).

Definition catch_error (name str : string) : string :=
  if String.eqb name "AbortError" then "timeout" else str.

Definition callOsrm (o : fetch_outcome osrm_json) : osrm_result :=
  match o with
  | Threw name str => mkOsrmResult false None None (Some (catch_error name str)) None
  | Responded st text parsed =>
    if negb (http_ok st) then mkOsrmResult false None (Some st) None (Some text)
    else match parsed with
         | inl j => mkOsrmResult true (Some j) None None None
         | inr str => mkOsrmResult false None None (Some str) None
         end
  end.

(** The response payload, also the cached value. *)
Record payload : Type := mkPayload {
  p_distance_m : Z;
  p_duration_s : Z;
  p_geometry : string;
  route_retry_relaxed : bool
}.

(** First feature of the ORS GeoJSON body, [geo.features?.[0]]. *)
Record ors_feature : Type := mkOrsFeature {
  f_geometry : option string;
  f_distance : option Q;
  f_duration : option Q
}.

Record ors_result : Type := mkOrsResult {
  ors_ok : bool;
  ors_payload : option payload;
  ors_status : option Z;
  ors_error : option string;
  ors_body : option string
}.

(** [avoid_features] sent to ORS. In the request body
    [JSON.stringify] writes an inherited function as [null] and the
    prototype object as [{}]. *)
Definition avoidFeatures (avoidArr : list string) : list table_value :=
  dedupe (map_truthy ORS_AVOID_MAP avoidArr).

Definition callORS (o : fetch_outcome (option ors_feature)) : ors_result :=
  match o with
  | Threw name str => mkOrsResult false None None (Some (catch_error name str)) None
  | Responded st text parsed =>
    if negb (http_ok st) then mkOrsResult false None (Some st) None (Some text)
    else match parsed with
         | inr str => mkOrsResult false None None (Some str) None
         | inl None => mkOrsResult false None None (Some "no_route") None
         | inl (Some feat) =>
           match f_geometry feat with
           | None => mkOrsResult false None None (Some "no_route") None
           | Some g =>
             mkOrsResult true
               (Some (mkPayload (JS.Math_round (JS.or_zero (f_distance feat)))
                                (JS.Math_round (JS.or_zero (f_duration feat)))
                                g false))
               None None None
           end
         end
  end.

(** The OSRM request URL
    [${OSRM_URL}/route/v1/driving/${a.lon},${a.lat};${b.lon},${b.lat}?overview=full&geometries=geojson&alternatives=false${excludeQS}],
    kept as its variable parts; [url_exclude = ""] is a URL with no
    [&exclude=] parameter. *)
Record osrm_url : Type := mkUrl {
  url_from : option point;
  url_to : option point;
  url_exclude : string
}.

Inductive upstream_call : Type :=
  | CallORS (coordinates : list point) (avoid_features : list table_value)
  | CallOSRM (url : osrm_url).

(** The upstream services during one invocation: the ORS reply and the
    reply to the [i]-th OSRM request. *)
Record world : Type := mkWorld {
  ors_fetch : list point -> list table_value -> fetch_outcome (option ors_feature);
  osrm_fetch : nat -> osrm_url -> fetch_outcome osrm_json
}.

(** *** Request, response, state *)

(** [constraints?.avoid || []]. The schema takes [constraints] as a
    record of any values, so [avoid] is whatever JSON value the body
    holds: an array, whose elements are kept as the property keys they
    give (a falsy value reads as the empty array), or another truthy
    value, of which the handler reads only [avoid.length > 0]. *)
Inductive avoid_value : Type :=
  | AvoidArray (terms : list string)
  | AvoidOther (longer : bool).

Record request : Type := mkRequest {
  req_stops : list point;
  req_mode : option string;
  req_constraints_avoid : avoid_value;
  req_testForceRelax : bool             (* constraints?._testForceRelax *)
}.

(** The avoid terms of a request: the elements of the array, and none
    when [avoid] is no array. *)
Definition req_avoid (r : request) : list string :=
  match req_constraints_avoid r with
  | AvoidArray terms => terms
  | AvoidOther _ => []
  end.

(** [avoid.length > 0] *)
Definition wantsAvoid (r : request) : bool :=
  match req_constraints_avoid r with
  | AvoidArray terms => (0 <? length terms)%nat
  | AvoidOther longer => longer
  end.

Definition in_range (lo hi x : Q) : bool := Qle_bool lo x && Qle_bool x hi.

Definition routeSchema (r : request) : bool :=
  (2 <=? length (req_stops r))%nat && (length (req_stops r) <=? 5)%nat
  && forallb (fun p => in_range (-90) 90 (lat p) && in_range (-180) 180 (lon p))
             (req_stops r)
  && match req_mode r with
     | None => true
     | Some m => String.eqb m "drive"
     end.

Inductive response : Type :=
  | Json (p : payload)
  | Failure (http : Z) (code message : string).

(** Modelled from the spec: the [lru-cache] package is a dependency, not
    part of the repository. An LRU+TTL cache: entries most recently used
    first, an entry is valid iff [now - insertedAt < TTL], an expired entry
    is dropped by the lookup that finds it, and an insertion beyond [max]
    evicts the least recently used entry. *)
Definition lru : Type := list (string * (payload * Z)).

Definition lru_remove (k : string) (c : lru) : lru :=
  List.filter (fun e => negb (String.eqb (fst e) k)) c.

Definition lru_find (k : string) (c : lru) : option (payload * Z) :=
  option_map snd (List.find (fun e => String.eqb (fst e) k) c).

Definition lru_get (ttl now : Z) (k : string) (c : lru) : option payload * lru :=
  match lru_find k c with
  | None => (None, c)
  | Some (p, t0) =>
    if now - t0 <? ttl then (Some p, (k, (p, t0)) :: lru_remove k c)
    else (None, lru_remove k c)
  end.

Definition lru_set (max : nat) (now : Z) (k : string) (p : payload) (c : lru) : lru :=
  firstn max ((k, (p, now)) :: lru_remove k c).

Record state : Type := mkState {
  breakerUntil : Z;
  cache : lru;
  route_relaxed_count : nat;
  provider_mix : gmap string nat
}.

Definition initial_state : state := mkState 0 [] O ∅.

(** ops/counters.js *)
Definition incrProvider (name : string) (mix : gmap string nat) : gmap string nat :=
  if JS.truthy_str name then <[name := S (default O (mix !! name))]> mix else mix.

(** *** The handler *)

(** [r.json?.code === 'Ok'] *)
Definition code_is_Ok (r : osrm_result) : bool :=
  match json r with
  | Some j =>
    match code j with
    | Some c => String.eqb c "Ok"
    | None => false
    end
  | None => false
  end.

(** [r.json?.routes] as a list; absent reads as no route. *)
Definition routes_of (r : osrm_result) : list osrm_route :=
  match json r with
  | Some j =>
    match routes j with
    | Some l => l
    | None => []
    end
  | None => []
  end.

(** Truthiness of [r.json?.routes?.length]. *)
Definition has_routes (r : osrm_result) : bool := (0 <? length (routes_of r))%nat.

(** [!first.ok || (first.ok && first.json?.code !== 'Ok')] *)
Definition needs_retry (first : osrm_result) : bool :=
  negb (ok first) || (ok first && negb (code_is_Ok first)).

(** [second.ok && second.json?.code === 'Ok' && second.json?.routes?.length] *)
Definition usable (second : osrm_result) : bool :=
  ok second && code_is_Ok second && has_routes second.

(** [!first.ok || first.json?.code !== 'Ok' || !first.json?.routes?.length] *)
Definition no_valid_route (first : osrm_result) : bool :=
  negb (ok first) || negb (code_is_Ok first) || negb (has_routes first).

Definition test_forced : osrm_result :=
  mkOsrmResult false None None (Some "test_forced") None.

(** The two OSRM request URLs of an invocation. *)
Definition urlWith (req : request) (exclude : string) : osrm_url :=
  let stops := req_stops req in
  mkUrl (nth_error stops 0) (nth_error stops (length stops - 1)) exclude.

Definition urlNo (req : request) : osrm_url := urlWith req "".

(** [first] when the retry condition is evaluated: the reply to the first
    request, or the forced failure of the test hook. *)
Definition first_attempt (cfg : config) (w : world) (req : request)
    (exclude : string) : osrm_result :=
  let first := callOsrm (osrm_fetch w 0%nat (urlWith req exclude)) in
  if TEST_HOOKS cfg && JS.truthy_str exclude && req_testForceRelax req
  then test_forced else first.

(** [second]: the reply to the request without exclude. *)
Definition second_attempt (w : world) (req : request) : osrm_result :=
  callOsrm (osrm_fetch w 1%nat (urlNo req)).

(** The OSRM block: first attempt, optional test hook, the retry without
    exclude. Returns the final [first], [relaxed], [provider] and the
    requests issued, in order. *)
Definition osrm_stage (cfg : config) (w : world) (req : request)
    (exclude provider : string)
  : osrm_result * bool * string * list upstream_call :=
  let first := first_attempt cfg w req exclude in
  if needs_retry first then
    let second := second_attempt w req in
    if usable second then
      (second, JS.truthy_str exclude,
       if String.eqb provider "osrm_fallback" then "osrm_fallback_relaxed"
       else "osrm_relaxed",
       [CallOSRM (urlWith req exclude); CallOSRM (urlNo req)])
    else (first, false, provider,
          [CallOSRM (urlWith req exclude); CallOSRM (urlNo req)])
  else (first, false, provider, [CallOSRM (urlWith req exclude)]).

(** Provider selection: ORS first when avoidance is wanted and ORS is
    configured. Returns [provider], [payload] and the requests issued,
    or [None] when [callORS] throws: it calls [avoidArr.map] before its
    own [try], which is a [TypeError] on a value that is no array. *)
Definition ors_stage (cfg : config) (w : world) (req : request)
  : option (string * option payload * list upstream_call) :=
  let stops := req_stops req in
  if wantsAvoid req && JS.truthy_str (ORS_API_KEY cfg) then
    match req_constraints_avoid req with
    | AvoidOther _ => None
    | AvoidArray avoid =>
      let features := avoidFeatures avoid in
      let orsResult := callORS (ors_fetch w stops features) in
      match ors_ok orsResult, ors_payload orsResult with
      | true, Some p => Some ("ors", Some p, [CallORS stops features])
      | _, _ => Some ("osrm_fallback", None, [CallORS stops features])
      end
    end
  else Some ("osrm", None, []).

Definition truthy_status (o : option Z) : bool :=
  match o with
  | Some s => negb (s =? 0)
  | None => false
  end.

(** Breaker update on the failure path. *)
Definition breaker_after_failure (tend : Z) (first : osrm_result) (until : Z) : Z :=
  if truthy_status (status first) && (500 <=? default 0 (status first))
  then tend + 60000
  else if JS.truthy_ostr (error first) then tend + 30000
  else until.

Definition failure_code (first : osrm_result) : string :=
  match error first with
  | Some e => if String.eqb e "timeout" then "provider_timeout" else "provider_error"
  | None => "provider_error"
  end.

(** [first.error || first.json?.message || 'Route computation failed'] *)
Definition failure_message (first : osrm_result) : string :=
  if JS.truthy_ostr (error first) then default "" (error first)
  else
    let m := match json first with
             | Some j => message j
             | None => None
             end in
    if JS.truthy_ostr m then default "" m else "Route computation failed".

(** The payload built from an OSRM route. *)
Definition payload_of_route (route : osrm_route) (relaxed : bool) : payload :=
  mkPayload (JS.Math_round (JS.or_zero (rt_distance route)))
            (JS.Math_round (JS.or_zero (rt_duration route)))
            (rt_geometry route) relaxed.

(** Success tail: cache the payload, update the counters, answer. *)
Definition respond_ok (cfg : config) (tend : Z) (k provider : string)
    (p : payload) (calls : list upstream_call) (st : state)
  : response * list upstream_call * state :=
  (Json p, calls,
   mkState (breakerUntil st)
           (lru_set (CACHE_MAX cfg) tend k p (cache st))
           (if route_retry_relaxed p then S (route_relaxed_count st)
            else route_relaxed_count st)
           (incrProvider provider (provider_mix st))).

Definition with_cache (st : state) (c : lru) : state :=
  mkState (breakerUntil st) c (route_relaxed_count st) (provider_mix st).

Definition with_breaker (st : state) (until : Z) : state :=
  mkState until (cache st) (route_relaxed_count st) (provider_mix st).

(** The handler past the cache and the breaker: provider selection, the
    OSRM block, the failure policy and the success tail. The response
    and the requests depend on the request and the upstream replies
    alone; [st1] is the module state when the last reply has come, which
    the tail reads and writes with no [await] in between. An exception
    of [callORS] goes to the handler's [catch], which answers 500. *)
Definition dispatch (cfg : config) (w : world) (tend : Z) (req : request)
    (st1 : state) : response * list upstream_call * state :=
  let exclude := buildExcludeParam (req_avoid req) in
  let k := keyFor (req_stops req) exclude in
  match ors_stage cfg w req with
  | None =>
    (Failure 500 "internal_error" "avoidArr.map is not a function", [], st1)
  | Some (provider, Some p, calls0) => respond_ok cfg tend k provider p calls0 st1
  | Some (provider, None, calls0) =>
    let '(first, relaxed, provider', calls1) :=
      osrm_stage cfg w req exclude provider in
    if no_valid_route first then
      (Failure 502 (failure_code first) (failure_message first),
       calls0 ++ calls1,
       with_breaker st1 (breaker_after_failure tend first (breakerUntil st1)))
    else
      match routes_of first with
      | [] => (Failure 500 "internal_error" "", calls0 ++ calls1, st1)
      | route :: _ =>
        respond_ok cfg tend k provider' (payload_of_route route relaxed)
          (calls0 ++ calls1) st1
      end
  end.

(** The head of the handler, which runs with no [await]: validation,
    the cache lookup and the breaker check, at clock [now]. [inl] is an
    answer given at once, [inr] a request that goes on to the
    providers. *)
Definition receive (cfg : config) (now : Z) (req : request) (st : state)
  : (response + unit) * state :=
  if negb (routeSchema req) then (inl (Failure 400 "invalid_request" ""), st)
  else
    let exclude := buildExcludeParam (req_avoid req) in
    let k := keyFor (req_stops req) exclude in
    let '(hit, c1) := lru_get (CACHE_TTL_MS cfg) now k (cache st) in
    let st1 := with_cache st c1 in
    match hit with
    | Some p => (inl (Json p), st1)
    | None =>
      if now <? breakerUntil st1 then
        (inl (Failure 503 "provider_unavailable"
                "Route provider temporarily unavailable"), st1)
      else (inr tt, st1)
    end.

(** POST /api/route, for a request during which no other request is
    handled. [now] is the clock when the request is received (cache
    lookup and breaker check), [tend] the clock after the upstream
    calls (breaker opening, cache insertion). The result is the response,
    the upstream requests issued in order, and the new module state. *)
Definition route_handler (cfg : config) (w : world) (now tend : Z)
    (req : request) (st : state)
  : response * list upstream_call * state :=
  if negb (routeSchema req) then (Failure 400 "invalid_request" "", [], st)
  else
    let exclude := buildExcludeParam (req_avoid req) in
    let k := keyFor (req_stops req) exclude in
    let '(hit, c1) := lru_get (CACHE_TTL_MS cfg) now k (cache st) in
    let st1 := with_cache st c1 in
    match hit with
    | Some p => (Json p, [], st1)
    | None =>
      if now <? breakerUntil st1 then
        (Failure 503 "provider_unavailable" "Route provider temporarily unavailable",
         [], st1)
      else dispatch cfg w tend req st1
    end.

(** [callORS] is entered with a value that is no array, and throws. *)
Definition callORS_throws (cfg : config) (req : request) : bool :=
  wantsAvoid req && JS.truthy_str (ORS_API_KEY cfg)
  && match req_constraints_avoid req with
     | AvoidOther _ => true
     | AvoidArray _ => false
     end.

(** The invocation reaches the primary provider: the request is valid,
    the cache has no valid entry for its key, the breaker is closed, and
    the secondary provider was not used or did not succeed. *)
Definition reaches_primary (cfg : config) (w : world) (now : Z)
    (req : request) (st : state) : bool :=
  routeSchema req
  && match fst (lru_get (CACHE_TTL_MS cfg) now
                  (keyFor (req_stops req) (buildExcludeParam (req_avoid req)))
                  (cache st)) with
     | Some _ => false
     | None => true
     end
  && negb (now <? breakerUntil st)
  && match ors_stage cfg w req with
     | Some (_, None, _) => true
     | _ => false
     end.

(** The requests of a log that went to the primary provider. *)
Fixpoint osrm_calls (calls : list upstream_call) : list osrm_url :=
  match calls with
  | [] => []
  | CallOSRM u :: rest => u :: osrm_calls rest
  | CallORS _ _ :: rest => osrm_calls rest
  end.

(** A run of the server: requests handled one after the other. *)
Record event : Type := mkEvent {
  ev_world : world;
  ev_now : Z;
  ev_tend : Z;
  ev_req : request
}.

Definition step (cfg : config) (st : state) (e : event) : state :=
  snd (route_handler cfg (ev_world e) (ev_now e) (ev_tend e) (ev_req e) st).

Definition run (cfg : config) (evs : list event) : state :=
  fold_left (step cfg) evs initial_state.

(** Requests in flight together. The handler is [async]: while one
    request awaits a provider, others arrive and settle. [Arrive] is
    the head of a request, [Settle] the tail of a request that went on
    to the providers, on the state in place at that moment. *)
Inductive action : Type :=
  | Arrive (now : Z) (req : request)
  | Settle (w : world) (tend : Z) (req : request).

Definition act (cfg : config) (st : state) (a : action) : state :=
  match a with
  | Arrive now req => snd (receive cfg now req st)
  | Settle w tend req => snd (dispatch cfg w tend req st)
  end.

Definition interleave (cfg : config) (acts : list action) (st : state) : state :=
  fold_left (act cfg) acts st.

End Route.

(* ------------------------------------------------------------------ *)
(** ** routes/sar.js: search along route *)

Module Sar.

(** A place as returned by [placesTextSearch]. *)
Record place : Type := mkPlace {
  id : option string;
  displayName : option string;        (* displayName?.text *)
  pname : option string;              (* name *)
  rating : option Q;
  userRatingCount : option Q;
  priceLevel : option string;
  latitude : option Q;                (* location?.latitude *)
  longitude : option Q;               (* location?.longitude *)
  plat : option Q;                    (* lat *)
  plon : option Q                     (* lon *)
}.

Record search_reply : Type := mkReply {
  s_ok : bool;
  items : option (list place)
}.

(** The fields of a details reply that are copied onto a result. *)
Record detail : Type := mkDetail {
  currentOpeningHours : option string;
  formattedAddress : option string;
  websiteUri : option string
}.

(** A scored point of interest. [extra] holds [hours],
    [formatted_address] and [website] once enriched. *)
Record poi : Type := mkPoi {
  place_id : option string;
  name : option string;
  poi_rating : option Q;
  user_ratings_total : option Q;
  price_level : option string;
  location : point;
  detour_min : Z;
  extra : option detail
}.

(** Indices visited by [for (i = 0; i < len; i += step)], then the last
    index when the loop did not end on it. *)
Definition sample_indices (len : nat) : list nat :=
  let step := Nat.max 1 (len / 20) in
  let idx := List.filter (fun i => (i mod step =? 0)%nat) (seq 0 len) in
  if (List.last idx O =? len - 1)%nat then idx else idx ++ [(len - 1)%nat].

Fixpoint select {A : Type} (l : list A) (idx : list nat) : list A :=
  match idx with
  | [] => []
  | i :: rest =>
    match nth_error l i with
    | Some x => x :: select l rest
    | None => select l rest
    end
  end.

(** The inner loop over [resp.items]: skip a place with no id or an id
    already seen. *)
Fixpoint add_items (its : list place) (seen : gset string) (cands : list place)
  : gset string * list place :=
  match its with
  | [] => (seen, cands)
  | r :: rest =>
    match id r with
    | Some i =>
      if JS.truthy_str i && negb (bool_decide (i ∈ seen))
      then add_items rest ({[i]} ∪ seen) (cands ++ [r])
      else add_items rest seen cands
    | None => add_items rest seen cands
    end
  end.

(** [o_to_c + c_to_d - o_to_d], then [Math.max(0, Math.round(detour_s / 60))]. *)
Definition detour_s_of (o_to_c c_to_d o_to_d : Z) : Z := (o_to_c + c_to_d) - o_to_d.

Definition detour_min_of (detour_s : Z) : Z :=
  Z.max 0 (JS.Math_round (inject_Z detour_s / 60)).

Section WithOracles.

(** [Math.log1p] and the product of two numbers as the engine computes
    them. *)
Variable log1p : Q -> Q.
Variable fmul : Q -> Q -> Q.

(** The upstream services: the text search around the [i]-th sampled
    point, the travel matrix requested for the [j]-th candidate, the
    details of the [i]-th result. *)
Variable placesTextSearch : nat -> point -> search_reply.
Variable googleComputeRouteMatrix : nat -> list point -> string -> matrix_reply.
Variable placeDetails : nat -> option string -> option detail.

(** [(rating||0) * Math.log1p(user_ratings_total||0)] *)
Definition weight (rating total : option Q) : Q :=
  fmul (JS.or_zero rating) (log1p (JS.or_zero total)).

(** Step 2: candidates around the sampled points. *)
Fixpoint collect (i : nat) (sample : list point) (seen : gset string)
    (cands : list place) : list place :=
  match sample with
  | [] => cands
  | p :: rest =>
    let resp := placesTextSearch i p in
    if negb (s_ok resp) then collect (S i) rest seen cands
    else
      let '(seen', cands') := add_items (default [] (items resp)) seen cands in
      if (50 <? length cands')%nat then cands'
      else collect (S i) rest seen' cands'
  end.

(** Step 3 for one candidate: [None] when the loop [continue]s or the
    detour is over the bound. *)
Definition score_candidate (origin dest : point) (mode : string)
    (maxDetourMin : Q) (j : nat) (c : place) : option poi :=
  let clat := JS.nullish (latitude c) (plat c) in
  let clon := JS.nullish (longitude c) (plon c) in
  match clat, clon with
  | Some la, Some lo =>
    if JS.truthy_num la && JS.truthy_num lo then
      match googleComputeRouteMatrix j [origin; mkPoint la lo; dest]
              (JS.toUpperCase mode) with
      | MatrixFail _ => None
      | MatrixOk m =>
        let dur := duration_s m in
        match cell dur 0 1, cell dur 1 2, cell dur 0 2 with
        | Some (JS.Fin o_to_c), Some (JS.Fin c_to_d), Some (JS.Fin o_to_d) =>
          let detour_s := detour_s_of o_to_c c_to_d o_to_d in
          let dm := detour_min_of detour_s in
          if Qle_bool (inject_Z dm) maxDetourMin then
            Some (mkPoi (id c)
                        (if JS.truthy_ostr (displayName c) then displayName c
                         else pname c)
                        (rating c) (userRatingCount c) (priceLevel c)
                        (mkPoint la lo) dm None)
          else None
        | _, _, _ => None
        end
      end
    else None
  | _, _ => None
  end.

Fixpoint score_all (origin dest : point) (mode : string) (maxDetourMin : Q)
    (j : nat) (cands : list place) : list poi :=
  match cands with
  | [] => []
  | c :: rest =>
    match score_candidate origin dest mode maxDetourMin j c with
    | Some p => p :: score_all origin dest mode maxDetourMin (S j) rest
    | None => score_all origin dest mode maxDetourMin (S j) rest
    end
  end.

(** The comparator of step 4. *)
Definition compare_poi (a b : poi) : Q :=
  let d := detour_min a - detour_min b in
  if d =? 0
  then weight (poi_rating b) (user_ratings_total b)
       - weight (poi_rating a) (user_ratings_total a)
  else inject_Z d.

(** Step 5: details for the first six results. *)
Fixpoint enrich (i : nat) (top : list poi) : list poi :=
  match top with
  | [] => []
  | p :: rest =>
    let p' :=
      if (i <? 6)%nat then
        match placeDetails i (place_id p) with
        | Some d =>
          mkPoi (place_id p) (name p) (poi_rating p) (user_ratings_total p)
                (price_level p) (location p) (detour_min p) (Some d)
        | None => p
        end
      else p in
    p' :: enrich (S i) rest
  end.

(** [searchAlongRoute]. [stops] are the points after the
    [{lat, lon: s.lon ?? s.lng}] mapping; [maxResults] is the number
    that [slice(0, maxResults)] reads, which neither caller validates.
    The provider calls are those of a run in which none rejects. *)
Definition searchAlongRoute (query : string) (maxResults : JS.num)
    (maxDetourMin : Q) (stops : list point) (mode : string)
    (enrichDetails : bool) : list poi :=
  if negb (JS.truthy_str query) || (length stops <? 2)%nat then []
  else
    let pts := stops in
    let sample := select pts (sample_indices (length pts)) in
    let candidates := collect O sample ∅ [] in
    match candidates, sample with
    | [], _ => []
    | _, [] => []
    | _, origin :: _ =>
      let dest := List.last sample origin in
      let scored := score_all origin dest mode maxDetourMin O candidates in
      let top := JS.slice_to maxResults (JS.sort compare_poi scored) in
      if enrichDetails then enrich O top else top
    end.

End WithOracles.

End Sar.

(* ------------------------------------------------------------------ *)
(** ** routes/planner.js: POST /planner/plan-day *)

Module Planner.

(** A centre or location whose coordinates may be missing. *)
Record coords : Type := mkCoords { c_lat : option Q; c_lon : option Q }.

(** [origin] / [dest] of the request body. *)
Record latlng : Type := mkLatLng {
  in_lat : option Q;
  in_lon : option Q;
  in_lng : option Q
}.

Record near_origin_spec : Type := mkNear {
  radius_km : option Q;
  types : option (list string);
  min_rating : option Q;
  open_now : option bool;
  limit : option JS.num               (* not validated *)
}.

Record sar_spec : Type := mkSarSpec {
  sar_query : option string;
  sar_maxResults : option JS.num;     (* maxResults ?? max_results *)
  sar_maxDetourMin : option Q         (* maxDetourMin ?? max_detour_min *)
}.

Record body : Type := mkBody {
  origin : option latlng;
  origin_query : option string;
  dest : option latlng;
  mode : option string;
  near_origin : option near_origin_spec;
  sar : option sar_spec
}.

Record resolved : Type := mkResolved {
  r_ok : bool;
  center : coords;
  source : string;
  r_name : option string;
  r_error : string
}.

(** A near-origin candidate. *)
Record candidate : Type := mkCandidate {
  place_id : option string;
  name : string;
  rating : option Q;
  user_ratings_total : option Q;
  loc : coords
}.

(** An end of a timeline leg. A poi carries the fields of its pick (so
    no top-level [lat]/[lon]) and, once enriched, the details. *)
Inductive stop : Type :=
  | StopOrigin (c : coords)
  | StopDest (c : coords)
  | StopPoi (c : option candidate) (details : option Sar.detail).

Record leg : Type := mkLeg {
  from : stop;
  to : stop;
  leg_seconds : option Z;
  eta_seconds : option Z
}.

Record summary : Type := mkSummary {
  s_origin : coords;
  s_dest : coords;
  s_mode : string;
  count : nat;
  plan_mode : string;
  origin_source : string;
  origin_name : option string;
  near_origin_scanned : bool;
  sar_scanned : bool;
  sar_results : list Sar.poi
}.

Inductive plan_response : Type :=
  | PlanFailure (http : Z) (code error : string)
  | PlanOk (s : summary) (order : list nat) (timeline : list leg).

(** *** Greedy nearest-neighbour ordering *)

(** The [for (const idx of unused)] scan: [best] and [bestd] after the
    loop, starting from [null] and [Infinity]. *)
Fixpoint scan (dur : list (list JS.xnum)) (last : nat) (unused : list nat)
    (best : option nat) (bestd : JS.xnum) : option nat * JS.xnum :=
  match unused with
  | [] => (best, bestd)
  | idx :: rest =>
    let d := cell dur last idx in
    if JS.lt_num d bestd
    then scan dur last rest (Some idx) (default bestd d)
    else scan dur last rest best bestd
  end.

(** [unused.delete(best)] on a set kept in insertion order. *)
Definition delete (best : nat) (unused : list nat) : list nat :=
  List.filter (fun i => negb (i =? best)%nat) unused.

(** The [while (unused.size)] loop; [None] when [fuel] iterations did
    not reach its exit. *)
Fixpoint greedy (fuel : nat) (dur : list (list JS.xnum))
    (order unused : list nat) : option (list nat) :=
  match unused with
  | [] => Some order
  | _ =>
    match fst (scan dur (List.last order O) unused None JS.Infinity) with
    | None => Some order
    | Some best =>
      match fuel with
      | O => None
      | S fuel' => greedy fuel' dur (order ++ [best]) (delete best unused)
      end
    end
  end.

(** [order] for [n] waypoints: origin first, the greedy pass over the
    candidates [1 .. n-2], then [n-1]. *)
Definition tsp_order (n : nat) (dur : list (list JS.xnum)) : option (list nat) :=
  option_map (fun order => order ++ [(n - 1)%nat])
             (greedy (n - 2) dur [O] (seq 1 (n - 2))).

(** A complete travel matrix over [n] waypoints: every pair has a finite
    duration. *)
Definition complete (n : nat) (dur : list (list JS.xnum)) : bool :=
  forallb (fun i => forallb (fun j => JS.isFinite (cell dur i j)) (seq 0 n))
          (seq 0 n).

(** The states of the [while] loop, [(order, unused)] at the loop head,
    for [n] waypoints. *)
Inductive loop_state (n : nat) (dur : list (list JS.xnum))
  : list nat -> list nat -> Prop :=
  | loop_enter : loop_state n dur [O] (seq 1 (n - 2))
  | loop_iterate (order unused : list nat) (best : nat) :
      loop_state n dur order unused ->
      fst (scan dur (List.last order O) unused None JS.Infinity) = Some best ->
      loop_state n dur (order ++ [best]) (delete best unused).

(** *** Timeline *)

Definition stop_of (O_ D_ : coords) (picks : list candidate) (n a : nat) : stop :=
  if (a =? 0)%nat then StopOrigin O_
  else if (a =? n - 1)%nat then StopDest D_
  else StopPoi (nth_error picks (a - 1)) None.

Fixpoint build_timeline (O_ D_ : coords) (picks : list candidate) (n : nat)
    (dur : list (list JS.xnum)) (order : list nat) (cum : Z) : list leg :=
  match order with
  | a :: ((b :: _) as rest) =>
    match cell dur a b with
    | Some (JS.Fin leg_s) =>
      mkLeg (stop_of O_ D_ picks n a) (stop_of O_ D_ picks n b)
            (Some leg_s) (Some (cum + leg_s))
        :: build_timeline O_ D_ picks n dur rest (cum + leg_s)
    | _ =>
      mkLeg (stop_of O_ D_ picks n a) (stop_of O_ D_ picks n b) None None
        :: build_timeline O_ D_ picks n dur rest cum
    end
  | _ => []
  end.

(** Top-level [lat] / [lon] of a stop. *)
Definition stop_lat (s : stop) : option Q :=
  match s with
  | StopOrigin c | StopDest c => c_lat c
  | StopPoi _ _ => None
  end.

Definition stop_lon (s : stop) : option Q :=
  match s with
  | StopOrigin c | StopDest c => c_lon c
  | StopPoi _ _ => None
  end.

(** [.filter(p => p.lat && p.lon).map(p => ({lat, lon}))] *)
Fixpoint route_stops (l : list stop) : list point :=
  match l with
  | [] => []
  | s :: rest =>
    match stop_lat s, stop_lon s with
    | Some la, Some lo =>
      if JS.truthy_num la && JS.truthy_num lo
      then mkPoint la lo :: route_stops rest
      else route_stops rest
    | _, _ => route_stops rest
    end
  end.

Section WithOracles.

Variable log1p : Q -> Q.
Variable fmul : Q -> Q -> Q.

(** Upstream services: the text search that resolves [origin_query], the
    search for the [i]-th place type, the travel matrix of the waypoints,
    the details of the [i]-th timeline stop, and the three services of
    the search along the route. *)
Variable searchOrigin : string -> Sar.search_reply.
Variable searchType : nat -> string -> Sar.search_reply.
Variable googleComputeRouteMatrix : list coords -> string -> matrix_reply.
Variable placeDetails : nat -> option string -> option Sar.detail.
Variable sarSearch : nat -> point -> Sar.search_reply.
Variable sarMatrix : nat -> list point -> string -> matrix_reply.

Definition resolvePlaceCenterByQueryOrCoords (lat lon : option Q)
    (query : option string) : resolved :=
  if JS.truthy_onum lat && JS.truthy_onum lon then
    mkResolved true (mkCoords lat lon) "current" None ""
  else if negb (JS.truthy_ostr query) then
    mkResolved false (mkCoords None None) "" None "No coords or query provided"
  else
    let q := default "" query in
    let resp := searchOrigin q in
    match Sar.s_ok resp, Sar.items resp with
    | true, Some (top :: _) =>
      mkResolved true (mkCoords (Sar.latitude top) (Sar.longitude top)) "hotel"
        (if JS.truthy_ostr (Sar.displayName top) then Sar.displayName top
         else Some q)
        ""
    | _, _ =>
      mkResolved false (mkCoords None None) "" None "No results for query"
    end.

(** The inner loop of [collectNearOriginCandidates]. *)
Fixpoint add_places (its : list Sar.place) (seen : gset string)
    (all : list candidate) : gset string * list candidate :=
  match its with
  | [] => (seen, all)
  | r :: rest =>
    match Sar.id r with
    | Some i =>
      if JS.truthy_str i && negb (bool_decide (i ∈ seen))
      then add_places rest ({[i]} ∪ seen)
             (all ++ [mkCandidate (Some i)
                        (if JS.truthy_ostr (Sar.displayName r)
                         then default "" (Sar.displayName r) else "Unknown")
                        (Sar.rating r) (Sar.userRatingCount r)
                        (mkCoords (Sar.latitude r) (Sar.longitude r))])
      else add_places rest seen all
    | None => add_places rest seen all
    end
  end.

Fixpoint collect_types (i : nat) (searchTypes : list string) (lim : JS.num)
    (seen : gset string) (all : list candidate) : list candidate :=
  match searchTypes with
  | [] => all
  | typ :: rest =>
    let resp := searchType i typ in
    match Sar.s_ok resp, Sar.items resp with
    | true, Some its =>
      let '(seen', all') := add_places its seen all in
      if JS.length_ge (length all') lim then all'
      else collect_types (S i) rest lim seen' all'
    | _, _ => collect_types (S i) rest lim seen all
    end
  end.

Definition compare_candidate (a b : candidate) : Q :=
  Sar.weight log1p fmul (rating b) (user_ratings_total b)
  - Sar.weight log1p fmul (rating a) (user_ratings_total a).

Definition collectNearOriginCandidates (types : list string) (lim : JS.num)
  : list candidate :=
  let searchTypes :=
    match types with
    | [] => ["tourist_attraction"]
    | _ => types
    end in
  JS.slice_to lim (JS.sort compare_candidate (collect_types O searchTypes lim ∅ [])).

(** Step 7: details for at most three poi stops, in timeline order. *)
Fixpoint enrich_timeline (i enriched : nat) (tl : list leg) : list leg :=
  match tl with
  | [] => []
  | t :: rest =>
    if (3 <=? enriched)%nat then t :: rest
    else
      match to t with
      | StopPoi (Some c) _ =>
        if JS.truthy_ostr (place_id c) then
          match placeDetails i (place_id c) with
          | Some d =>
            mkLeg (from t) (StopPoi (Some c) (Some d)) (leg_seconds t) (eta_seconds t)
              :: enrich_timeline (S i) (S enriched) rest
          | None => t :: enrich_timeline (S i) enriched rest
          end
        else t :: enrich_timeline (S i) enriched rest
      | _ => t :: enrich_timeline (S i) enriched rest
      end
  end.

Definition coords_eq (a b : option Q) : bool :=
  match a, b with
  | Some x, Some y => Qeq_bool x y
  | None, None => true
  | _, _ => false
  end.

(** [dest?.lat ? { lat: dest.lat, lon: (dest.lon ?? dest.lng) } : O] *)
Definition destination (dest : option latlng) (O_ : coords) : coords :=
  match dest with
  | Some d =>
    if JS.truthy_onum (in_lat d)
    then mkCoords (in_lat d) (JS.nullish (in_lon d) (in_lng d))
    else O_
  | None => O_
  end.

(** The origin as the handler passes it to the resolver. *)
Definition resolve_origin (b : body) : resolved :=
  resolvePlaceCenterByQueryOrCoords
    (match origin b with Some o => in_lat o | None => None end)
    (match origin b with
     | Some o => JS.nullish (in_lon o) (in_lng o)
     | None => None
     end)
    (origin_query b).

(** Step 2: the picks and whether the scan ran. *)
Definition collect_picks (b : body) : list candidate * bool :=
  match near_origin b with
  | Some nr =>
    let cands := collectNearOriginCandidates (default [] (types nr))
                   (default (JS.Num 20) (limit nr)) in
    (List.filter (fun c => JS.truthy_onum (c_lat (loc c))
                           && JS.truthy_onum (c_lon (loc c))) cands,
     true)
  | None => ([], false)
  end.

(** Step 6: the search along the route of the timeline. *)
Definition run_sar (b : body) (md : string) (timeline : list leg)
  : bool * list Sar.poi :=
  match sar b, timeline with
  | Some sp, t0 :: _ =>
    if JS.truthy_ostr (sar_query sp) then
      let routeStops :=
        route_stops (map from timeline ++ [to (List.last timeline t0)]) in
      if (2 <=? length routeStops)%nat then
        (true,
         Sar.searchAlongRoute log1p fmul sarSearch sarMatrix (fun _ _ => None)
           (default "" (sar_query sp))
           (default (JS.Num 12) (sar_maxResults sp))
           (default 15%Q (sar_maxDetourMin sp))
           routeStops md false)
      else (false, [])
    else (false, [])
  | _, _ => (false, [])
  end.

(** Step 4: [[O, ...picks.map(p => p.loc), D]]. *)
Definition plan_waypoints (b : body) : list coords :=
  let O_ := center (resolve_origin b) in
  O_ :: map loc (fst (collect_picks b)) ++ [destination (dest b) O_].

(** POST /planner/plan-day, in a run in which no provider request
    rejects, for a body whose language and mode are strings; outside
    such runs the handler's [catch] answers 500. *)
Definition planDay (b : body) : plan_response :=
  let md := default "drive" (mode b) in
  let originRes := resolve_origin b in
  if negb (r_ok originRes) then PlanFailure 400 "invalid_request" (r_error originRes)
  else
    let O_ := center originRes in
    let D_ := destination (dest b) O_ in
    let planMode :=
      if coords_eq (c_lat D_) (c_lat O_) && coords_eq (c_lon D_) (c_lon O_)
      then "NEARBY" else "A2B" in
    let picks := fst (collect_picks b) in
    let meta := fun cnt sscan sres =>
      mkSummary O_ D_ md cnt planMode (source originRes) (r_name originRes)
                (snd (collect_picks b)) sscan sres in
    match picks with
    | [] => PlanOk (meta O false []) [] []
    | _ =>
      let waypoints := plan_waypoints b in
      match googleComputeRouteMatrix waypoints (JS.toUpperCase md) with
      | MatrixFail _ => PlanFailure 502 "matrix_error" ""
      | MatrixOk m =>
        let n := length waypoints in
        let dur := duration_s m in
        match tsp_order n dur with
        | None => PlanFailure 500 "internal_error" ""
        | Some order =>
          let timeline := build_timeline O_ D_ picks n dur order 0 in
          let sr := run_sar b md timeline in
          PlanOk (meta (length picks) (fst sr) (snd sr)) order
                 (enrich_timeline O O timeline)
        end
      end
    end.

End WithOracles.

End Planner.

(* ------------------------------------------------------------------ *)
(** ** The detour of a candidate, read two ways *)

Module SarDetour.

(** The three legs of a 3-point matrix, when all are finite. *)
Definition legs (m : matrix_res) : option (Z * Z * Z) :=
  let dur := duration_s m in
  match cell dur 0 1, cell dur 1 2, cell dur 0 2 with
  | Some (JS.Fin o_to_c), Some (JS.Fin c_to_d), Some (JS.Fin o_to_d) =>
    Some (o_to_c, c_to_d, o_to_d)
  | _, _, _ => None
  end.

Definition detour_of_legs (l : Z * Z * Z) : Z :=
  let '(o_to_c, c_to_d, o_to_d) := l in
  Sar.detour_min_of (Sar.detour_s_of o_to_c c_to_d o_to_d).

(** As routes/sar.js computes it: the matrix of [origin, candidate,
    destination] is requested from the provider. *)
Definition detour_from_provider (provider : list point -> string -> matrix_reply)
    (origin cpt dest : point) (mode : string) : option Z :=
  match provider [origin; cpt; dest] (JS.toUpperCase mode) with
  | MatrixOk m => option_map detour_of_legs (legs m)
  | MatrixFail _ => None
  end.

(** As the design document words it: the matrix of the same three points
    is obtained through the Matrix Cache ([getTravelMatrix]). *)
Definition detour_via_matrix_cache (Date_parse : string -> option Z)
    (provider : list point -> string -> matrix_reply)
    (store : gmap string MatrixCache.entry) (now tset : Z)
    (origin cpt dest : point) (mode : string) : option Z :=
  match MatrixCache.getTravelMatrix Date_parse provider store now tset
          [origin; cpt; dest] (JS.toUpperCase mode) None with
  | (inl m, _, _) => option_map detour_of_legs (legs m)
  | (inr _, _, _) => None
  end.

End SarDetour.

(* ------------------------------------------------------------------ *)
(** ** providers/google-matrix.js: travel modes and durations *)

Module GoogleMatrix.

Definition TRAVEL_MODES : list string :=
  ["DRIVE"; "WALK"; "BICYCLE"; "TWO_WHEELER"; "TRANSIT"].

(** [toMode], for a mode that is [undefined] or a string, upper-cased
    as ASCII text. *)
Definition toMode (mode : option string) : string :=
  let m := JS.toUpperCase (if JS.truthy_ostr mode then default "" mode else "DRIVE") in
  if existsb (String.eqb m) TRAVEL_MODES then m else "DRIVE".

(** The [duration] field of a matrix row: absent, a number or a
    string. *)
Inductive duration_field : Type :=
  | DurMissing
  | DurNumber (x : Q)
  | DurString (s : string).

(** [\d] *)
Definition is_digit (c : ascii) : bool :=
  let n := nat_of_ascii c in ((48 <=? n) && (n <=? 57))%nat.

(** The group captured by [/^(\d+)s$/], [None] when the string does not
    match. *)
Fixpoint match_seconds (s : string) : option string :=
  match s with
  | EmptyString => None
  | String c rest =>
    if is_digit c then
      match rest with
      | String "s" EmptyString => Some (String c EmptyString)
      | _ => option_map (String c) (match_seconds rest)
      end
    else None
  end.

(** [parseInt(digits, 10)] on a string of decimal digits; exact below
    [2^53]. *)
Definition parseInt (digits : string) : Z :=
  match NilZero.uint_of_string digits with
  | Some u => Z.of_uint u
  | None => 0
  end.

Definition parseDurationSeconds (d : duration_field) : Z :=
  match d with
  | DurMissing => 0
  | DurNumber x => if JS.truthy_num x then JS.Math_round x else 0
  | DurString s =>
    if JS.truthy_str s then
      match match_seconds s with
      | Some digits => parseInt digits
      | None => 0
      end
    else 0
  end.

End GoogleMatrix.

(* ------------------------------------------------------------------ *)
(** ** providers/google-places.js: text search *)

Module GooglePlaces.

(** What [fetch] and [r.json()] give: a rejection, a non-2xx reply with
    its body, or the parsed reply with its [places] field. *)
Inductive http_reply : Type :=
  | Rejected
  | HttpError (status : Z) (body : string)
  | HttpOk (places : option (list Sar.place)).

Record search_result : Type := mkResult {
  ok : bool;
  items : option (list Sar.place);
  error : option string;
  status : option Z;
  body : option string
}.

(** The function returns, or the rejection of [fetch] propagates. *)
Inductive outcome : Type :=
  | Raised
  | Returned (r : search_result).

Section WithMath.

Variable log1p : Q -> Q.
Variable fmul : Q -> Q -> Q.

Definition scorePlace (p : Sar.place) : Q :=
  fmul (JS.or_zero (Sar.rating p)) (log1p (JS.or_zero (Sar.userRatingCount p))).

(** [!minRating || (p.rating || 0) >= minRating] *)
Definition rated (minRating : Q) (p : Sar.place) : bool :=
  negb (JS.truthy_num minRating) || Qle_bool minRating (JS.or_zero (Sar.rating p)).

(** [(a, b) => b._score - a._score] *)
Definition by_score (a b : Sar.place) : Q := scorePlace b - scorePlace a.

(** [placesTextSearch]: [API_KEY] is the environment variable,
    [minRating] the lower bound on the rating, [reply] what the
    provider answers. *)
Definition placesTextSearch (API_KEY : option string) (minRating : Q)
    (reply : http_reply) : outcome :=
  if negb (JS.truthy_ostr API_KEY)
  then Returned (mkResult false None (Some "no_api_key") None None)
  else
    match reply with
    | Rejected => Raised
    | HttpError st text => Returned (mkResult false None None (Some st) (Some text))
    | HttpOk places =>
      Returned (mkResult true
                  (Some (JS.sort by_score
                           (List.filter (rated minRating) (default [] places))))
                  None None None)
    end.

End WithMath.

End GooglePlaces.

(* ------------------------------------------------------------------ *)
(** ** ops/metrics.js: rolling-window request metrics *)

Module Metrics.

Definition buckets : list Z :=
  [50; 100; 200; 300; 400; 600; 800; 1200; 2000; 3000; 5000; 8000; 12000].

(** A service: requests, errors and the samples [[time, ms]]. *)
Record svc : Type := mkSvc {
  reqs : nat;
  errs : nat;
  samples : list (Z * Z)
}.

Definition makeSvc : svc := mkSvc O O [].

(** [while (s.samples.length && s.samples[0][0] < cutoff) s.samples.shift()] *)
Fixpoint trim (cutoff : Z) (samples : list (Z * Z)) : list (Z * Z) :=
  match samples with
  | [] => []
  | (t, ms) :: rest => if t <? cutoff then trim cutoff rest else samples
  end.

(** [observe(kind, ms, ok)]: [tpush] is the clock when the sample is
    pushed, [tcut] the clock when the cutoff is computed. *)
Definition observe (WINDOW_MS : Z) (tpush tcut : Z) (kind : string) (ms : Z)
    (ok : bool) (services : gmap string svc) : gmap string svc :=
  let s := default makeSvc (services !! kind) in
  <[kind := mkSvc (S (reqs s))
                  (if ok then errs s else S (errs s))
                  (trim (tcut - WINDOW_MS) (samples s ++ [(tpush, ms)]))]> services.

(** The durations of the samples inside the window. *)
Definition recent (cutoff : Z) (s : svc) : list Z :=
  map snd (List.filter (fun e => cutoff <=? fst e) (samples s)).

(** The [buckets] field of a snapshot: for each bound the number of
    recent durations at or below it. *)
Definition snapshot_buckets (cutoff : Z) (s : svc) : list (Z * nat) :=
  map (fun b => (b, length (List.filter (fun ms => ms <=? b) (recent cutoff s))))
      buckets.

(** One call of [observe]. *)
Record observation : Type := mkObs {
  o_tpush : Z;
  o_tcut : Z;
  o_kind : string;
  o_ms : Z;
  o_ok : bool
}.

Definition step (WINDOW_MS : Z) (services : gmap string svc) (o : observation)
  : gmap string svc :=
  observe WINDOW_MS (o_tpush o) (o_tcut o) (o_kind o) (o_ms o) (o_ok o) services.

Definition run (WINDOW_MS : Z) (obs : list observation) : gmap string svc :=
  fold_left (step WINDOW_MS) obs ∅.

End Metrics.

(* ------------------------------------------------------------------ *)
(** ** ops/cache-places.js and the place-details route *)

Module Places.

Section WithDetail.

(** The JSON value of a place-details reply, and its truthiness
    [Boolean(d)]: the body is whatever JSON the provider sent. *)
Variable detail : Type.
Variable truthy : detail -> bool.

(** What the shared cache holds: the items of a search or the details
    of a place. *)
Inductive cached_value : Type :=
  | Items (l : list Sar.place)
  | Detail (d : detail).

(** [Boolean(cached)]: an array of items is an object. *)
Definition truthy_cached (c : cached_value) : bool :=
  match c with
  | Items _ => true
  | Detail d => truthy d
  end.

Record entry : Type := mkEntry { t : Z; v : cached_value }.

Definition SEARCH_TTL : Z := 10 * 60 * 1000.
Definition DETAILS_TTL : Z := 6 * 60 * 60 * 1000.

Definition keyDetails (id lang : string) : string :=
  "D|" +:+ lang +:+ "|" +:+ id.

(** The body shared by [getSearchCache] and [getDetailsCache]. *)
Definition get (ttl : Z) (k : string) (now : Z) (cache : gmap string entry)
  : option cached_value * gmap string entry :=
  match cache !! k with
  | None => (None, cache)
  | Some e =>
    if ttl <? now - t e then (None, delete k cache) else (Some (v e), cache)
  end.

Definition getSearchCache := get SEARCH_TTL.
Definition getDetailsCache := get DETAILS_TTL.

(** [setSearchCache] and [setDetailsCache] *)
Definition set (k : string) (value : cached_value) (now : Z)
    (cache : gmap string entry) : gmap string entry :=
  <[k := mkEntry now value]> cache.

(** What [fetch] and [r.json()] give for a details request. *)
Inductive http_reply : Type :=
  | Rejected
  | HttpError (status : Z) (body : string)
  | HttpOk (d : detail).

(** What [placeDetails] resolves to: [{ok: true, detail}] or
    [{ok: false, error, status, body}]. *)
Inductive details_result : Type :=
  | DetailsOk (d : detail)
  | DetailsFail (error : option string) (status : option Z) (body : option string).

(** [placeDetails] of providers/google-places.js; [None] when the
    rejection of [fetch] propagates. *)
Definition placeDetails (API_KEY : option string) (reply : http_reply)
  : option details_result :=
  if negb (JS.truthy_ostr API_KEY)
  then Some (DetailsFail (Some "no_api_key") None None)
  else
    match reply with
    | Rejected => None
    | HttpError st text => Some (DetailsFail None (Some st) (Some text))
    | HttpOk d => Some (DetailsOk d)
    end.

(** [r.error || r.status || r.body] *)
Inductive failure_detail : Type :=
  | FailText (s : string)
  | FailStatus (st : Z)
  | FailNone.

Definition failure_of (error : option string) (status : option Z)
    (body : option string) : failure_detail :=
  if JS.truthy_ostr error then FailText (default "" error)
  else
    match status with
    | Some st =>
      if negb (st =? 0) then FailStatus st
      else match body with Some b => FailText b | None => FailNone end
    | None => match body with Some b => FailText b | None => FailNone end
    end.

Inductive response : Type :=
  | Invalid
  | ProviderError (why : failure_detail)
  | Place (cached : bool) (place : cached_value)
  | Unhandled.

(** [req.headers['x-lang'] === 'en' ? 'en' : 'he'] *)
Definition lang_of (header : option string) : string :=
  match header with
  | Some h => if String.eqb h "en" then "en" else "he"
  | None => "he"
  end.

(** The route past the cache: the provider request and its outcome. *)
Definition fetch_details (API_KEY : option string) (reply : http_reply)
    (tset : Z) (k : string) (cache1 : gmap string entry)
  : response * nat * gmap string entry :=
  let calls := if JS.truthy_ostr API_KEY then 1%nat else O in
  match placeDetails API_KEY reply with
  | None => (Unhandled, calls, cache1)
  | Some (DetailsOk d) =>
    (Place false (Detail d), calls, set k (Detail d) tset cache1)
  | Some (DetailsFail e st b) =>
    (ProviderError (failure_of e st b), calls, cache1)
  end.

(** GET /api/places/:id. [id] is [String(req.params.id || '')], [now]
    the clock at the lookup and [tset] the clock at the insertion. The
    result is the response, the number of provider requests and the new
    cache. The cached value is served under [if (cached)], so a falsy
    one is fetched again. *)
Definition details_route (API_KEY : option string) (reply : http_reply)
    (now tset : Z) (header : option string) (id : string)
    (cache : gmap string entry) : response * nat * gmap string entry :=
  let lang := lang_of header in
  if negb (JS.truthy_str id) then (Invalid, O, cache)
  else
    let k := keyDetails id lang in
    let '(cached, cache1) := getDetailsCache k now cache in
    match cached with
    | Some c =>
      if truthy_cached c then (Place true c, O, cache1)
      else fetch_details API_KEY reply tset k cache1
    | None => fetch_details API_KEY reply tset k cache1
    end.

End WithDetail.

End Places.

(* ================================================================== *)
(* ------------------------------------------------------------------ *)
(** ** The matrix endpoint of routes/route.js and POST /api/poi/along-route *)

Module Endpoints.

Inductive matrix_response : Type :=
  | MatrixInvalid                                   (* 400 invalid_points *)
  | MatrixSample (n : nat) (sample : list (list JS.xnum))
  | MatrixError.                                    (* 502 matrix_error *)

(** [out.matrix.duration_s.slice(0, 3).map(r => r.slice(0, 3))] *)
Definition sample_of (dur : list (list JS.xnum)) : list (list JS.xnum) :=
  map (firstn 3) (firstn 3 dur).

(** The elements of [points] on which [hashPoints] can call
    [p.lat.toFixed(4)] and [p.lon.toFixed(4)]: [None] once one element
    is not an object with two numbers, and the cache key cannot be
    built. *)
Fixpoint well_formed (pts : list (option point)) : option (list point) :=
  match pts with
  | [] => Some []
  | None :: _ => None
  | Some p :: rest =>
    match well_formed rest with
    | Some ps => Some (p :: ps)
    | None => None
    end
  end.

Section WithDateParse.

Variable Date_parse : string -> option Z.

(** POST /matrix of routes/route.js. [points] is [None] when the body
    holds no array; an element of the array is [None] when it is not an
    object whose [lat] and [lon] are numbers. The schema of the route
    endpoint does not apply here, so the array is read as it came. The
    result is the response, the number of provider requests and the new
    matrix store. Building the cache key throws on a malformed element,
    and the handler's [catch] answers 502 before any provider request. *)
Definition matrix_route (provider : list point -> string -> matrix_reply)
    (store : gmap string MatrixCache.entry) (now tset : Z)
    (points : option (list (option point))) (mode departureTime : option string)
  : matrix_response * nat * gmap string MatrixCache.entry :=
  match points with
  | None => (MatrixInvalid, O, store)
  | Some raw =>
    if (length raw <? 2)%nat then (MatrixInvalid, O, store)
    else
      match well_formed raw with
      | None => (MatrixError, O, store)
      | Some pts =>
        let '(out, calls, store') :=
          MatrixCache.getTravelMatrix Date_parse provider store now tset pts
            (default "DRIVE" mode) departureTime in
        match out with
        | inl m => (MatrixSample (mx_n m) (sample_of (duration_s m)), calls, store')
        | inr _ => (MatrixError, calls, store')
        end
      end
  end.

End WithDateParse.

(** [route.stops] of the body of POST /api/poi/along-route: absent (the
    default [[]] applies), an array of stops, or another JSON value, of
    which the handler reads [!stops || stops.length < 2]. *)
Inductive stops_value : Type :=
  | StopsAbsent
  | StopsArray (stops : list point)
  | StopsOther (too_short : bool).

Definition stops_rejected (v : stops_value) : bool :=
  match v with
  | StopsAbsent => true
  | StopsArray stops => (length stops <? 2)%nat
  | StopsOther too_short => too_short
  end.

(** The body of POST /api/poi/along-route. [b_lang_sliceable] tells
    whether [req.header('x-lang') || req.body.lang || 'he'] has a
    [slice] method, as every string has; [b_maxResults] is the number
    that [slice(0, maxResults)] reads. *)
Record sar_body : Type := mkSarBody {
  b_lang_sliceable : bool;
  b_query : option string;
  b_maxResults : option JS.num;
  b_maxDetourMin : option Q;
  b_polyline : option string;           (* route.polyline *)
  b_stops : stops_value;                (* route.stops *)
  b_mode : option string                (* route.mode *)
}.

Inductive sar_response : Type :=
  | SarInvalid (error : string)                       (* 400 invalid_request *)
  | SarOk (count : nat) (results : list Sar.poi)
  | SarFailed.                                        (* 500 internal_error *)

Section WithOracles.

Variable log1p : Q -> Q.
Variable fmul : Q -> Q -> Q.
Variable placesTextSearch : nat -> point -> Sar.search_reply.
Variable googleComputeRouteMatrix : nat -> list point -> string -> matrix_reply.
Variable placeDetails : nat -> option string -> option Sar.detail.

(** [polyline.decode] of the @mapbox/polyline package, with the mapping
    to [{lat, lon}]. *)
Variable decode : string -> list point.

(** The handler, in a run in which no provider request rejects. The
    [catch] answers 500 when the language value has no [slice], before
    the body is validated, and when [stops.map] is called on a value
    that is no array. *)
Definition along_route (b : sar_body) : sar_response :=
  if negb (b_lang_sliceable b) then SarFailed
  else if negb (JS.truthy_ostr (b_query b)) then SarInvalid "query required"
  else if negb (JS.truthy_ostr (b_polyline b)) && stops_rejected (b_stops b)
  then SarInvalid "route.polyline or route.stops (>=2) required"
  else
    let points :=
      if JS.truthy_ostr (b_polyline b)
      then Some (decode (default "" (b_polyline b)))
      else match b_stops b with
           | StopsArray stops => Some stops
           | StopsAbsent | StopsOther _ => None
           end in
    match points with
    | None => SarFailed
    | Some pts =>
      let results :=
        Sar.searchAlongRoute log1p fmul placesTextSearch googleComputeRouteMatrix
          placeDetails (default "" (b_query b))
          (default (JS.Num 12) (b_maxResults b))
          (default 15%Q (b_maxDetourMin b)) pts (default "drive" (b_mode b)) true in
      SarOk (length results) results
    end.

End WithOracles.

End Endpoints.

(* ------------------------------------------------------------------ *)
(** ** routes/hazards.js: normalisation of the feeds *)

Module Hazards.

Definition lower_ascii (c : ascii) : ascii :=
  let n := nat_of_ascii c in
  if ((65 <=? n) && (n <=? 90))%nat then ascii_of_nat (n + 32) else c.

(** [String.prototype.toLowerCase] on ASCII text. *)
Fixpoint toLowerCase (s : string) : string :=
  match s with
  | EmptyString => EmptyString
  | String c rest => String (lower_ascii c) (toLowerCase rest)
  end.

(** [s.includes(sub)] *)
Fixpoint includes (s sub : string) : bool :=
  String.prefix sub s
  || match s with
     | EmptyString => false
     | String _ rest => includes rest sub
     end.

(** A GeoJSON geometry; positions are [[lon, lat]]. *)
Inductive geometry : Type :=
  | Point (position : Q * Q)
  | LineString (coordinates : list (Q * Q))
  | Polygon (coordinates : list (list (Q * Q)))
  | OtherGeometry.

(** [[lat, lon]] of the position. *)
Definition flip (p : Q * Q) : Q * Q := (snd p, fst p).

Definition middle (l : list (Q * Q)) : option (Q * Q) :=
  option_map flip (nth_error l (length l / 2)).

Definition getCenterPoint (g : option geometry) : option (Q * Q) :=
  match g with
  | None => None
  | Some (Point p) => Some (flip p)
  | Some (LineString coords) =>
    if (0 <? length coords)%nat then middle coords else None
  | Some (Polygon rings) =>
    match rings with
    | ring :: _ => if (0 <? length ring)%nat then middle ring else None
    | [] => None
    end
  | Some OtherGeometry => None
  end.

(** A feature of a provider feed, with the properties that the code
    reads. *)
Record raw_feature : Type := mkRaw {
  r_geometry : option geometry;
  r_severity : option string;       (* properties?.severity *)
  r_SEVERITY : option string;       (* properties?.SEVERITY *)
  r_headline : option string;
  r_event : option string;
  r_title : option string
}.

Record feature : Type := mkFeature {
  f_geometry : option geometry;
  kind : string;
  severity : string;
  title : string
}.

(** [a || b], on strings that may be absent. *)
Definition or_str (a : option string) (b : string) : string :=
  if JS.truthy_ostr a then default "" a else b.

Definition weather_feature (f : raw_feature) : feature :=
  let sevStr := toLowerCase (or_str (r_severity f) (or_str (r_SEVERITY f) "")) in
  let sev := if includes sevStr "severe" then "severe"
             else if includes sevStr "moderate" then "moderate"
             else "minor" in
  mkFeature (r_geometry f) "weather" sev
            (or_str (r_headline f) (or_str (r_event f) "Weather Alert")).

(** [normalizeWeather]; [None] is a feed without [features]. *)
Definition normalizeWeather (fc : option (list raw_feature)) : list feature :=
  map weather_feature (default [] fc).

Definition traffic_feature (f : raw_feature) : feature :=
  mkFeature (r_geometry f) "traffic" (or_str (r_severity f) "moderate")
            (or_str (r_title f) "Traffic Incident").

Definition normalizeTraffic (fc : option (list raw_feature)) : list feature :=
  map traffic_feature (default [] fc).

Record payload : Type := mkPayload {
  severe : bool;
  count_weather : nat;
  count_traffic : nat;
  weather : list feature;
  traffic : list feature
}.

Section WithDistance.

(** The haversine distance in metres, as the engine computes it. *)
Variable distanceMeters : Q -> Q -> Q -> Q -> Q.

Definition isWithinRadius (lat lon : Q) (f : feature) (radiusMeters : Q) : bool :=
  match getCenterPoint (f_geometry f) with
  | None => false
  | Some (clat, clon) => Qle_bool (distanceMeters lat lon clat clon) radiusMeters
  end.

(** The payload that GET /api/hazards builds from the two feeds. *)
Definition hazards_payload (lat lon radius : Q)
    (weatherRaw trafficRaw : option (list raw_feature)) : payload :=
  let weatherIn :=
    List.filter (fun f => isWithinRadius lat lon f radius) (normalizeWeather weatherRaw) in
  let trafficIn :=
    List.filter (fun f => isWithinRadius lat lon f radius) (normalizeTraffic trafficRaw) in
  mkPayload
    (existsb (fun f => String.eqb (severity f) "severe") weatherIn
     || existsb (fun f => includes (toLowerCase (severity f)) "severe") trafficIn)
    (length weatherIn) (length trafficIn) weatherIn trafficIn.

End WithDistance.

End Hazards.

(** * Properties *)

(* ------------------------------------------------------------------ *)
(** ** The primitives on small inputs *)

Example toFixed_examples :
  JS.toFixed 5 (320853 # 10000) = "32.08530"
  /\ JS.toFixed 4 (- (347818 # 10000)) = "-34.7818"
  /\ JS.toFixed 5 (5 # 1000000) = "0.00001"
  /\ JS.toFixed 5 (- (1 # 1000000)) = "-0.00000"
  /\ JS.toFixed 0 (5 # 2) = "3".
Proof. repeat split; vm_compute; reflexivity. Qed.

Example Math_round_examples :
  JS.Math_round (100 # 60) = 2 /\ JS.Math_round (5 # 2) = 3
  /\ JS.Math_round (- (1 # 2)) = 0 /\ JS.Math_round (- (3 # 2)) = -1.
Proof. repeat split; vm_compute; reflexivity. Qed.

Example keyFor_example :
  Route.keyFor [mkPoint (320853 # 10000) (347818 # 10000); mkPoint 1 2]
    (Route.buildExcludeParam ["tolls"; "highways"; "tolls"])
  = "r:32.08530,34.78180->1.00000,2.00000:ex=toll,motorway".
Proof. vm_compute. reflexivity. Qed.

Example cacheKey_example :
  MatrixCache.cacheKey (fun _ => None) "DRIVE"
    [mkPoint (320853 # 10000) (347818 # 10000); mkPoint 1 2] None 1700000000000
  = "DRIVE|32.0853,34.7818|1.0000,2.0000|5666666".
Proof. vm_compute. reflexivity. Qed.

Example sample_indices_examples :
  Sar.sample_indices 2 = [0; 1]%nat
  /\ Sar.sample_indices 42 = (List.filter Nat.even (seq 0 42) ++ [41])%nat
  /\ Sar.sample_indices 41 = List.filter Nat.even (seq 0 41).
Proof. repeat split; vm_compute; reflexivity. Qed.

(** An unreachable candidate ends the greedy pass early; the destination
    is still appended. *)
Example tsp_order_examples :
  Planner.tsp_order 4
    [[JS.Fin 0; JS.Fin 9; JS.Fin 4; JS.Fin 1]; [JS.Fin 9; JS.Fin 0; JS.Fin 2; JS.Fin 1];
     [JS.Fin 4; JS.Fin 2; JS.Fin 0; JS.Fin 1]; [JS.Fin 1; JS.Fin 1; JS.Fin 1; JS.Fin 0]]
  = Some [0; 2; 1; 3]%nat
  /\ Planner.tsp_order 3 [[JS.Fin 0; JS.Infinity; JS.Fin 5]] = Some [0; 2]%nat.
Proof. split; vm_compute; reflexivity. Qed.

(* ------------------------------------------------------------------ *)
(** ** Rendering of numbers *)

Section Rendering.

Lemma to_int_proper (z : Z) :
  Z.to_int z <> Decimal.Pos Decimal.Nil /\ Z.to_int z <> Decimal.Neg Decimal.Nil.
Proof.
  destruct z as [|p|p]; simpl; split; try discriminate;
    intros [= H]; exact (DecimalPos.Unsigned.to_uint_nonnil p H).
Qed.

Lemma int_to_string_parse (z : Z) :
  NilZero.int_of_string (JS.int_to_string z) = Some (Z.to_int z).
Proof.
  unfold JS.int_to_string. destruct (to_int_proper z) as [Hp Hn].
  now apply NilZero.isi.
Qed.

Lemma int_to_string_inj (a b : Z) :
  JS.int_to_string a = JS.int_to_string b -> a = b.
Proof.
  intros H. apply DecimalZ.to_int_inj.
  pose proof (int_to_string_parse a) as Ha.
  rewrite H, int_to_string_parse in Ha. congruence.
Qed.

Lemma num_to_string_inj (a b : option Z) :
  JS.num_to_string a = JS.num_to_string b -> a = b.
Proof.
  destruct a as [a|], b as [b|]; simpl; intros H.
  - f_equal. now apply int_to_string_inj.
  - pose proof (int_to_string_parse a) as Ha. rewrite H in Ha. discriminate.
  - pose proof (int_to_string_parse b) as Hb. rewrite <- H in Hb. discriminate.
  - reflexivity.
Qed.

End Rendering.

(* ------------------------------------------------------------------ *)
(** ** Matrix cache *)

Section MatrixCacheFacts.

Variable Date_parse : string -> option Z.

Local Abbreviation cacheKey := (MatrixCache.cacheKey Date_parse).
Local Abbreviation timeBucket := (MatrixCache.timeBucket Date_parse).
Local Abbreviation getMatrixCache := (MatrixCache.getMatrixCache Date_parse).

Lemma cacheKey_bucket (mode : string) (points : list point)
    (iso iso' : option string) (now now' : Z) :
  cacheKey mode points iso now = cacheKey mode points iso' now' <->
  timeBucket iso now = timeBucket iso' now'.
Proof.
  unfold MatrixCache.cacheKey. split.
  - intros H. do 4 apply String.app_inj in H. now apply num_to_string_inj.
  - now intros ->.
Qed.

(** With an explicit departure time the key does not depend on the clock. *)
Lemma cacheKey_explicit (mode : string) (points : list point) (s : string)
    (now now' : Z) :
  JS.truthy_str s = true ->
  cacheKey mode points (Some s) now = cacheKey mode points (Some s) now'.
Proof.
  intros Hs. apply cacheKey_bucket. unfold MatrixCache.timeBucket.
  now rewrite Hs.
Qed.

Lemma getMatrixCache_key (store : gmap string MatrixCache.entry) (now : Z)
    (mode : string) (points : list point) (iso : option string) :
  MatrixCache.key (fst (getMatrixCache store now mode points iso))
  = cacheKey mode points iso now.
Proof.
  unfold MatrixCache.getMatrixCache.
  destruct (store !! _) as [ent|]; [destruct (_ <? _)|]; reflexivity.
Qed.

Lemma getMatrixCache_fresh (store : gmap string MatrixCache.entry) (now : Z)
    (mode : string) (points : list point) (iso : option string)
    (ent : MatrixCache.entry) :
  store !! cacheKey mode points iso now = Some ent ->
  now - MatrixCache.t ent <= 60000 ->
  getMatrixCache store now mode points iso
  = (MatrixCache.mkLookup true (cacheKey mode points iso now)
       (Some (MatrixCache.v ent)), store).
Proof.
  intros Hk Hage. unfold MatrixCache.getMatrixCache. rewrite Hk.
  destruct (60000 <? now - MatrixCache.t ent) eqn:E; [lia | reflexivity].
Qed.

Lemma getMatrixCache_expired (store : gmap string MatrixCache.entry) (now : Z)
    (mode : string) (points : list point) (iso : option string)
    (ent : MatrixCache.entry) :
  store !! cacheKey mode points iso now = Some ent ->
  60000 < now - MatrixCache.t ent ->
  getMatrixCache store now mode points iso
  = (MatrixCache.mkLookup false (cacheKey mode points iso now) None,
     delete (cacheKey mode points iso now) store).
Proof.
  intros Hk Hage. unfold MatrixCache.getMatrixCache. rewrite Hk.
  destruct (60000 <? now - MatrixCache.t ent) eqn:E; [reflexivity | lia].
Qed.

Lemma getMatrixCache_absent (store : gmap string MatrixCache.entry) (now : Z)
    (mode : string) (points : list point) (iso : option string) :
  store !! cacheKey mode points iso now = None ->
  getMatrixCache store now mode points iso
  = (MatrixCache.mkLookup false (cacheKey mode points iso now) None, store).
Proof.
  intros Hk. unfold MatrixCache.getMatrixCache. now rewrite Hk.
Qed.

Lemma getMatrixCache_hit_iff (store : gmap string MatrixCache.entry) (now : Z)
    (mode : string) (points : list point) (iso : option string) :
  MatrixCache.hit (fst (getMatrixCache store now mode points iso)) = true <->
  exists ent, store !! cacheKey mode points iso now = Some ent
              /\ now - MatrixCache.t ent <= 60000.
Proof.
  destruct (store !! cacheKey mode points iso now) as [ent|] eqn:Hk.
  - destruct (Z_le_gt_dec (now - MatrixCache.t ent) 60000) as [Hle|Hgt].
    + rewrite (getMatrixCache_fresh _ _ _ _ _ _ Hk Hle). simpl.
      split; [intros _; eauto | reflexivity].
    + rewrite (getMatrixCache_expired _ _ _ _ _ _ Hk ltac:(lia)). simpl.
      split; [discriminate | intros (e & [= <-] & He); lia].
  - rewrite (getMatrixCache_absent _ _ _ _ _ Hk). simpl.
    split; [discriminate | intros (e & [=] & _)].
Qed.

Lemma getMatrixCache_other_key (store : gmap string MatrixCache.entry)
    (k : string) (e : MatrixCache.entry) (now : Z)
    (mode : string) (points : list point) (iso : option string) :
  k <> cacheKey mode points iso now ->
  fst (getMatrixCache (<[k := e]> store) now mode points iso)
  = fst (getMatrixCache store now mode points iso).
Proof.
  intros Hne. unfold MatrixCache.getMatrixCache.
  rewrite lookup_insert_ne by exact Hne.
  destruct (store !! _) as [ent|]; [destruct (_ <? _)|]; reflexivity.
Qed.

(** C8 (as amended): a matrix cache entry is valid iff
    [now - insertedAt <= 60s] (the boundary instant included), whatever
    the 5-minute bucket of the clock: a valid entry is returned and the
    store kept; an expired one is reported as a miss and deleted by that
    lookup; an entry stored for an explicit departure time is still hit
    at any later clock within 60s, also past the bucket boundary; and an
    entry stored for one bucket is never seen by a request whose
    departure time (explicit or current) falls in another bucket, which
    misses unless its own key was already stored. *)
Theorem matrix_cache_ttl_and_bucket (store : gmap string MatrixCache.entry)
    (now : Z) (mode : string) (points : list point) (iso : option string) :
  let key := cacheKey mode points iso now in
  let r := getMatrixCache store now mode points iso in
  (MatrixCache.hit (fst r) = true <->
     exists ent, store !! key = Some ent /\ now - MatrixCache.t ent <= 60000)
  /\ (forall ent, store !! key = Some ent -> now - MatrixCache.t ent <= 60000 ->
        MatrixCache.value (fst r) = Some (MatrixCache.v ent) /\ snd r = store)
  /\ (forall ent, store !! key = Some ent -> 60000 < now - MatrixCache.t ent ->
        MatrixCache.hit (fst r) = false /\ snd r = delete key store)
  /\ (forall s t0 val now', iso = Some s -> JS.truthy_str s = true ->
        now' - t0 <= 60000 ->
        fst (getMatrixCache (MatrixCache.setMatrixCache store t0 key val)
               now' mode points iso)
        = MatrixCache.mkLookup true key (Some val))
  /\ (forall iso' now' t0 val, timeBucket iso' now' <> timeBucket iso now ->
        fst (getMatrixCache (MatrixCache.setMatrixCache store t0 key val)
               now' mode points iso')
        = fst (getMatrixCache store now' mode points iso')
        /\ (store !! cacheKey mode points iso' now' = None ->
            MatrixCache.hit
              (fst (getMatrixCache (MatrixCache.setMatrixCache store t0 key val)
                      now' mode points iso')) = false)).
Proof.
  intros key r. subst r. repeat split.
  - apply getMatrixCache_hit_iff.
  - apply getMatrixCache_hit_iff.
  - now rewrite (getMatrixCache_fresh _ _ _ _ _ _ H H0).
  - now rewrite (getMatrixCache_fresh _ _ _ _ _ _ H H0).
  - now rewrite (getMatrixCache_expired _ _ _ _ _ _ H H0).
  - now rewrite (getMatrixCache_expired _ _ _ _ _ _ H H0).
  - intros s t0 val now' -> Hs Hage.
    assert (Hk : cacheKey mode points (Some s) now' = key)
      by (now apply cacheKey_explicit).
    unfold MatrixCache.setMatrixCache.
    rewrite (getMatrixCache_fresh _ _ _ _ _ (MatrixCache.mkEntry t0 val));
      rewrite ?Hk; simpl; try lia; [reflexivity|].
    apply lookup_insert_eq.
  - apply getMatrixCache_other_key. subst key.
    intros Heq. apply H. symmetry. now apply cacheKey_bucket in Heq.
  - intros Hnone. unfold MatrixCache.setMatrixCache.
    rewrite getMatrixCache_other_key.
    + now rewrite (getMatrixCache_absent _ _ _ _ _ Hnone).
    + subst key. intros Heq. apply H. symmetry. now apply cacheKey_bucket in Heq.
Qed.

End MatrixCacheFacts.

(** C8 (as stated) fails at the boundary: an entry inserted at clock 0 is
    still returned at clock 60000, where [now - insertedAt < 60s] is
    false. *)
Lemma matrix_cache_strict_ttl_counterexample :
  ~ (forall (store : gmap string MatrixCache.entry) (now : Z) (mode : string)
            (points : list point) (iso : option string),
       MatrixCache.hit
         (fst (MatrixCache.getMatrixCache (fun _ => None) store now mode points iso))
       = true <->
       exists ent,
         store !! MatrixCache.cacheKey (fun _ => None) mode points iso now = Some ent
         /\ now - MatrixCache.t ent < 60000).
Proof.
  intros H.
  pose (m := mkMatrix 2 [[JS.Fin 0; JS.Fin 7]; [JS.Fin 7; JS.Fin 0]]
                        [[JS.Fin 0; JS.Fin 90]; [JS.Fin 90; JS.Fin 0]]).
  pose (pts := [mkPoint 1 2; mkPoint 3 4]).
  pose (k := MatrixCache.cacheKey (fun _ => None) "DRIVE" pts None 60000).
  specialize (H (<[k := MatrixCache.mkEntry 0 m]> ∅) 60000 "DRIVE" pts None).
  destruct H as [H _].
  destruct H as (ent & Hent & Hage).
  - rewrite (getMatrixCache_fresh _ _ _ _ _ _ (MatrixCache.mkEntry 0 m)).
    + reflexivity.
    + apply lookup_insert_eq.
    + simpl. lia.
  - fold k in Hent. rewrite lookup_insert_eq in Hent.
    injection Hent as <-. simpl in Hage. lia.
Qed.

(** C8, a concrete run: an entry stored at clock 299990 for the explicit
    departure time is hit at clock 300010, in the next 5-minute bucket of
    the clock. *)
Lemma matrix_cache_ttl_and_bucket_witness :
  let parse := fun _ : string => Some 299990 in
  let m := mkMatrix 2 [[JS.Fin 0; JS.Fin 7]; [JS.Fin 7; JS.Fin 0]]
                      [[JS.Fin 0; JS.Fin 90]; [JS.Fin 90; JS.Fin 0]] in
  let pts := [mkPoint 1 2; mkPoint 3 4] in
  let key := MatrixCache.cacheKey parse "DRIVE" pts (Some "2025-10-05T09:00:00Z") 299990 in
  fst (MatrixCache.getMatrixCache parse
         (MatrixCache.setMatrixCache ∅ 299990 key m)
         300010 "DRIVE" pts (Some "2025-10-05T09:00:00Z"))
  = MatrixCache.mkLookup true key (Some m).
Proof.
  intros parse m pts key.
  refine (proj1 (proj2 (proj2 (proj2
    (matrix_cache_ttl_and_bucket parse ∅ 299990 "DRIVE" pts
       (Some "2025-10-05T09:00:00Z")))))
    "2025-10-05T09:00:00Z" 299990 m 300010 eq_refl eq_refl _).
  lia.
Defined.

(* ------------------------------------------------------------------ *)
(** ** The stable sort *)

Section SortFacts.

Context {A : Type} (cmp : A -> A -> Q).

(** [a] may stand before [b]. *)
Definition ordered (a b : A) : Prop := (cmp a b <= 0)%Q.

Hypothesis cmp_total : forall a b, ~ ordered a b -> ordered b a.

Lemma insert_sorted_perm (x : A) (l : list A) :
  Permutation (JS.insert_sorted cmp x l) (x :: l).
Proof.
  induction l as [|y l IH]; simpl; [reflexivity|].
  destruct (Qle_bool (cmp x y) 0); [reflexivity|].
  rewrite IH. apply perm_swap.
Qed.

Lemma sort_perm (l : list A) : Permutation (JS.sort cmp l) l.
Proof.
  induction l as [|x l IH]; simpl; [reflexivity|].
  rewrite insert_sorted_perm. now constructor.
Qed.

Lemma insert_sorted_Sorted (x : A) (l : list A) :
  Sorted ordered l -> Sorted ordered (JS.insert_sorted cmp x l).
Proof.
  induction 1 as [|y l Hs IH Hd]; simpl.
  - repeat constructor.
  - destruct (Qle_bool (cmp x y) 0) eqn:E.
    + constructor; [now constructor|]. constructor. now apply Qle_bool_iff.
    + assert (Hyx : ordered y x).
      { apply cmp_total. intros Hxy. apply Qle_bool_iff in Hxy. congruence. }
      constructor; [exact IH|].
      destruct l as [|z l]; simpl; [now constructor|].
      destruct (Qle_bool (cmp x z) 0); constructor; [exact Hyx|].
      now inversion Hd.
Qed.

Lemma sort_Sorted (l : list A) : Sorted ordered (JS.sort cmp l).
Proof.
  induction l as [|x l IH]; simpl; [constructor|].
  now apply insert_sorted_Sorted.
Qed.

End SortFacts.

Lemma firstn_In {A : Type} (n : nat) (l : list A) (x : A) :
  In x (firstn n l) -> In x l.
Proof.
  revert n. induction l as [|y l IH]; intros [|n]; simpl; try tauto.
  intros [H|H]; [now left | right; eauto].
Qed.

Lemma firstn_NoDup {A : Type} (n : nat) (l : list A) :
  List.NoDup l -> List.NoDup (firstn n l).
Proof.
  intros H. revert n. induction H as [|x l Hx Hnd IH]; intros [|n]; simpl;
    try constructor.
  - intros Hin. apply Hx. eapply firstn_In, Hin.
  - apply IH.
Qed.

Lemma firstn_StronglySorted {A : Type} (R : A -> A -> Prop) (n : nat) (l : list A) :
  StronglySorted R l -> StronglySorted R (firstn n l).
Proof.
  intros H. revert n. induction H as [|x l Hs IH Hall]; intros [|n]; simpl;
    try constructor.
  - apply IH.
  - apply List.Forall_forall. intros y Hy. rewrite List.Forall_forall in Hall.
    apply Hall. eapply firstn_In, Hy.
Qed.

(** *** [slice(0, n)] keeps a prefix *)

Lemma slice_to_firstn {A : Type} (e : JS.num) (l : list A) :
  exists k, JS.slice_to e l = firstn k l.
Proof.
  destruct e as [|q| |]; simpl.
  - now exists O.
  - destruct (JS.trunc q <? 0); eauto.
  - exists (length l). now rewrite firstn_all.
  - now exists O.
Qed.

Lemma slice_to_In {A : Type} (e : JS.num) (l : list A) (x : A) :
  In x (JS.slice_to e l) -> In x l.
Proof. destruct (slice_to_firstn e l) as (k & ->). apply firstn_In. Qed.

Lemma slice_to_length {A : Type} (q : Q) (l : list A) :
  0 <= JS.trunc q -> Z.of_nat (length (JS.slice_to (JS.Num q) l)) <= JS.trunc q.
Proof.
  intros Hq. simpl. destruct (JS.trunc q <? 0) eqn:Hneg; [lia|].
  rewrite length_firstn. lia.
Qed.

Lemma slice_to_negative {A : Type} (q : Q) (l : list A) :
  JS.trunc q < 0 ->
  Z.of_nat (length (JS.slice_to (JS.Num q) l))
  = Z.max 0 (Z.of_nat (length l) + JS.trunc q).
Proof.
  intros Hq. simpl. destruct (JS.trunc q <? 0) eqn:Hneg; [|lia].
  rewrite length_firstn. lia.
Qed.

(* ------------------------------------------------------------------ *)
(** ** Search along route *)

(** Two results that differ at most in the enrichment fields. *)
Definition same_core (a b : Sar.poi) : Prop :=
  Sar.place_id a = Sar.place_id b /\ Sar.detour_min a = Sar.detour_min b
  /\ Sar.location a = Sar.location b /\ Sar.poi_rating a = Sar.poi_rating b
  /\ Sar.user_ratings_total a = Sar.user_ratings_total b.

Lemma Forall2_same_core_sorted (R : Sar.poi -> Sar.poi -> Prop) (l l' : list Sar.poi) :
  (forall a b a' b', same_core a' a -> same_core b' b -> R a b -> R a' b') ->
  Forall2 same_core l' l -> StronglySorted R l -> StronglySorted R l'.
Proof.
  intros HR H2. induction H2 as [|a' a l' l Ha H2 IH]; intros Hs; [constructor|].
  inversion Hs as [|? ? Hs' Hall]; subst. constructor; [now apply IH|].
  clear IH Hs Hs'. induction H2 as [|b' b l' l Hb H2 IH]; constructor.
  - inversion Hall; subst. eapply HR; eauto.
  - apply IH. now inversion Hall.
Qed.

Section SarFacts.

Variable log1p : Q -> Q.
Variable fmul : Q -> Q -> Q.
Variable placesTextSearch : nat -> point -> Sar.search_reply.
Variable googleComputeRouteMatrix : nat -> list point -> string -> matrix_reply.
Variable placeDetails : nat -> option string -> option Sar.detail.

Local Abbreviation weight := (Sar.weight log1p fmul).
Local Abbreviation compare_poi := (Sar.compare_poi log1p fmul).
Local Abbreviation score_candidate :=
  (Sar.score_candidate googleComputeRouteMatrix).
Local Abbreviation score_all := (Sar.score_all googleComputeRouteMatrix).
Local Abbreviation collect := (Sar.collect placesTextSearch).
Local Abbreviation enrich := (Sar.enrich placeDetails).
Local Abbreviation searchAlongRoute :=
  (Sar.searchAlongRoute log1p fmul placesTextSearch googleComputeRouteMatrix
     placeDetails).

(** The order that the comparator of step 4 induces. *)
Definition by_detour_then_weight (a b : Sar.poi) : Prop :=
  Sar.detour_min a < Sar.detour_min b
  \/ (Sar.detour_min a = Sar.detour_min b
      /\ (weight (Sar.poi_rating b) (Sar.user_ratings_total b)
          <= weight (Sar.poi_rating a) (Sar.user_ratings_total a))%Q).

Lemma compare_poi_ordered (a b : Sar.poi) :
  ordered compare_poi a b <-> by_detour_then_weight a b.
Proof.
  unfold ordered, Sar.compare_poi, by_detour_then_weight.
  destruct (Sar.detour_min a - Sar.detour_min b =? 0) eqn:E.
  - apply Z.eqb_eq in E.
    split; [intros H; right; split; [lia | lra] | intros [H|[_ H]]; [lia | lra]].
  - apply Z.eqb_neq in E. change 0%Q with (inject_Z 0). rewrite <- Zle_Qle.
    split; [intros H; left; lia | intros [H|[H _]]; lia].
Qed.

Lemma compare_poi_total (a b : Sar.poi) :
  ~ ordered compare_poi a b -> ordered compare_poi b a.
Proof.
  rewrite !compare_poi_ordered. unfold by_detour_then_weight. intros H.
  destruct (Z.lt_trichotomy (Sar.detour_min a) (Sar.detour_min b)) as [Hlt|[Heq|Hgt]].
  - exfalso. apply H. now left.
  - right. split; [lia|]. apply Qnot_lt_le. intros Hw. apply H. right.
    split; [exact Heq | now apply Qlt_le_weak].
  - now left.
Qed.

Lemma by_detour_then_weight_trans (a b c : Sar.poi) :
  by_detour_then_weight a b -> by_detour_then_weight b c ->
  by_detour_then_weight a c.
Proof.
  unfold by_detour_then_weight.
  intros [H1|[H1 W1]] [H2|[H2 W2]]; try (left; lia).
  right. split; [lia | eapply Qle_trans; eauto].
Qed.

Lemma sort_by_detour_then_weight (l : list Sar.poi) :
  StronglySorted by_detour_then_weight (JS.sort compare_poi l).
Proof.
  apply Sorted_StronglySorted.
  - intros a b c. apply by_detour_then_weight_trans.
  - pose proof (sort_Sorted compare_poi compare_poi_total l) as Hs.
    induction Hs as [|a l' _ IH Hd]; constructor; [exact IH|].
    destruct Hd; constructor. now apply compare_poi_ordered.
Qed.

(** *** Candidate collection *)

(** Every collected candidate has an id, recorded in [seen], and no id
    occurs twice. *)
Definition collected (seen : gset string) (cands : list Sar.place) : Prop :=
  List.NoDup (map Sar.id cands)
  /\ forall r, In r cands -> exists i, Sar.id r = Some i /\ i ∈ seen.

Lemma add_items_collected (its : list Sar.place) (seen : gset string)
    (cands : list Sar.place) :
  collected seen cands ->
  collected (fst (Sar.add_items its seen cands)) (snd (Sar.add_items its seen cands)).
Proof.
  revert seen cands. induction its as [|r its IH]; intros seen cands Hc; simpl;
    [exact Hc|].
  destruct (Sar.id r) as [i|] eqn:Hi; [|now apply IH].
  destruct (JS.truthy_str i && negb (bool_decide (i ∈ seen))) eqn:E; [|now apply IH].
  apply IH. apply andb_true_iff in E as [_ E]. apply negb_true_iff in E.
  apply bool_decide_eq_false in E. destruct Hc as [Hnd Hseen]. split.
  - rewrite map_app. simpl.
    apply List.NoDup_app; [exact Hnd | repeat constructor; simpl; tauto |].
    intros o Ho [<-|[]]. rewrite Hi in Ho. apply in_map_iff in Ho as (r' & Hr' & Hin).
    destruct (Hseen r' Hin) as (i' & Hi' & Hmem). congruence.
  - intros r' Hin. apply in_app_iff in Hin as [Hin|[<-|[]]].
    + destruct (Hseen r' Hin) as (i' & Hi' & Hmem). exists i'. split; [exact Hi'|].
      set_solver.
    + exists i. split; [exact Hi | set_solver].
Qed.

Lemma collect_NoDup (sample : list point) (i : nat) (seen : gset string)
    (cands : list Sar.place) :
  collected seen cands -> List.NoDup (map Sar.id (collect i sample seen cands)).
Proof.
  revert i seen cands. induction sample as [|p sample IH]; intros i seen cands Hc;
    simpl; [exact (proj1 Hc)|].
  destruct (negb (Sar.s_ok (placesTextSearch i p))); [now apply IH|].
  pose proof (add_items_collected (default [] (Sar.items (placesTextSearch i p)))
                seen cands Hc) as Hc'.
  destruct (Sar.add_items _ seen cands) as [seen' cands']. simpl in Hc'.
  destruct (50 <? length cands')%nat; [exact (proj1 Hc') | now apply IH].
Qed.

(** *** Scoring *)

Lemma score_candidate_spec (origin dest : point) (mode : string)
    (maxDetourMin : Q) (j : nat) (c : Sar.place) (p : Sar.poi) :
  score_candidate origin dest mode maxDetourMin j c = Some p ->
  Sar.place_id p = Sar.id c
  /\ (inject_Z (Sar.detour_min p) <= maxDetourMin)%Q
  /\ SarDetour.detour_from_provider (googleComputeRouteMatrix j)
       origin (Sar.location p) dest mode = Some (Sar.detour_min p).
Proof.
  unfold Sar.score_candidate, SarDetour.detour_from_provider, SarDetour.legs.
  destruct (JS.nullish (Sar.latitude c) (Sar.plat c)) as [la|]; [|discriminate].
  destruct (JS.nullish (Sar.longitude c) (Sar.plon c)) as [lo|]; [|discriminate].
  destruct (JS.truthy_num la && JS.truthy_num lo); [|discriminate].
  destruct (googleComputeRouteMatrix j _ _) as [m|e] eqn:Hm; [|discriminate].
  destruct (cell (duration_s m) 0 1) as [[a|]|] eqn:Ha; try discriminate.
  destruct (cell (duration_s m) 1 2) as [[b|]|] eqn:Hb; try discriminate.
  destruct (cell (duration_s m) 0 2) as [[d|]|] eqn:Hd; try discriminate.
  destruct (Qle_bool _ maxDetourMin) eqn:Hle; [|discriminate].
  intros [= <-]. simpl. rewrite Hm, Ha, Hb, Hd. simpl.
  split; [reflexivity|]. split; [now apply Qle_bool_iff | reflexivity].
Qed.

Lemma score_all_In (origin dest : point) (mode : string) (maxDetourMin : Q)
    (cands : list Sar.place) (j : nat) (p : Sar.poi) :
  In p (score_all origin dest mode maxDetourMin j cands) ->
  exists k c, nth_error cands k = Some c
              /\ score_candidate origin dest mode maxDetourMin (j + k) c = Some p.
Proof.
  revert j. induction cands as [|c cands IH]; intros j; simpl; [tauto|].
  destruct (score_candidate origin dest mode maxDetourMin j c) as [q|] eqn:Hq.
  - intros [<-|Hin].
    + exists O, c. rewrite Nat.add_0_r. now split.
    + destruct (IH _ Hin) as (k & c' & Hk & Hs). exists (S k), c'.
      rewrite Nat.add_succ_r. now split.
  - intros Hin. destruct (IH _ Hin) as (k & c' & Hk & Hs). exists (S k), c'.
    rewrite Nat.add_succ_r. now split.
Qed.

Lemma score_all_NoDup (origin dest : point) (mode : string) (maxDetourMin : Q)
    (cands : list Sar.place) (j : nat) :
  List.NoDup (map Sar.id cands) ->
  List.NoDup (map Sar.place_id (score_all origin dest mode maxDetourMin j cands)).
Proof.
  revert j. induction cands as [|c cands IH]; intros j Hnd; simpl; [constructor|].
  inversion Hnd as [|? ? Hnotin Hnd']; subst.
  destruct (score_candidate origin dest mode maxDetourMin j c) as [q|] eqn:Hq;
    [|now apply IH].
  simpl. constructor; [|now apply IH].
  intros Hin. apply Hnotin. apply in_map_iff in Hin as (p & Hp & Hin).
  destruct (score_all_In _ _ _ _ _ _ _ Hin) as (k & c' & Hk & Hs).
  apply score_candidate_spec in Hs as (Hid & _). apply score_candidate_spec in Hq as (Hid' & _).
  apply in_map_iff. exists c'. split; [congruence | eapply nth_error_In; eauto].
Qed.

(** *** Enrichment keeps the scored fields *)

Lemma enrich_same_core (top : list Sar.poi) (i : nat) :
  Forall2 same_core (enrich i top) top.
Proof.
  revert i. induction top as [|p top IH]; intros i; simpl; constructor; [|apply IH].
  destruct (i <? 6)%nat; [destruct (placeDetails i (Sar.place_id p))|];
    repeat split.
Qed.

Lemma Forall2_same_core_ids (l l' : list Sar.poi) :
  Forall2 same_core l' l -> map Sar.place_id l' = map Sar.place_id l.
Proof.
  induction 1 as [|a' a l' l Ha _ IH]; simpl; [reflexivity|].
  f_equal; [exact (proj1 Ha) | exact IH].
Qed.

Lemma Forall2_same_core_In (l l' : list Sar.poi) (p : Sar.poi) :
  Forall2 same_core l' l -> In p l' -> exists q, In q l /\ same_core p q.
Proof.
  induction 1 as [|a' a l' l Ha _ IH]; simpl; [tauto|].
  intros [<-|Hin]; [eauto | destruct (IH Hin) as (q & Hq & Hc); eauto].
Qed.

Lemma by_detour_then_weight_core (a b a' b' : Sar.poi) :
  same_core a' a -> same_core b' b ->
  by_detour_then_weight a b -> by_detour_then_weight a' b'.
Proof.
  unfold by_detour_then_weight.
  intros (_ & Ha & _ & Hra & Hta) (_ & Hb & _ & Hrb & Htb).
  now rewrite Ha, Hb, Hra, Hta, Hrb, Htb.
Qed.

(** *** The result of [searchAlongRoute] *)

(** The result is, up to enrichment, a prefix of the sorted scored list
    of a candidate list without duplicate ids, scored against the first
    and last sampled point. *)
Lemma searchAlongRoute_shape (query : string) (maxResults : JS.num)
    (maxDetourMin : Q) (stops : list point) (mode : string)
    (enrichDetails : bool) :
  searchAlongRoute query maxResults maxDetourMin stops mode enrichDetails = []
  \/ exists origin cands,
      let sample := Sar.select stops (Sar.sample_indices (length stops)) in
      head sample = Some origin
      /\ List.NoDup (map Sar.id cands)
      /\ Forall2 same_core
           (searchAlongRoute query maxResults maxDetourMin stops mode enrichDetails)
           (JS.slice_to maxResults
              (JS.sort compare_poi
                 (score_all origin (List.last sample origin) mode maxDetourMin O cands))).
Proof.
  unfold Sar.searchAlongRoute.
  destruct (negb (JS.truthy_str query) || (length stops <? 2)%nat); [now left|].
  set (sample := Sar.select stops (Sar.sample_indices (length stops))).
  pose proof (collect_NoDup sample O ∅ []) as Hnd.
  destruct (collect O sample ∅ []) as [|c cands] eqn:Hc; [now left|].
  destruct sample as [|origin sample'] eqn:Hs; [now left|].
  right. exists origin, (c :: cands). simpl head. split; [reflexivity|].
  split.
  - apply Hnd. split; [constructor | intros r []].
  - destruct enrichDetails; [apply enrich_same_core|].
    clear. induction (JS.slice_to _ _); constructor; [repeat split | assumption].
Qed.

(** With a negative [maxResults] the result is the full sorted list
    without its last elements. *)
Lemma searchAlongRoute_negative (query : string) (q : Q) (maxDetourMin : Q)
    (stops : list point) (mode : string) (enrichDetails : bool) :
  JS.trunc q < 0 ->
  Z.of_nat (length (searchAlongRoute query (JS.Num q) maxDetourMin stops mode
                      enrichDetails))
  = Z.max 0 (Z.of_nat (length (searchAlongRoute query JS.PosInf maxDetourMin
                                 stops mode enrichDetails))
             + JS.trunc q).
Proof.
  intros Hq. unfold Sar.searchAlongRoute.
  destruct (negb (JS.truthy_str query) || (length stops <? 2)%nat);
    [simpl; lia|]. cbv zeta.
  destruct (collect _ _ _ _) as [|c cands]; [simpl; lia|].
  destruct (Sar.select stops _) as [|origin sample']; [simpl; lia|].
  set (sorted := JS.sort compare_poi _).
  assert (Hlen : forall e,
            length (if enrichDetails then enrich O (JS.slice_to e sorted)
                    else JS.slice_to e sorted)
            = length (JS.slice_to e sorted)).
  { intros e. destruct enrichDetails; [|reflexivity].
    apply (Forall2_length _ _ _ (enrich_same_core _ _)). }
  rewrite !Hlen. rewrite (slice_to_negative q sorted Hq). reflexivity.
Qed.

(** C6 (as amended): the list returned by [searchAlongRoute] holds no
    candidate whose [detour_min] exceeds [maxDetourMin], holds no place
    id twice and is sorted ascending by [detour_min] with ties in
    descending order of [rating * log1p(review count)]. [maxResults] is
    not validated and goes to [slice(0, maxResults)] as it is: the list
    has at most [maxResults] elements when the integral part of
    [maxResults] is not negative, and is empty when [maxResults] is NaN
    or -Infinity; a negative [maxResults] does not bound the length but
    drops that many elements from the end of the sorted list. *)
Theorem searchAlongRoute_filtered_unique_sorted_bounded (query : string)
    (maxResults : JS.num) (maxDetourMin : Q) (stops : list point) (mode : string)
    (enrichDetails : bool) :
  let results :=
    searchAlongRoute query maxResults maxDetourMin stops mode enrichDetails in
  Forall (fun p => (inject_Z (Sar.detour_min p) <= maxDetourMin)%Q) results
  /\ List.NoDup (map Sar.place_id results)
  /\ StronglySorted by_detour_then_weight results
  /\ (forall q, maxResults = JS.Num q -> 0 <= JS.trunc q ->
        Z.of_nat (length results) <= JS.trunc q)
  /\ (maxResults = JS.NaN \/ maxResults = JS.NegInf -> results = [])
  /\ (forall q, maxResults = JS.Num q -> JS.trunc q < 0 ->
        Z.of_nat (length results)
        = Z.max 0 (Z.of_nat (length (searchAlongRoute query JS.PosInf maxDetourMin
                                       stops mode enrichDetails))
                   + JS.trunc q)).
Proof.
  intros results. subst results.
  cut (Forall (fun p => (inject_Z (Sar.detour_min p) <= maxDetourMin)%Q)
         (searchAlongRoute query maxResults maxDetourMin stops mode enrichDetails)
       /\ List.NoDup (map Sar.place_id
                        (searchAlongRoute query maxResults maxDetourMin stops mode
                           enrichDetails))
       /\ StronglySorted by_detour_then_weight
            (searchAlongRoute query maxResults maxDetourMin stops mode enrichDetails)
       /\ (forall q, maxResults = JS.Num q -> 0 <= JS.trunc q ->
             Z.of_nat (length (searchAlongRoute query maxResults maxDetourMin stops
                                 mode enrichDetails)) <= JS.trunc q)
       /\ (maxResults = JS.NaN \/ maxResults = JS.NegInf ->
           searchAlongRoute query maxResults maxDetourMin stops mode enrichDetails
           = [])).
  { intros (H1 & H2 & H3 & H4 & H5). repeat split; try assumption.
    intros q -> Hq. now apply searchAlongRoute_negative. }
  destruct (searchAlongRoute_shape query maxResults maxDetourMin stops mode
              enrichDetails) as [->|(origin & cands & Hshape)].
  { repeat split; try constructor. intros q _ Hq. simpl. lia. }
  cbv zeta in Hshape. destruct Hshape as (_ & Hnd & H2).
  set (dest := List.last _ origin) in H2.
  set (scored := score_all origin dest mode maxDetourMin O cands) in H2.
  destruct (slice_to_firstn maxResults (JS.sort compare_poi scored)) as (k & Hk).
  split; [|split; [|split; [|split]]].
  - apply List.Forall_forall. intros p Hp.
    destruct (Forall2_same_core_In _ _ _ H2 Hp) as (q & Hq & Hpq).
    apply slice_to_In in Hq.
    apply (Permutation_in _ (sort_perm compare_poi scored)) in Hq.
    destruct (score_all_In _ _ _ _ _ _ _ Hq) as (j & c & _ & Hs).
    apply score_candidate_spec in Hs as (_ & Hle & _).
    destruct Hpq as (_ & -> & _). exact Hle.
  - rewrite (Forall2_same_core_ids _ _ H2), Hk. rewrite <- firstn_map.
    apply firstn_NoDup.
    eapply Permutation_NoDup;
      [apply Permutation_map; symmetry; apply (sort_perm compare_poi)|].
    now apply score_all_NoDup.
  - eapply Forall2_same_core_sorted; [apply by_detour_then_weight_core | exact H2 |].
    rewrite Hk. apply firstn_StronglySorted, sort_by_detour_then_weight.
  - intros q -> Hq. rewrite (Forall2_length _ _ _ H2). now apply slice_to_length.
  - intros Hbad. pose proof (Forall2_length _ _ _ H2) as Hlen.
    destruct Hbad as [-> | ->]; simpl in Hlen;
      now apply length_zero_iff_nil in Hlen.
Qed.

(** C7 (as amended): each returned candidate carries
    [detour_min = max(0, round((o_to_c + c_to_d - o_to_d) / 60))] computed
    from the travel matrix that the matrix provider returned for the
    3-point set [origin, candidate, destination] (first sampled point,
    the candidate's location, last sampled point), requested from the
    provider directly and not through the Matrix Cache; all three legs of
    a returned candidate are finite, so a candidate with an unreachable
    leg is discarded; a negative detour is clamped to zero; legs of 300s
    and 400s against a direct 600s give [detour_s = 100] and
    [detour_min = 2]. *)
Theorem searchAlongRoute_detour_from_provider (query : string)
    (maxResults : JS.num) (maxDetourMin : Q) (stops : list point) (mode : string)
    (enrichDetails : bool) (p : Sar.poi) :
  In p (searchAlongRoute query maxResults maxDetourMin stops mode enrichDetails) ->
  let sample := Sar.select stops (Sar.sample_indices (length stops)) in
  (exists origin j m o_to_c c_to_d o_to_d,
      head sample = Some origin
      /\ googleComputeRouteMatrix j
           [origin; Sar.location p; List.last sample origin]
           (JS.toUpperCase mode) = MatrixOk m
      /\ cell (duration_s m) 0 1 = Some (JS.Fin o_to_c)
      /\ cell (duration_s m) 1 2 = Some (JS.Fin c_to_d)
      /\ cell (duration_s m) 0 2 = Some (JS.Fin o_to_d)
      /\ Sar.detour_min p
         = Z.max 0 (JS.Math_round (inject_Z (o_to_c + c_to_d - o_to_d) / 60)))
  /\ 0 <= Sar.detour_min p
  /\ Sar.detour_s_of 300 400 600 = 100
  /\ Sar.detour_min_of 100 = 2.
Proof.
  intros Hp sample.
  destruct (searchAlongRoute_shape query maxResults maxDetourMin stops mode
              enrichDetails) as [Hnil|(origin & cands & Hshape)].
  { rewrite Hnil in Hp. destruct Hp. }
  cbv zeta in Hshape. fold sample in Hshape. destruct Hshape as (Hhd & _ & H2).
  destruct (Forall2_same_core_In _ _ _ H2 Hp) as (q & Hq & Hpq).
  apply slice_to_In in Hq.
  apply (Permutation_in _ (sort_perm compare_poi _)) in Hq.
  destruct (score_all_In _ _ _ _ _ _ _ Hq) as (k & c & _ & Hs).
  apply score_candidate_spec in Hs as (_ & _ & Hd).
  destruct Hpq as (_ & Hdm & Hloc & _). rewrite <- Hdm, <- Hloc in Hd.
  unfold SarDetour.detour_from_provider, SarDetour.legs in Hd.
  destruct (googleComputeRouteMatrix (0 + k) _ _) as [m|e] eqn:Hm; [|discriminate].
  destruct (cell (duration_s m) 0 1) as [[a|]|] eqn:Ha; try discriminate.
  destruct (cell (duration_s m) 1 2) as [[b|]|] eqn:Hb; try discriminate.
  destruct (cell (duration_s m) 0 2) as [[d|]|] eqn:Hdd; try discriminate.
  simpl in Hd. injection Hd as Hd.
  split; [|split; [|split; reflexivity]].
  - exists origin, (0 + k)%nat, m, a, b, d. repeat split; try assumption.
    rewrite <- Hd. reflexivity.
  - rewrite <- Hd. unfold Sar.detour_min_of. lia.
Qed.

End SarFacts.

(** *** A concrete run *)

Module SarExample.

Definition A : point := mkPoint 1 1.
Definition B : point := mkPoint 2 2.
Definition cafe : Sar.place :=
  Sar.mkPlace (Some "p1") (Some "Cafe") None (Some (9 # 2)) (Some (120 # 1)) None
          (Some (3 # 2)) (Some (3 # 2)) None None.

Definition search (i : nat) (_ : point) : Sar.search_reply :=
  match i with
  | O => Sar.mkReply true (Some [cafe])
  | _ => Sar.mkReply false None
  end.

Definition matrix3 (o_to_c c_to_d o_to_d : Z) : matrix_res :=
  mkMatrix 3
    [[JS.Fin 0; JS.Fin o_to_c; JS.Fin o_to_d];
     [JS.Fin o_to_c; JS.Fin 0; JS.Fin c_to_d];
     [JS.Fin o_to_d; JS.Fin c_to_d; JS.Fin 0]]
    [[JS.Fin 0; JS.Fin 1; JS.Fin 1]; [JS.Fin 1; JS.Fin 0; JS.Fin 1];
     [JS.Fin 1; JS.Fin 1; JS.Fin 0]].

(** The provider now answers 900s, 900s and 600s. *)
Definition provider (_ : list point) (_ : string) : matrix_reply :=
  MatrixOk (matrix3 900 900 600).

Definition parse (_ : string) : option Z := None.

(** The matrix store holds, since clock 0, the answer 300s, 400s, 600s
    for the same three points. *)
Definition store : gmap string MatrixCache.entry :=
  MatrixCache.setMatrixCache ∅ 0
    (MatrixCache.cacheKey parse "DRIVE" [A; mkPoint (3 # 2) (3 # 2); B] None 1000)
    (matrix3 300 400 600).

Definition run : list Sar.poi :=
  Sar.searchAlongRoute (fun x => x) Qmult search (fun _ => provider)
    (fun _ _ => None) "coffee" (JS.Num 12) 30 [A; B] "drive" true.

Definition found : Sar.poi :=
  Sar.mkPoi (Some "p1") (Some "Cafe") (Some (9 # 2)) (Some (120 # 1)) None
        (mkPoint (3 # 2) (3 # 2)) 20 None.

(** A second place at the same spot, with a lower weight. *)
Definition bar : Sar.place :=
  Sar.mkPlace (Some "p2") (Some "Bar") None (Some (4 # 1)) (Some (80 # 1)) None
          (Some (3 # 2)) (Some (3 # 2)) None None.

Definition search_two (i : nat) (_ : point) : Sar.search_reply :=
  match i with
  | O => Sar.mkReply true (Some [cafe; bar])
  | _ => Sar.mkReply false None
  end.

(** The search over both places, for a given [maxResults]. *)
Definition run_with (maxResults : JS.num) : list Sar.poi :=
  Sar.searchAlongRoute (fun x => x) Qmult search_two (fun _ => provider)
    (fun _ _ => None) "coffee" maxResults 30 [A; B] "drive" true.

End SarExample.

(** C6 (as stated) fails: [maxResults] is not validated, so a body with
    [maxResults = -1] reaches [slice(0, -1)], which keeps all but the
    last of the two scored candidates. One result is returned, which is
    more than [maxResults]. *)
Lemma searchAlongRoute_bound_counterexample :
  map Sar.place_id (SarExample.run_with (JS.Num 12)) = [Some "p1"; Some "p2"]
  /\ map Sar.place_id (SarExample.run_with (JS.Num (-1))) = [Some "p1"]
  /\ ~ (inject_Z (Z.of_nat (length (SarExample.run_with (JS.Num (-1))))) <= -1)%Q.
Proof.
  assert (H : map Sar.place_id (SarExample.run_with (JS.Num (-1))) = [Some "p1"])
    by (vm_compute; reflexivity).
  split; [vm_compute; reflexivity|]. split; [exact H|].
  apply (f_equal (@length _)) in H. rewrite length_map in H. rewrite H.
  intros Hle. vm_compute in Hle. now apply Hle.
Qed.

(** C7 (as stated) fails: with a valid Matrix Cache entry for the three
    points (300s, 400s, 600s, so a 2-minute detour through the cache) the
    search still asks the provider and reports the provider's 20 minutes. *)
Lemma searchAlongRoute_matrix_cache_counterexample :
  MatrixCache.hit
    (fst (MatrixCache.getMatrixCache SarExample.parse SarExample.store 1000
            "DRIVE" [SarExample.A; mkPoint (3 # 2) (3 # 2); SarExample.B] None))
  = true
  /\ SarDetour.detour_via_matrix_cache SarExample.parse SarExample.provider
       SarExample.store 1000 1000 SarExample.A (mkPoint (3 # 2) (3 # 2))
       SarExample.B "drive" = Some 2
  /\ map Sar.detour_min SarExample.run = [20]
  /\ ~ (forall p, In p SarExample.run ->
          SarDetour.detour_via_matrix_cache SarExample.parse SarExample.provider
            SarExample.store 1000 1000 SarExample.A (Sar.location p)
            SarExample.B "drive" = Some (Sar.detour_min p)).
Proof.
  assert (Hrun : SarExample.run = [SarExample.found]) by (vm_compute; reflexivity).
  assert (Hc : SarDetour.detour_via_matrix_cache SarExample.parse SarExample.provider
       SarExample.store 1000 1000 SarExample.A (mkPoint (3 # 2) (3 # 2))
       SarExample.B "drive" = Some 2) by (vm_compute; reflexivity).
  split; [vm_compute; reflexivity|]. split; [exact Hc|].
  split; [rewrite Hrun; reflexivity|].
  intros H. specialize (H SarExample.found). rewrite Hrun in H.
  specialize (H (or_introl eq_refl)). simpl Sar.location in H.
  rewrite Hc in H. discriminate H.
Qed.

(** C7, a concrete run: the one result of the example carries the
    provider's detour. *)
Lemma searchAlongRoute_detour_from_provider_witness :
  In SarExample.found SarExample.run /\ 0 <= Sar.detour_min SarExample.found.
Proof.
  assert (Hin : In SarExample.found SarExample.run)
    by (vm_compute; left; reflexivity).
  split; [exact Hin|].
  exact (proj1 (proj2
    (searchAlongRoute_detour_from_provider (fun x => x) Qmult SarExample.search
       (fun _ => SarExample.provider) (fun _ _ => None)
       "coffee" (JS.Num 12) 30%Q [SarExample.A; SarExample.B] "drive" true
       SarExample.found Hin))).
Defined.

(* ------------------------------------------------------------------ *)
(** ** Day planner: the greedy ordering *)

Section DeleteFacts.

Lemma delete_In (b i : nat) (l : list nat) :
  In i (Planner.delete b l) <-> In i l /\ i <> b.
Proof.
  unfold Planner.delete. rewrite filter_In, negb_true_iff, Nat.eqb_neq. tauto.
Qed.

Lemma delete_NoDup (b : nat) (l : list nat) :
  List.NoDup l -> List.NoDup (Planner.delete b l).
Proof. apply List.NoDup_filter. Qed.

Lemma delete_absent (b : nat) (l : list nat) :
  ~ In b l -> Planner.delete b l = l.
Proof.
  induction l as [|x l IH]; simpl; [reflexivity|]. intros H.
  destruct (Nat.eqb_spec x b) as [->|Hne]; simpl; [tauto|].
  f_equal. apply IH. tauto.
Qed.

Lemma delete_perm (b : nat) (l : list nat) :
  List.NoDup l -> In b l -> Permutation (b :: Planner.delete b l) l.
Proof.
  induction 1 as [|x l Hx Hnd IH]; simpl; [tauto|].
  intros [->|Hin].
  - rewrite Nat.eqb_refl. simpl. fold (Planner.delete b l).
    now rewrite delete_absent.
  - destruct (Nat.eqb_spec x b) as [->|Hne]; simpl; [tauto|].
    fold (Planner.delete b l). rewrite perm_swap. constructor. now apply IH.
Qed.

Lemma delete_length (b : nat) (l : list nat) :
  List.NoDup l -> In b l -> S (length (Planner.delete b l)) = length l.
Proof.
  intros Hnd Hin. apply (Permutation_length (delete_perm b l Hnd Hin)).
Qed.

Lemma delete_sorted (b : nat) (l : list nat) :
  StronglySorted lt l -> StronglySorted lt (Planner.delete b l).
Proof.
  induction 1 as [|x l Hs IH Hall]; simpl; [constructor|].
  destruct (negb (x =? b)%nat); [|exact IH].
  constructor; [exact IH|]. apply List.Forall_forall. intros y Hy.
  rewrite List.Forall_forall in Hall. apply Hall. now apply delete_In in Hy.
Qed.

End DeleteFacts.

Section GreedyFacts.

Variable dur : list (list JS.xnum).

(** What the scan knows after the indices [seen]: nothing finite yet, or
    the first index of least travel time and that time. *)
Definition first_minimum (last : nat) (seen : list nat)
    (best : option nat) (bestd : JS.xnum) : Prop :=
  (best = None /\ bestd = JS.Infinity
   /\ forall i, In i seen -> JS.isFinite (cell dur last i) = false)
  \/ (exists b db pre post,
        best = Some b /\ bestd = JS.Fin db /\ seen = pre ++ b :: post
        /\ cell dur last b = Some (JS.Fin db)
        /\ (forall i x, In i pre -> cell dur last i = Some (JS.Fin x) -> db < x)
        /\ (forall i x, In i post -> cell dur last i = Some (JS.Fin x) -> db <= x)).

Lemma scan_first_minimum (last : nat) (unused seen : list nat)
    (best : option nat) (bestd : JS.xnum) :
  first_minimum last seen best bestd ->
  first_minimum last (seen ++ unused)
    (fst (Planner.scan dur last unused best bestd))
    (snd (Planner.scan dur last unused best bestd)).
Proof.
  revert seen best bestd.
  induction unused as [|idx unused IH]; intros seen best bestd Hinv; simpl.
  - now rewrite app_nil_r.
  - replace (seen ++ idx :: unused) with ((seen ++ [idx]) ++ unused)
      by (now rewrite <- app_assoc).
    destruct (JS.lt_num (cell dur last idx) bestd) eqn:Hlt; apply IH.
    + (* a strictly smaller time: [idx] becomes the best *)
      destruct (cell dur last idx) as [[x|]|] eqn:Hc; try discriminate.
      right. exists idx, x, seen, []. simpl.
      repeat split; try reflexivity; try assumption; [|intros i y []].
      intros i y Hi Hy.
      destruct Hinv as [(-> & -> & Hnone)|(b & db & pre & post & -> & -> & -> & Hb & Hpre & Hpost)].
      * specialize (Hnone i Hi). rewrite Hy in Hnone. discriminate.
      * simpl in Hlt. apply Z.ltb_lt in Hlt.
        apply in_app_iff in Hi as [Hi|[<-|Hi]].
        -- specialize (Hpre i y Hi Hy). lia.
        -- rewrite Hb in Hy. injection Hy as <-. lia.
        -- specialize (Hpost i y Hi Hy). lia.
    + (* not smaller: the best is kept *)
      destruct Hinv as [(-> & -> & Hnone)|(b & db & pre & post & -> & -> & -> & Hb & Hpre & Hpost)].
      * left. repeat split; try reflexivity. intros i Hi.
        apply in_app_iff in Hi as [Hi|[<-|[]]]; [now apply Hnone|].
        destruct (cell dur last idx) as [[x|]|]; simpl in *; congruence.
      * right. exists b, db, pre, (post ++ [idx]).
        repeat split; try reflexivity; try assumption.
        -- now rewrite <- app_assoc.
        -- intros i x Hi Hx. apply in_app_iff in Hi as [Hi|[<-|[]]];
             [now apply (Hpost i x)|].
           rewrite Hx in Hlt. simpl in Hlt. apply Z.ltb_ge in Hlt. exact Hlt.
Qed.

(** The scan from [null] / [Infinity]. *)
Lemma scan_spec (last : nat) (unused : list nat) :
  first_minimum last unused
    (fst (Planner.scan dur last unused None JS.Infinity))
    (snd (Planner.scan dur last unused None JS.Infinity)).
Proof.
  apply (scan_first_minimum last unused []).
  left. repeat split; try reflexivity. intros i [].
Qed.

Lemma scan_Some_In (last : nat) (unused : list nat) (best : nat) :
  fst (Planner.scan dur last unused None JS.Infinity) = Some best ->
  In best unused.
Proof.
  intros H. destruct (scan_spec last unused) as [(Hn & _)|(b & db & pre & post & Hb & _ & Hu & _)].
  - congruence.
  - rewrite H in Hb. injection Hb as ->. rewrite Hu. apply in_elt.
Qed.

Lemma scan_None_unreachable (last : nat) (unused : list nat) :
  fst (Planner.scan dur last unused None JS.Infinity) = None ->
  forall i, In i unused -> JS.isFinite (cell dur last i) = false.
Proof.
  intros H. destruct (scan_spec last unused) as [(_ & _ & Hn)|(b & db & pre & post & Hb & _)].
  - exact Hn.
  - congruence.
Qed.

(** One iteration of the [while] loop. *)
Lemma greedy_unfold (fuel : nat) (order unused : list nat) :
  Planner.greedy fuel dur order unused =
  match unused with
  | [] => Some order
  | _ =>
    match fst (Planner.scan dur (List.last order O) unused None JS.Infinity) with
    | None => Some order
    | Some best =>
      match fuel with
      | O => None
      | S fuel' =>
        Planner.greedy fuel' dur (order ++ [best]) (Planner.delete best unused)
      end
    end
  end.
Proof. destruct fuel; reflexivity. Qed.

(** The loop always reaches its exit within [length unused] iterations. *)
Lemma greedy_total (fuel : nat) (order unused : list nat) :
  (length unused <= fuel)%nat -> List.NoDup unused ->
  exists order', Planner.greedy fuel dur order unused = Some order'.
Proof.
  revert order unused. induction fuel as [|fuel IH]; intros order unused Hlen Hnd;
    rewrite greedy_unfold.
  - destruct unused; [|simpl in Hlen; lia]. eauto.
  - destruct unused as [|u unused']; [eauto|].
    destruct (fst (Planner.scan dur (List.last order O) (u :: unused') None JS.Infinity))
      as [best|] eqn:Hs; [|eauto].
    apply scan_Some_In in Hs.
    apply IH; [|now apply delete_NoDup].
    pose proof (delete_length best _ Hnd Hs). simpl in *. lia.
Qed.

End GreedyFacts.

Section GreedyOrder.

Variable dur : list (list JS.xnum).

Lemma complete_cell (n i j : nat) :
  Planner.complete n dur = true -> (i < n)%nat -> (j < n)%nat ->
  exists z, cell dur i j = Some (JS.Fin z).
Proof.
  unfold Planner.complete. rewrite forallb_forall. intros H Hi Hj.
  specialize (H i ltac:(apply in_seq; lia)). rewrite forallb_forall in H.
  specialize (H j ltac:(apply in_seq; lia)).
  destruct (cell dur i j) as [[z|]|]; try discriminate. eauto.
Qed.

Lemma last_snoc (l : list nat) (x : nat) : List.last (l ++ [x]) O = x.
Proof. apply last_last. Qed.

(** On a complete matrix the loop consumes every unused index. *)
Lemma greedy_complete (n fuel : nat) (order unused : list nat) :
  Planner.complete n dur = true ->
  (length unused <= fuel)%nat -> List.NoDup unused ->
  (List.last order O < n)%nat -> (forall i, In i unused -> (i < n)%nat) ->
  exists tail, Planner.greedy fuel dur order unused = Some (order ++ tail)
               /\ Permutation tail unused.
Proof.
  intros Hc. revert order unused.
  induction fuel as [|fuel IH]; intros order unused Hlen Hnd Hlast Hlt;
    rewrite greedy_unfold.
  - destruct unused; [|simpl in Hlen; lia]. exists []. now rewrite app_nil_r.
  - destruct unused as [|u unused']; [exists []; now rewrite app_nil_r|].
    destruct (fst (Planner.scan dur (List.last order O) (u :: unused') None JS.Infinity))
      as [best|] eqn:Hs.
    + pose proof (scan_Some_In _ _ _ _ Hs) as Hin.
      destruct (IH (order ++ [best]) (Planner.delete best (u :: unused')))
        as (tail & Hg & Hp).
      * pose proof (delete_length best _ Hnd Hin). simpl in *. lia.
      * now apply delete_NoDup.
      * rewrite last_snoc. now apply Hlt.
      * intros i Hi. apply delete_In in Hi. now apply Hlt.
      * exists (best :: tail). rewrite Hg, <- app_assoc. split; [reflexivity|].
        rewrite <- (delete_perm best (u :: unused') Hnd Hin). now constructor.
    + exfalso. pose proof (scan_None_unreachable _ _ _ Hs u (or_introl eq_refl)) as Hu.
      destruct (complete_cell n (List.last order O) u Hc Hlast) as (z & Hz).
      * apply Hlt. now left.
      * rewrite Hz in Hu. discriminate.
Qed.

Lemma seq_ends (n : nat) :
  (2 <= n)%nat -> seq 0 n = O :: seq 1 (n - 2) ++ [(n - 1)%nat].
Proof.
  intros Hn. replace n with (1 + (n - 2) + 1)%nat at 1 by lia.
  rewrite !seq_app. simpl. do 2 f_equal. f_equal. lia.
Qed.

(** Whatever the matrix, the loop extends [order] by indices taken from
    [unused], each at most once. *)
Lemma greedy_extends (fuel : nat) (order unused order' : list nat) :
  List.NoDup unused ->
  Planner.greedy fuel dur order unused = Some order' ->
  exists tail, order' = order ++ tail /\ List.NoDup tail /\ incl tail unused.
Proof.
  revert order unused. induction fuel as [|fuel IH]; intros order unused Hnd;
    rewrite greedy_unfold.
  - destruct unused as [|u unused'].
    + intros [= <-]. exists []. rewrite app_nil_r. repeat split; [constructor | easy].
    + destruct (fst _); [discriminate|]. intros [= <-]. exists [].
      rewrite app_nil_r. repeat split; [constructor | easy].
  - destruct unused as [|u unused'].
    + intros [= <-]. exists []. rewrite app_nil_r. repeat split; [constructor | easy].
    + destruct (fst _) as [best|] eqn:Hs.
      * intros Hg. pose proof (scan_Some_In _ _ _ _ Hs) as Hin.
        apply IH in Hg as (tail & -> & Hndt & Hincl); [|now apply delete_NoDup].
        exists (best :: tail). rewrite <- app_assoc. split; [reflexivity|]. split.
        -- constructor; [|exact Hndt]. intros Hb. apply Hincl, delete_In in Hb.
           now destruct Hb.
        -- intros i [<-|Hi]; [exact Hin|]. apply Hincl, delete_In in Hi. tauto.
      * intros [= <-]. exists []. rewrite app_nil_r.
        repeat split; [constructor | easy].
Qed.

(** Whatever the matrix, the order starts at the origin, ends at the
    destination, appended unconditionally, and holds no candidate twice. *)
Lemma tsp_order_ends (n : nat) (order : list nat) :
  Planner.tsp_order n dur = Some order ->
  hd_error order = Some O /\ List.last order O = (n - 1)%nat
  /\ exists visited,
       order = O :: visited ++ [(n - 1)%nat]
       /\ List.NoDup visited /\ incl visited (seq 1 (n - 2)).
Proof.
  unfold Planner.tsp_order.
  destruct (Planner.greedy (n - 2) dur [O] (seq 1 (n - 2))) as [o|] eqn:Hg;
    [|discriminate].
  apply greedy_extends in Hg as (tail & -> & Hnd & Hincl); [|apply seq_NoDup].
  simpl. intros [= <-]. split; [reflexivity|]. split.
  - change (O :: tail ++ [(n - 1)%nat]) with ((O :: tail) ++ [(n - 1)%nat]).
    apply last_last.
  - exists tail. auto.
Qed.

(** [tsp_order] always yields an order. *)
Lemma tsp_order_total (n : nat) :
  exists order, Planner.tsp_order n dur = Some order.
Proof.
  unfold Planner.tsp_order.
  destruct (greedy_total dur (n - 2) [O] (seq 1 (n - 2))) as (o & Ho).
  - now rewrite length_seq.
  - apply seq_NoDup.
  - rewrite Ho. simpl. eauto.
Qed.

(** On a complete matrix over [n >= 2] waypoints the order starts at 0,
    ends at [n - 1] and holds each index once. *)
Lemma tsp_order_complete (n : nat) :
  (2 <= n)%nat -> Planner.complete n dur = true ->
  exists order,
    Planner.tsp_order n dur = Some order
    /\ hd_error order = Some O
    /\ List.last order O = (n - 1)%nat
    /\ Permutation order (seq 0 n).
Proof.
  intros Hn Hc. unfold Planner.tsp_order.
  destruct (greedy_complete n (n - 2) [O] (seq 1 (n - 2)) Hc) as (tail & Hg & Hp).
  - now rewrite length_seq.
  - apply seq_NoDup.
  - simpl. lia.
  - intros i Hi. apply in_seq in Hi. lia.
  - rewrite Hg. simpl. eexists. split; [reflexivity|]. split; [reflexivity|].
    split.
    + change (O :: tail ++ [(n - 1)%nat]) with ((O :: tail) ++ [(n - 1)%nat]).
      apply last_last.
    + rewrite (seq_ends n Hn). constructor. now apply Permutation_app_tail.
Qed.

(** *** The loop states *)

Lemma seq_sorted (s k : nat) : StronglySorted lt (seq s k).
Proof.
  apply Sorted_StronglySorted; [intros a b c; lia|].
  revert s. induction k as [|k IHk]; intros s; simpl; constructor; [apply IHk|].
  destruct k; simpl; constructor. lia.
Qed.

Lemma sorted_after (pre post : list nat) (b : nat) :
  StronglySorted lt (pre ++ b :: post) -> forall i, In i post -> (b < i)%nat.
Proof.
  induction pre as [|x pre IH]; simpl; intros H; inversion H as [|? ? Hs Hall]; subst.
  - now apply List.Forall_forall.
  - now apply IH.
Qed.

Lemma loop_state_sorted (n : nat) (order unused : list nat) :
  Planner.loop_state n dur order unused -> StronglySorted lt unused.
Proof.
  induction 1 as [|order unused best _ IH _].
  - apply seq_sorted.
  - now apply delete_sorted.
Qed.

(** Every state the loop of [greedy] passes through is a loop state. *)
Lemma greedy_loop_state (n fuel : nat) (order unused order' : list nat) :
  Planner.loop_state n dur order unused ->
  Planner.greedy fuel dur order unused = Some order' ->
  exists unused', Planner.loop_state n dur order' unused'.
Proof.
  revert order unused. induction fuel as [|fuel IH]; intros order unused Hst;
    rewrite greedy_unfold.
  - destruct unused; [intros [= <-]; eauto|].
    destruct (fst _); [discriminate | intros [= <-]; eauto].
  - destruct unused as [|u unused']; [intros [= <-]; eauto|].
    destruct (fst _) as [best|] eqn:Hs; [|intros [= <-]; eauto].
    apply IH. now constructor.
Qed.

(** C9: at every iteration of the greedy pass the selected candidate has
    the least travel time from the last-visited node among the unvisited
    ones, and among those of equal least time it is the one of smallest
    original index (strict comparison, iteration in index order). *)
Theorem greedy_tie_break_smallest_index (n : nat) (order unused : list nat)
    (best : nat) :
  Planner.loop_state n dur order unused ->
  fst (Planner.scan dur (List.last order O) unused None JS.Infinity) = Some best ->
  In best unused
  /\ exists bestd,
       cell dur (List.last order O) best = Some (JS.Fin bestd)
       /\ forall idx d,
            In idx unused ->
            cell dur (List.last order O) idx = Some (JS.Fin d) ->
            bestd <= d /\ (d = bestd -> (best <= idx)%nat).
Proof.
  intros Hst Hs. split; [now apply (scan_Some_In dur _ _ _ Hs)|].
  pose proof (loop_state_sorted n order unused Hst) as Hsorted.
  destruct (scan_spec dur (List.last order O) unused)
    as [(Hn & _)|(b & db & pre & post & Hb & _ & Hu & Hcell & Hpre & Hpost)];
    [congruence|].
  rewrite Hs in Hb. injection Hb as <-. exists db. split; [exact Hcell|].
  intros idx d Hin Hd. rewrite Hu in Hin, Hsorted.
  pose proof (sorted_after pre post best Hsorted) as Hall.
  apply in_app_iff in Hin as [Hin|[<-|Hin]].
  - specialize (Hpre idx d Hin Hd). split; lia.
  - rewrite Hcell in Hd. injection Hd as <-. split; [lia | intros _; lia].
  - specialize (Hpost idx d Hin Hd). specialize (Hall idx Hin). split; lia.
Qed.

End GreedyOrder.

(* ------------------------------------------------------------------ *)
(** ** Day planner: the handler *)

(** A coordinate that is present and equal to zero. *)
Definition is_zero (o : option Q) : Prop := exists x, o = Some x /\ (x == 0)%Q.

Lemma is_zero_falsy (o : option Q) : is_zero o -> JS.truthy_onum o = false.
Proof.
  intros (x & -> & Hx). unfold JS.truthy_onum, JS.truthy_num.
  apply negb_false_iff. now apply Qeq_bool_iff.
Qed.

Section PlannerFacts.

Variable log1p : Q -> Q.
Variable fmul : Q -> Q -> Q.
Variable searchOrigin : string -> Sar.search_reply.
Variable searchType : nat -> string -> Sar.search_reply.
Variable googleComputeRouteMatrix : list Planner.coords -> string -> matrix_reply.
Variable placeDetails : nat -> option string -> option Sar.detail.
Variable sarSearch : nat -> point -> Sar.search_reply.
Variable sarMatrix : nat -> list point -> string -> matrix_reply.

Local Abbreviation planDay :=
  (Planner.planDay log1p fmul searchOrigin searchType googleComputeRouteMatrix
     placeDetails sarSearch sarMatrix).
Local Abbreviation resolve_origin := (Planner.resolve_origin searchOrigin).
Local Abbreviation resolvePlaceCenterByQueryOrCoords :=
  (Planner.resolvePlaceCenterByQueryOrCoords searchOrigin).
Local Abbreviation collect_picks := (Planner.collect_picks log1p fmul searchType).
Local Abbreviation plan_waypoints :=
  (Planner.plan_waypoints log1p fmul searchOrigin searchType).

Lemma plan_waypoints_length (b : Planner.body) :
  length (plan_waypoints b) = (length (fst (collect_picks b)) + 2)%nat.
Proof.
  unfold Planner.plan_waypoints. simpl. rewrite length_app, length_map. simpl. lia.
Qed.

(** The summary of a plan reports the resolved origin and the
    destination derived from it. *)
Lemma planDay_summary (b : Planner.body) (s : Planner.summary)
    (order : list nat) (timeline : list Planner.leg) :
  planDay b = Planner.PlanOk s order timeline ->
  Planner.r_ok (resolve_origin b) = true
  /\ Planner.s_origin s = Planner.center (resolve_origin b)
  /\ Planner.s_dest s
     = Planner.destination (Planner.dest b) (Planner.center (resolve_origin b)).
Proof.
  unfold Planner.planDay.
  destruct (Planner.r_ok (resolve_origin b)); simpl; [|discriminate].
  destruct (fst (collect_picks b)) as [|c picks].
  - intros [= <- _ _]. auto.
  - destruct (googleComputeRouteMatrix _ _) as [m|e]; [|discriminate].
    destruct (Planner.tsp_order _ _); [|discriminate].
    intros [= <- _ _]. auto.
Qed.

(** C2: a day plan with candidates whose travel matrix is complete is
    produced, and its greedy order, a function of the matrix alone, starts
    at the origin index 0, ends at the destination index [n - 1], and is a
    permutation of [0 .. n-1]: every candidate is visited exactly once and
    the destination comes last. *)
Theorem planDay_greedy_order_complete (b : Planner.body) (m : matrix_res) :
  Planner.r_ok (resolve_origin b) = true ->
  fst (collect_picks b) <> [] ->
  googleComputeRouteMatrix (plan_waypoints b)
    (JS.toUpperCase (default "drive" (Planner.mode b))) = MatrixOk m ->
  Planner.complete (length (plan_waypoints b)) (duration_s m) = true ->
  let n := length (plan_waypoints b) in
  exists s order timeline,
    planDay b = Planner.PlanOk s order timeline
    /\ n = (Planner.count s + 2)%nat
    /\ Planner.tsp_order n (duration_s m) = Some order
    /\ hd_error order = Some O
    /\ List.last order O = (n - 1)%nat
    /\ Permutation order (seq 0 n).
Proof.
  intros Hok Hpicks Hm Hc n.
  destruct (tsp_order_complete (duration_s m) n) as (order & Ho & Hhd & Hlast & Hperm).
  { subst n. rewrite plan_waypoints_length. lia. }
  { exact Hc. }
  unfold Planner.planDay. rewrite Hok. simpl negb. cbv iota.
  destruct (fst (collect_picks b)) as [|c picks] eqn:Hp; [congruence|].
  cbv zeta. rewrite Hm. fold n. rewrite Ho.
  eexists _, order, _. split; [reflexivity|]. simpl Planner.count.
  repeat split; try assumption.
  subst n. rewrite plan_waypoints_length, Hp. reflexivity.
Qed.

(** Past a resolved origin the planner does not answer 400. *)
Lemma planDay_resolved (b : Planner.body) :
  Planner.r_ok (resolve_origin b) = true ->
  forall code msg, planDay b <> Planner.PlanFailure 400 code msg.
Proof.
  intros Hok code0 msg. unfold Planner.planDay. rewrite Hok. simpl negb.
  cbv iota zeta.
  destruct (fst (Planner.collect_picks _ _ _ b)); [discriminate|].
  destruct (googleComputeRouteMatrix _ _); [|discriminate].
  destruct (Planner.tsp_order _ _); discriminate.
Qed.


End PlannerFacts.

(** *** A concrete plan *)

Module PlanExample.

Definition museum : Sar.place :=
  Sar.mkPlace (Some "m1") (Some "Museum") None (Some (47 # 10)) (Some (300 # 1)) None
              (Some (32075 # 1000)) (Some (34793 # 1000)) None None.

Definition gelato : Sar.place :=
  Sar.mkPlace (Some "g1") (Some "Gelato") None (Some (45 # 10)) (Some (80 # 1)) None
              (Some (32076 # 1000)) (Some (34790 # 1000)) None None.

Definition searchOrigin (_ : string) : Sar.search_reply := Sar.mkReply false None.

Definition searchType (_ : nat) (_ : string) : Sar.search_reply :=
  Sar.mkReply true (Some [museum; gelato]).

(** Both candidates are 5 minutes from the origin: a tie. *)
Definition dur : list (list JS.xnum) :=
  [[JS.Fin 0; JS.Fin 300; JS.Fin 300; JS.Fin 0];
   [JS.Fin 300; JS.Fin 0; JS.Fin 120; JS.Fin 300];
   [JS.Fin 300; JS.Fin 120; JS.Fin 0; JS.Fin 300];
   [JS.Fin 0; JS.Fin 300; JS.Fin 300; JS.Fin 0]].

Definition matrix : matrix_res := mkMatrix 4 dur dur.

Definition provider (_ : list Planner.coords) (_ : string) : matrix_reply :=
  MatrixOk matrix.

Definition noDetails (_ : nat) (_ : option string) : option Sar.detail := None.
Definition noSearch (_ : nat) (_ : point) : Sar.search_reply := Sar.mkReply false None.
Definition noMatrix (_ : nat) (_ : list point) (_ : string) : matrix_reply :=
  MatrixFail "unused".

Definition near : Planner.near_origin_spec :=
  Planner.mkNear (Some 5%Q) (Some ["tourist_attraction"]) (Some (43 # 10)) None
                 (Some (JS.Num 3)).

(** A request with coordinates. *)
Definition request : Planner.body :=
  Planner.mkBody
    (Some (Planner.mkLatLng (Some (32074 # 1000)) (Some (34792 # 1000)) None))
    None None (Some "drive") (Some near) None.

(** A request on the equator, with no [origin_query]. *)
Definition equator : Planner.body :=
  Planner.mkBody
    (Some (Planner.mkLatLng (Some 0%Q) (Some (34792 # 1000)) None))
    None None (Some "drive") (Some near) None.

Definition plan (b : Planner.body) : Planner.plan_response :=
  Planner.planDay (fun x => x) Qmult searchOrigin searchType provider noDetails
    noSearch noMatrix b.

(** A text search that finds one hotel, and a request on the equator
    that names it. *)
Definition hotel : Sar.place :=
  Sar.mkPlace (Some "h1") (Some "Hotel Splendido") None (Some (44 # 10))
              (Some (900 # 1)) None (Some (45492 # 1000)) (Some (10608 # 1000))
              None None.

Definition searchHotel (_ : string) : Sar.search_reply :=
  Sar.mkReply true (Some [hotel]).

Definition byQuery : Planner.body :=
  Planner.mkBody
    (Some (Planner.mkLatLng (Some 0%Q) (Some (34792 # 1000)) None))
    (Some "Hotel Splendido, Sirmione") None (Some "drive") None None.

End PlanExample.

(** C2, a concrete plan: two candidates, complete matrix. *)
Lemma planDay_greedy_order_complete_witness :
  exists s order timeline,
    PlanExample.plan PlanExample.request = Planner.PlanOk s order timeline
    /\ 4%nat = (Planner.count s + 2)%nat
    /\ Planner.tsp_order 4 PlanExample.dur = Some order
    /\ hd_error order = Some O
    /\ List.last order O = 3%nat
    /\ Permutation order (seq 0 4).
Proof.
  refine (planDay_greedy_order_complete (fun x => x) Qmult PlanExample.searchOrigin
            PlanExample.searchType PlanExample.provider PlanExample.noDetails
            PlanExample.noSearch PlanExample.noMatrix
            PlanExample.request PlanExample.matrix _ _ _ _).
  - vm_compute. reflexivity.
  - vm_compute. discriminate.
  - reflexivity.
  - vm_compute. reflexivity.
Defined.

(** C9, a concrete tie: from the origin both candidates are 300s away,
    and candidate 1 is selected. *)
Lemma greedy_tie_break_smallest_index_witness :
  fst (Planner.scan PlanExample.dur 0 [1%nat; 2%nat] None JS.Infinity) = Some 1%nat
  /\ In 1%nat [1%nat; 2%nat]
  /\ exists bestd,
       cell PlanExample.dur 0 1 = Some (JS.Fin bestd)
       /\ forall idx d,
            In idx [1%nat; 2%nat] ->
            cell PlanExample.dur 0 idx = Some (JS.Fin d) ->
            bestd <= d /\ (d = bestd -> (1 <= idx)%nat).
Proof.
  split; [reflexivity|].
  exact (greedy_tie_break_smallest_index PlanExample.dur 4 [O] [1%nat; 2%nat] 1%nat
           (Planner.loop_enter 4 PlanExample.dur) eq_refl).
Defined.


(* ------------------------------------------------------------------ *)
(** ** Route orchestrator: keys and exclude parameters *)

Section KeyFacts.

(** Occurrences of the colon in a string. *)
Fixpoint colons (s : string) : nat :=
  match s with
  | EmptyString => O
  | String c rest => ((if Ascii.eqb c ":" then 1 else 0) + colons rest)%nat
  end.

Lemma colons_app (a b : string) : colons (a +:+ b) = (colons a + colons b)%nat.
Proof. induction a as [|c a IH]; simpl; [reflexivity | rewrite IH; lia]. Qed.

Lemma colons_substring (n m : nat) (s : string) :
  colons s = O -> colons (substring n m s) = O.
Proof.
  revert n m. induction s as [|c s IH]; intros n m H; simpl in *.
  - destruct n, m; reflexivity.
  - destruct (Ascii.eqb c ":") eqn:E; [discriminate|]. simpl in H.
    destruct n; [destruct m; simpl; [reflexivity | rewrite E; now apply IH]|].
    now apply IH.
Qed.

Lemma colons_zeros (n : nat) : colons (JS.zeros n) = O.
Proof. induction n; simpl; auto. Qed.

Lemma colons_uint (d : Decimal.uint) : colons (NilEmpty.string_of_uint d) = O.
Proof. induction d; simpl; auto. Qed.

Lemma colons_int_to_string (z : Z) : colons (JS.int_to_string z) = O.
Proof.
  unfold JS.int_to_string, NilZero.string_of_int, NilZero.string_of_uint.
  destruct (Z.to_int z) as [d|d]; destruct d; simpl; auto using colons_uint.
Qed.

Lemma colons_toFixed (f : nat) (x : Q) : colons (JS.toFixed f x) = O.
Proof.
  unfold JS.toFixed.
  set (m := JS.int_to_string _).
  assert (Hs : colons (if Qle_bool 0 x then "" else "-") = O)
    by (destruct (Qle_bool 0 x); reflexivity).
  assert (Hm : colons m = O) by apply colons_int_to_string.
  destruct f as [|f].
  - now rewrite colons_app, Hs, Hm.
  - set (m' := if (String.length m <=? S f)%nat then _ else m).
    assert (Hm' : colons m' = O).
    { subst m'. destruct (_ <=? _)%nat; [|exact Hm].
      now rewrite colons_app, colons_zeros, Hm. }
    rewrite !colons_app, Hs, !colons_substring by exact Hm'. reflexivity.
Qed.

Lemma colons_concat (sep : string) (l : list string) :
  colons sep = O -> (forall s, In s l -> colons s = O) ->
  colons (String.concat sep l) = O.
Proof.
  intros Hsep. induction l as [|x l IH]; intros Hl; simpl; [reflexivity|].
  destruct l as [|y l]; [apply Hl; now left|].
  rewrite !colons_app, Hsep, (Hl x (or_introl eq_refl)), IH; [reflexivity|].
  intros s Hs. apply Hl. now right.
Qed.

Lemma colons_keyFor (stops : list point) (exclude : string) :
  colons (Route.keyFor stops exclude)
  = if JS.truthy_str exclude then (2 + colons exclude)%nat else 1%nat.
Proof.
  unfold Route.keyFor. rewrite !colons_app, colons_concat; [| reflexivity |].
  - destruct (JS.truthy_str exclude); simpl; [rewrite colons_app|]; simpl; lia.
  - intros s Hs. apply in_map_iff in Hs as (p & <- & _).
    now rewrite !colons_app, !colons_toFixed.
Qed.

(** A key of a request without exclude classes is never the key of one
    with exclude classes. *)
Lemma keyFor_exclude_agree (stops stops' : list point) (ex ex' : string) :
  Route.keyFor stops ex = Route.keyFor stops' ex' ->
  JS.truthy_str ex = JS.truthy_str ex'.
Proof.
  intros H. apply (f_equal colons) in H. rewrite !colons_keyFor in H.
  destruct (JS.truthy_str ex), (JS.truthy_str ex'); try reflexivity; lia.
Qed.

(** *** The exclude parameter *)

Lemma map_truthy_In (f : string -> option Route.table_value) (l : list string)
    (y : Route.table_value) :
  In y (Route.map_truthy f l) <->
  exists x, In x l /\ f x = Some y /\ Route.truthy_value y = true.
Proof.
  induction l as [|x l IH]; simpl.
  - split; [tauto | intros (x & [] & _)].
  - destruct (f x) as [y0|] eqn:Hf.
    + destruct (Route.truthy_value y0) eqn:Ht; simpl; rewrite IH; split.
      * intros [<-|(x' & Hin & Hx)]; [exists x; auto | exists x'; tauto].
      * intros (x' & [<-|Hin] & Hx & Ht'); [left; congruence | right; eauto].
      * intros (x' & Hin & Hx); exists x'; tauto.
      * intros (x' & [<-|Hin] & Hx & Ht'); [congruence | eauto].
    + rewrite IH. split.
      * intros (x' & Hin & Hx); exists x'; tauto.
      * intros (x' & [<-|Hin] & Hx & Ht'); [congruence | eauto].
Qed.

Lemma value_eqb_spec (a b : Route.table_value) :
  reflect (a = b) (Route.value_eqb a b).
Proof.
  destruct a as [s|n], b as [s'|n']; simpl; try (constructor; discriminate).
  - destruct (String.eqb_spec s s'); constructor; congruence.
  - destruct (String.eqb_spec n n'); constructor; congruence.
Qed.

Lemma value_eqb_refl (a : Route.table_value) : Route.value_eqb a a = true.
Proof. destruct (value_eqb_spec a a); congruence. Qed.

Lemma dedupe_head (x : Route.table_value) (l : list Route.table_value) :
  exists rest, Route.dedupe (x :: l) = x :: rest.
Proof.
  unfold Route.dedupe. simpl. rewrite value_eqb_refl. simpl. eauto.
Qed.

Lemma concat_truthy (sep y : string) (ys : list string) :
  JS.truthy_str y = true -> JS.truthy_str (String.concat sep (y :: ys)) = true.
Proof.
  destruct y as [|c y]; [discriminate|]. intros _.
  simpl. destruct ys; reflexivity.
Qed.

Lemma inherited_spec (term : string) (y : Route.table_value) :
  Route.inherited term = Some y ->
  y = Route.Inherited term /\ In term Route.prototype_names.
Proof.
  unfold Route.inherited.
  destruct (existsb _ _) eqn:E; [|discriminate]. intros [= <-].
  split; [reflexivity|]. apply existsb_exists in E as (n & Hn & E).
  apply String.eqb_eq in E. now subst.
Qed.

(** Every value of the table is written by [join] as a non-empty
    string. *)
Lemma to_string_truthy (y : Route.table_value) :
  Route.truthy_value y = true -> JS.truthy_str (Route.to_string y) = true.
Proof.
  destruct y as [s|n]; simpl; [tauto|]. intros _.
  destruct (String.eqb n "__proto__"); [reflexivity|].
  destruct (String.eqb n "constructor"); reflexivity.
Qed.

Lemma AVOID_MAP_truthy (term : string) (y : Route.table_value) :
  Route.AVOID_MAP term = Some y -> Route.truthy_value y = true.
Proof.
  unfold Route.AVOID_MAP.
  repeat (destruct (String.eqb term _); [intros [= <-]; reflexivity|]).
  intros H. apply inherited_spec in H as [-> _]. reflexivity.
Qed.

(** The exclude parameter is non-empty exactly when the request names a
    term that the table answers: [tolls], [ferries], [highways], or a
    name that the table inherits from [Object.prototype]. *)
Lemma buildExcludeParam_truthy (avoid : list string) :
  JS.truthy_str (Route.buildExcludeParam avoid) = true <->
  exists term, In term avoid /\ Route.AVOID_MAP term <> None.
Proof.
  unfold Route.buildExcludeParam. destruct avoid as [|a avoid].
  { split; [discriminate | intros (t0 & [] & _)]. }
  remember (a :: avoid) as l eqn:Hl. clear Hl.
  destruct (Route.map_truthy Route.AVOID_MAP l) as [|y ys] eqn:Hm.
  - split; [discriminate|]. intros (term & Hin & Hterm).
    destruct (Route.AVOID_MAP term) as [y|] eqn:Hy; [|congruence].
    assert (Hy' : In y (Route.map_truthy Route.AVOID_MAP l)).
    { apply map_truthy_In. exists term. eauto using AVOID_MAP_truthy. }
    rewrite Hm in Hy'. destruct Hy'.
  - assert (Hy : In y (Route.map_truthy Route.AVOID_MAP l)) by (rewrite Hm; now left).
    apply map_truthy_In in Hy as (term & Hin & Hterm & Ht).
    destruct (dedupe_head y ys) as (rest & ->).
    split; [intros _; exists term; split; [exact Hin | congruence]|].
    intros _. simpl map. now apply concat_truthy, to_string_truthy.
Qed.

(** The terms that the table answers. *)
Lemma AVOID_MAP_answers (term : string) :
  Route.AVOID_MAP term <> None <->
  In term ["tolls"; "ferries"; "highways"] \/ In term Route.prototype_names.
Proof.
  unfold Route.AVOID_MAP.
  destruct (String.eqb_spec term "tolls") as [->|H1];
    [split; [intros _; left; simpl; tauto | discriminate]|].
  destruct (String.eqb_spec term "ferries") as [->|H2];
    [split; [intros _; left; simpl; tauto | discriminate]|].
  destruct (String.eqb_spec term "highways") as [->|H3];
    [split; [intros _; left; simpl; tauto | discriminate]|].
  unfold Route.inherited. destruct (existsb _ _) eqn:E.
  - split; [|discriminate]. intros _. right.
    apply existsb_exists in E as (n & Hn & E). apply String.eqb_eq in E. now subst.
  - split; [intros H; now destruct H|].
    intros [[H|[H|[H|[]]]]|H]; try congruence.
    assert (existsb (String.eqb term) Route.prototype_names = true)
      by (apply existsb_exists; exists term; split;
          [exact H | apply String.eqb_refl]).
    congruence.
Qed.

Lemma buildExcludeParam_nil : Route.buildExcludeParam [] = "".
Proof. reflexivity. Qed.

End KeyFacts.

(* ------------------------------------------------------------------ *)
(** ** Route orchestrator: the cache *)

Section LruFacts.

Lemma lru_find_In (k : string) (c : Route.lru) (p : Route.payload) (t0 : Z) :
  Route.lru_find k c = Some (p, t0) -> In (k, (p, t0)) c.
Proof.
  unfold Route.lru_find. destruct (List.find _ c) as [[k' v]|] eqn:Hf; [|discriminate].
  simpl. intros [= ->]. apply find_some in Hf as [Hin Hk]. simpl in Hk.
  apply String.eqb_eq in Hk. now subst.
Qed.

Lemma lru_remove_In (e : string * (Route.payload * Z)) (k : string) (c : Route.lru) :
  In e (Route.lru_remove k c) -> In e c.
Proof. unfold Route.lru_remove. rewrite filter_In. tauto. Qed.

Lemma lru_get_In (ttl now : Z) (k : string) (c : Route.lru)
    (e : string * (Route.payload * Z)) :
  In e (snd (Route.lru_get ttl now k c)) -> In e c.
Proof.
  unfold Route.lru_get. destruct (Route.lru_find k c) as [[p t0]|] eqn:Hf; [|tauto].
  destruct (now - t0 <? ttl); simpl.
  - intros [<-|Hin]; [now apply lru_find_In | eapply lru_remove_In; eauto].
  - apply lru_remove_In.
Qed.

Lemma lru_get_hit (ttl now : Z) (k : string) (c : Route.lru) (p : Route.payload) :
  fst (Route.lru_get ttl now k c) = Some p ->
  exists t0, In (k, (p, t0)) c /\ now - t0 < ttl.
Proof.
  unfold Route.lru_get. destruct (Route.lru_find k c) as [[p' t0]|] eqn:Hf;
    [|discriminate].
  destruct (now - t0 <? ttl) eqn:E; simpl; [|discriminate].
  intros [= ->]. exists t0. split; [now apply lru_find_In | lia].
Qed.

Lemma lru_get_found (ttl now : Z) (k : string) (c : Route.lru)
    (p : Route.payload) (t0 : Z) :
  Route.lru_find k c = Some (p, t0) -> now - t0 < ttl ->
  fst (Route.lru_get ttl now k c) = Some p.
Proof.
  intros Hf Hage. unfold Route.lru_get. rewrite Hf.
  destruct (now - t0 <? ttl) eqn:E; [reflexivity | lia].
Qed.

Lemma lru_set_In (max : nat) (now : Z) (k : string) (p : Route.payload)
    (c : Route.lru) (e : string * (Route.payload * Z)) :
  In e (Route.lru_set max now k p c) -> e = (k, (p, now)) \/ In e c.
Proof.
  unfold Route.lru_set. intros H. apply firstn_In in H as [<-|H]; [now left|].
  right. eapply lru_remove_In; eauto.
Qed.

Lemma lru_set_find (max : nat) (now : Z) (k : string) (p : Route.payload)
    (c : Route.lru) :
  (1 <= max)%nat ->
  Route.lru_find k (Route.lru_set max now k p c) = Some (p, now).
Proof.
  intros Hmax. unfold Route.lru_set, Route.lru_find.
  destruct max as [|max]; [lia|]. simpl. now rewrite String.eqb_refl.
Qed.

End LruFacts.

(* ------------------------------------------------------------------ *)
(** ** Route orchestrator: the handler *)

Section RouteFacts.

Variable cfg : Route.config.

Local Abbreviation key_of req :=
  (Route.keyFor (Route.req_stops req) (Route.buildExcludeParam (Route.req_avoid req))).

(** The three ways through the handler for a valid request. *)
Lemma route_handler_valid (w : Route.world) (now tend : Z) (req : Route.request)
    (st : Route.state) :
  Route.routeSchema req = true ->
  Route.route_handler cfg w now tend req st =
  let r := Route.lru_get (Route.CACHE_TTL_MS cfg) now (key_of req) (Route.cache st) in
  match fst r with
  | Some p => (Route.Json p, [], Route.with_cache st (snd r))
  | None =>
    if now <? Route.breakerUntil st then
      (Route.Failure 503 "provider_unavailable"
         "Route provider temporarily unavailable", [], Route.with_cache st (snd r))
    else Route.dispatch cfg w tend req (Route.with_cache st (snd r))
  end.
Proof.
  intros Hv. unfold Route.route_handler. rewrite Hv. simpl negb. cbv iota.
  cbv zeta. destruct (Route.lru_get _ now _ _) as [hit c1]. reflexivity.
Qed.

Lemma callORS_not_relaxed (o : Route.fetch_outcome (option Route.ors_feature))
    (p : Route.payload) :
  Route.ors_payload (Route.callORS o) = Some p -> Route.route_retry_relaxed p = false.
Proof.
  unfold Route.callORS. destruct o as [nm str|stt text parsed]; [discriminate|].
  destruct (negb (Route.http_ok stt)); [discriminate|].
  destruct parsed as [[feat|]|str]; try discriminate.
  destruct (Route.f_geometry feat); [|discriminate]. now intros [= <-].
Qed.

Lemma ors_stage_None (w : Route.world) (req : Route.request) :
  Route.ors_stage cfg w req = None <-> Route.callORS_throws cfg req = true.
Proof.
  unfold Route.ors_stage, Route.callORS_throws.
  destruct (Route.wantsAvoid req && JS.truthy_str (Route.ORS_API_KEY cfg));
    simpl; [|split; discriminate].
  destruct (Route.req_constraints_avoid req) as [avoid|b];
    [|split; reflexivity].
  destruct (Route.ors_ok _); [destruct (Route.ors_payload _)|]; split; discriminate.
Qed.

(** The secondary provider stage: at most one request, never a relaxed
    payload. *)
Lemma ors_stage_spec (w : Route.world) (req : Route.request)
    (provider : string) (payload0 : option Route.payload)
    (calls0 : list Route.upstream_call) :
  Route.ors_stage cfg w req = Some (provider, payload0, calls0) ->
  Route.osrm_calls calls0 = []
  /\ (length calls0 <= 1)%nat
  /\ (Route.req_avoid req = [] -> calls0 = [] /\ payload0 = None)
  /\ (forall p, payload0 = Some p ->
        Route.route_retry_relaxed p = false /\ calls0 <> []
        /\ Route.req_avoid req <> []).
Proof.
  unfold Route.ors_stage, Route.wantsAvoid, Route.req_avoid.
  destruct (Route.req_constraints_avoid req) as [[|a avoid]|b] eqn:Ha; simpl.
  - intros [= <- <- <-]. repeat split; auto; discriminate.
  - destruct (JS.truthy_str (Route.ORS_API_KEY cfg)); simpl.
    2:{ intros [= <- <- <-]. repeat split; auto; discriminate. }
    destruct (Route.ors_ok _) eqn:Hok;
      [destruct (Route.ors_payload _) as [p|] eqn:Hp|]; intros [= <- <- <-]; simpl;
      (split; [reflexivity|]); (split; [lia|]); (split; [discriminate|]);
      intros q Hq; try discriminate.
    injection Hq as <-. split; [|split; discriminate].
    eapply callORS_not_relaxed; eauto.
  - destruct (b && JS.truthy_str (Route.ORS_API_KEY cfg)); [discriminate|].
    intros [= <- <- <-]. repeat split; auto; discriminate.
Qed.

Lemma needs_retry_iff (first : Route.osrm_result) :
  Route.needs_retry first = true <->
  Route.ok first = false \/ Route.code_is_Ok first = false.
Proof.
  unfold Route.needs_retry.
  destruct (Route.ok first), (Route.code_is_Ok first); simpl; intuition congruence.
Qed.

Lemma needs_retry_no_valid_route (first : Route.osrm_result) :
  Route.needs_retry first = true -> Route.no_valid_route first = true.
Proof.
  unfold Route.needs_retry, Route.no_valid_route.
  destruct (Route.ok first), (Route.code_is_Ok first); simpl; congruence.
Qed.

Lemma usable_route (second : Route.osrm_result) :
  Route.usable second = true ->
  Route.no_valid_route second = false
  /\ exists route rest, Route.routes_of second = route :: rest.
Proof.
  unfold Route.usable, Route.no_valid_route, Route.has_routes.
  destruct (Route.ok second), (Route.code_is_Ok second); simpl; try discriminate.
  destruct (Route.routes_of second) as [|route rest]; simpl; [discriminate|].
  eauto.
Qed.

(** The handler past the secondary provider, case by case. *)
Lemma dispatch_primary (w : Route.world) (tend : Z) (req : Route.request)
    (st1 : Route.state) (provider : string) (calls0 : list Route.upstream_call) :
  Route.ors_stage cfg w req = Some (provider, None, calls0) ->
  let exclude := Route.buildExcludeParam (Route.req_avoid req) in
  let first := Route.first_attempt cfg w req exclude in
  let second := Route.second_attempt w req in
  let both := [Route.CallOSRM (Route.urlWith req exclude);
               Route.CallOSRM (Route.urlNo req)] in
  let failure calls :=
    (Route.Failure 502 (Route.failure_code first) (Route.failure_message first),
     calls0 ++ calls,
     Route.with_breaker st1
       (Route.breaker_after_failure tend first (Route.breakerUntil st1))) in
  Route.dispatch cfg w tend req st1 =
  if Route.needs_retry first then
    if Route.usable second then
      match Route.routes_of second with
      | route :: _ =>
        Route.respond_ok cfg tend (key_of req)
          (if String.eqb provider "osrm_fallback" then "osrm_fallback_relaxed"
           else "osrm_relaxed")
          (Route.payload_of_route route (JS.truthy_str exclude))
          (calls0 ++ both) st1
      | [] => (Route.Failure 500 "internal_error" "", calls0 ++ both, st1)
      end
    else failure both
  else if Route.has_routes first then
    match Route.routes_of first with
    | route :: _ =>
      Route.respond_ok cfg tend (key_of req) provider
        (Route.payload_of_route route false)
        (calls0 ++ [Route.CallOSRM (Route.urlWith req exclude)]) st1
    | [] => (Route.Failure 500 "internal_error" "",
             calls0 ++ [Route.CallOSRM (Route.urlWith req exclude)], st1)
    end
  else failure [Route.CallOSRM (Route.urlWith req exclude)].
Proof.
  intros Hors exclude first second both failure.
  unfold Route.dispatch. rewrite Hors. unfold Route.osrm_stage.
  fold exclude. fold first. fold second.
  destruct (Route.needs_retry first) eqn:Hretry.
  - destruct (Route.usable second) eqn:Hus.
    + destruct (usable_route second Hus) as (Hvalid & route & rest & Hroutes).
      now rewrite Hvalid, Hroutes.
    + now rewrite (needs_retry_no_valid_route first Hretry).
  - assert (Hnv : Route.no_valid_route first = negb (Route.has_routes first)).
    { unfold Route.needs_retry in Hretry. unfold Route.no_valid_route.
      destruct (Route.ok first), (Route.code_is_Ok first); simpl in *;
        try discriminate. reflexivity. }
    rewrite Hnv. destruct (Route.has_routes first); reflexivity.
Qed.

Lemma reaches_primary_unfold (w : Route.world) (now : Z) (req : Route.request)
    (st : Route.state) :
  Route.reaches_primary cfg w now req st = true ->
  Route.routeSchema req = true
  /\ fst (Route.lru_get (Route.CACHE_TTL_MS cfg) now (key_of req) (Route.cache st))
     = None
  /\ Route.breakerUntil st <= now
  /\ exists provider calls0,
       Route.ors_stage cfg w req = Some (provider, None, calls0)
       /\ Route.osrm_calls calls0 = [].
Proof.
  unfold Route.reaches_primary. rewrite !andb_true_iff.
  intros [[[Hv Hc] Hb] Ho]. split; [exact Hv|].
  split; [destruct (fst _); [discriminate | reflexivity]|].
  split; [apply negb_true_iff, Z.ltb_ge in Hb; exact Hb|].
  destruct (Route.ors_stage cfg w req) as [[[provider payload0] calls0]|] eqn:Hors;
    [|discriminate].
  destruct payload0; [discriminate|].
  exists provider, calls0. split; [reflexivity|].
  exact (proj1 (ors_stage_spec w req _ _ _ Hors)).
Qed.

Lemma route_handler_primary (w : Route.world) (now tend : Z)
    (req : Route.request) (st : Route.state) :
  Route.reaches_primary cfg w now req st = true ->
  Route.route_handler cfg w now tend req st
  = Route.dispatch cfg w tend req
      (Route.with_cache st
         (snd (Route.lru_get (Route.CACHE_TTL_MS cfg) now (key_of req)
                 (Route.cache st)))).
Proof.
  intros H. apply reaches_primary_unfold in H as (Hv & Hc & Hb & _).
  rewrite (route_handler_valid w now tend req st Hv). cbv zeta. rewrite Hc.
  destruct (now <? Route.breakerUntil st) eqn:E; [lia | reflexivity].
Qed.

Lemma osrm_calls_app (a b : list Route.upstream_call) :
  Route.osrm_calls (a ++ b) = Route.osrm_calls a ++ Route.osrm_calls b.
Proof.
  induction a as [|[stops feats|u] a IH]; simpl; [reflexivity | exact IH | now rewrite IH].
Qed.

(** C1 (as amended): for every route computation that reaches the primary
    provider, the first request carries the exclude parameter; if it fails
    or returns a non-success routing code, exactly one retry is issued
    with the exclude parameter stripped; a first reply with code [Ok] is
    not retried, and with zero routes it is answered [provider_error];
    at most two requests go to the primary provider; and if the retry
    succeeds its route is accepted with [route_retry_relaxed] true iff the
    exclude parameter was non-empty, that is, iff the table answers at
    least one of the avoid terms. The table is a plain object: it
    answers [tolls], [ferries] and [highways], and also the names it
    inherits from [Object.prototype], such as [constructor]. *)
Theorem route_retry_once_without_exclude (w : Route.world) (now tend : Z)
    (req : Route.request) (st : Route.state) :
  Route.reaches_primary cfg w now req st = true ->
  let exclude := Route.buildExcludeParam (Route.req_avoid req) in
  let first := Route.first_attempt cfg w req exclude in
  let second := Route.second_attempt w req in
  let out := Route.route_handler cfg w now tend req st in
  let primary := Route.osrm_calls (snd (fst out)) in
  (length primary <= 2)%nat
  /\ hd_error primary = Some (Route.urlWith req exclude)
  /\ (Route.ok first = false \/ Route.code_is_Ok first = false ->
      primary = [Route.urlWith req exclude; Route.urlNo req]
      /\ Route.url_exclude (Route.urlNo req) = "")
  /\ (Route.ok first = true -> Route.code_is_Ok first = true ->
      primary = [Route.urlWith req exclude]
      /\ (Route.has_routes first = false ->
          fst (fst out)
          = Route.Failure 502 "provider_error" (Route.failure_message first)))
  /\ (Route.ok first = false \/ Route.code_is_Ok first = false ->
      Route.usable second = true ->
      exists route,
        hd_error (Route.routes_of second) = Some route
        /\ fst (fst out)
           = Route.Json (Route.payload_of_route route (JS.truthy_str exclude)))
  /\ (JS.truthy_str exclude = true <->
      exists term, In term (Route.req_avoid req) /\ Route.AVOID_MAP term <> None)
  /\ (forall term,
        Route.AVOID_MAP term <> None <->
        In term ["tolls"; "ferries"; "highways"]
        \/ In term Route.prototype_names).
Proof.
  intros Hreach exclude first second out primary.
  pose proof (route_handler_primary w now tend req st Hreach) as Hout.
  apply reaches_primary_unfold in Hreach as (_ & _ & _ & provider & calls0 & Hors & Hc0).
  subst primary out. rewrite Hout.
  rewrite (dispatch_primary w tend req _ provider calls0 Hors).
  cbv zeta. fold exclude. fold first. fold second.
  pose proof (needs_retry_iff first) as Hiff.
  split; [|split; [|split; [|split; [|split; [|split]]]]];
    [| | | | | |apply AVOID_MAP_answers].
  - destruct (Route.needs_retry first); [destruct (Route.usable second)|];
      [destruct (Route.routes_of second)| |destruct (Route.has_routes first);
         [destruct (Route.routes_of first)|]];
      simpl; rewrite osrm_calls_app, Hc0; simpl; lia.
  - destruct (Route.needs_retry first); [destruct (Route.usable second)|];
      [destruct (Route.routes_of second)| |destruct (Route.has_routes first);
         [destruct (Route.routes_of first)|]];
      simpl; rewrite osrm_calls_app, Hc0; reflexivity.
  - intros Hfail. apply Hiff in Hfail. rewrite Hfail. split; [|reflexivity].
    destruct (Route.usable second); [destruct (Route.routes_of second)|];
      simpl; rewrite osrm_calls_app, Hc0; reflexivity.
  - intros Hok Hcode.
    assert (Hno : Route.needs_retry first = false).
    { destruct (Route.needs_retry first); [|reflexivity].
      destruct Hiff as [Hiff _]. destruct (Hiff eq_refl); congruence. }
    rewrite Hno. split.
    + destruct (Route.has_routes first); [destruct (Route.routes_of first)|];
        simpl; rewrite osrm_calls_app, Hc0; reflexivity.
    + intros ->. simpl. f_equal.
      unfold Route.failure_code.
      assert (He : Route.error first = None \/ Route.error first = Some "test_forced").
      { unfold first, Route.first_attempt.
        destruct (_ && _); [now right|]. left.
        subst first. unfold Route.first_attempt in Hok.
        destruct (_ && _) in Hok; [discriminate|]. revert Hok.
        unfold Route.callOsrm.
        destruct (Route.osrm_fetch w 0%nat _) as [nm str|stt text parsed];
          [discriminate|].
        destruct (negb (Route.http_ok stt)); [discriminate|].
        destruct parsed; [reflexivity | discriminate]. }
      destruct He as [->| ->]; reflexivity.
  - intros Hfail Hus. apply Hiff in Hfail. rewrite Hfail, Hus.
    destruct (usable_route second Hus) as (_ & route & rest & Hroutes).
    rewrite Hroutes. exists route. split; reflexivity.
  - apply buildExcludeParam_truthy.
Qed.

(** What a dispatch that answers with a payload leaves behind. *)
Lemma dispatch_json (w : Route.world) (tend : Z) (req : Route.request)
    (st1 : Route.state) (p : Route.payload) :
  fst (fst (Route.dispatch cfg w tend req st1)) = Route.Json p ->
  Route.cache (snd (Route.dispatch cfg w tend req st1))
  = Route.lru_set (Route.CACHE_MAX cfg) tend (key_of req) p (Route.cache st1)
  /\ Route.breakerUntil (snd (Route.dispatch cfg w tend req st1))
     = Route.breakerUntil st1
  /\ (Route.route_retry_relaxed p = true ->
      JS.truthy_str (Route.buildExcludeParam (Route.req_avoid req)) = true
      /\ Route.osrm_calls (snd (fst (Route.dispatch cfg w tend req st1)))
         = [Route.urlWith req (Route.buildExcludeParam (Route.req_avoid req));
            Route.urlNo req]).
Proof.
  destruct (Route.ors_stage cfg w req) as [[[provider payload0] calls0]|] eqn:Hors.
  2:{ unfold Route.dispatch. rewrite Hors. discriminate. }
  destruct (ors_stage_spec w req _ _ _ Hors) as (Hc0 & _ & _ & Hpay).
  destruct payload0 as [p0|].
  - unfold Route.dispatch. rewrite Hors. cbv beta iota zeta.
    unfold Route.respond_ok. cbn [fst snd Route.cache Route.breakerUntil].
    intros [= <-].
    split; [reflexivity|]. split; [reflexivity|]. intros Hrel.
    destruct (Hpay p0 eq_refl) as (Hfalse & _). congruence.
  - rewrite (dispatch_primary w tend req st1 provider calls0 Hors). cbv zeta.
    destruct (Route.needs_retry _); [destruct (Route.usable _)|];
      [destruct (Route.routes_of _) as [|route rest]| |destruct (Route.has_routes _);
         [destruct (Route.routes_of _) as [|route rest]|]];
      simpl; try discriminate; intros [= <-]; simpl;
      (split; [reflexivity|]); (split; [reflexivity|]); intros Hrel;
      try discriminate.
    split; [exact Hrel|]. rewrite osrm_calls_app, Hc0. reflexivity.
Qed.

(** An exception of [callORS] ends the request with a 500 and nothing
    else. *)
Lemma dispatch_throws (w : Route.world) (tend : Z) (req : Route.request)
    (st1 : Route.state) :
  Route.callORS_throws cfg req = true ->
  Route.dispatch cfg w tend req st1
  = (Route.Failure 500 "internal_error" "avoidArr.map is not a function", [], st1).
Proof.
  intros H. apply (ors_stage_None w) in H. unfold Route.dispatch. now rewrite H.
Qed.

(** The ways a dispatch can end, with what each leaves behind. *)
Lemma dispatch_cases (w : Route.world) (tend : Z) (req : Route.request)
    (st1 : Route.state) :
  let out := Route.dispatch cfg w tend req st1 in
  let first := Route.first_attempt cfg w req
                 (Route.buildExcludeParam (Route.req_avoid req)) in
  (Route.callORS_throws cfg req = true
   /\ out = (Route.Failure 500 "internal_error" "avoidArr.map is not a function",
             [], st1))
  \/ (Route.callORS_throws cfg req = false
      /\ snd (fst out) <> [] /\ (length (snd (fst out)) <= 3)%nat
      /\ ((exists p, fst (fst out) = Route.Json p
                     /\ Route.breakerUntil (snd out) = Route.breakerUntil st1)
          \/ (fst (fst out) = Route.Failure 500 "internal_error" ""
              /\ snd out = st1)
          \/ (fst (fst out)
              = Route.Failure 502 (Route.failure_code first)
                  (Route.failure_message first)
              /\ snd out
                 = Route.with_breaker st1
                     (Route.breaker_after_failure tend first
                        (Route.breakerUntil st1))))).
Proof.
  intros out first. subst out.
  destruct (Route.ors_stage cfg w req) as [[[provider payload0] calls0]|] eqn:Hors.
  2:{ left. apply ors_stage_None in Hors. split; [exact Hors|].
      now apply dispatch_throws. }
  right.
  assert (Hno : Route.callORS_throws cfg req = false).
  { destruct (Route.callORS_throws cfg req) eqn:E; [|reflexivity].
    apply (ors_stage_None w) in E. congruence. }
  split; [exact Hno|].
  destruct (ors_stage_spec w req _ _ _ Hors) as (_ & Hlen & _ & Hpay).
  destruct payload0 as [p0|].
  - unfold Route.dispatch. rewrite Hors. simpl.
    destruct (Hpay p0 eq_refl) as (_ & Hne & _).
    split; [exact Hne|]. split; [lia|]. left. eauto.
  - rewrite (dispatch_primary w tend req st1 provider calls0 Hors). cbv zeta.
    fold first.
    destruct (Route.needs_retry _); [destruct (Route.usable _)|];
      [destruct (Route.routes_of _) as [|route rest]| |destruct (Route.has_routes _);
         [destruct (Route.routes_of _) as [|route rest]|]];
      simpl; rewrite length_app; simpl;
      (split; [intros H; apply app_eq_nil in H as [_ H]; discriminate|]);
      (split; [lia|]); eauto.
Qed.

(** A dispatch goes upstream unless [callORS] throws, with at most
    three requests. *)
Lemma dispatch_calls (w : Route.world) (tend : Z) (req : Route.request)
    (st1 : Route.state) :
  (snd (fst (Route.dispatch cfg w tend req st1)) <> []
   <-> Route.callORS_throws cfg req = false)
  /\ (length (snd (fst (Route.dispatch cfg w tend req st1))) <= 3)%nat.
Proof.
  destruct (dispatch_cases w tend req st1) as [(Ht & ->)|(Ht & Hne & Hlen & _)];
    rewrite Ht; simpl.
  - split; [split; [intros H; now destruct H | discriminate] | lia].
  - split; [tauto | exact Hlen].
Qed.

Lemma dispatch_not_refused (w : Route.world) (tend : Z) (req : Route.request)
    (st1 : Route.state) (code msg : string) :
  fst (fst (Route.dispatch cfg w tend req st1)) <> Route.Failure 503 code msg.
Proof.
  destruct (dispatch_cases w tend req st1)
    as [(_ & ->)|(_ & _ & _ & [(p & -> & _)|[(-> & _)|(-> & _)]])]; discriminate.
Qed.

(** The head and the tail of the handler. *)
Lemma route_handler_receive (w : Route.world) (now tend : Z) (req : Route.request)
    (st : Route.state) :
  Route.route_handler cfg w now tend req st
  = match Route.receive cfg now req st with
    | (inl r, st1) => (r, [], st1)
    | (inr _, st1) => Route.dispatch cfg w tend req st1
    end.
Proof.
  unfold Route.route_handler, Route.receive.
  destruct (negb (Route.routeSchema req)); [reflexivity|]. cbv zeta.
  destruct (Route.lru_get _ now _ _) as [[p|] c1]; [reflexivity|].
  destruct (now <? _); reflexivity.
Qed.

Lemma first_attempt_shape (w : Route.world) (req : Route.request) (exclude : string) :
  Route.status (Route.first_attempt cfg w req exclude) = None
  \/ Route.error (Route.first_attempt cfg w req exclude) = None.
Proof.
  unfold Route.first_attempt. destruct (_ && _); [now left|].
  unfold Route.callOsrm.
  destruct (Route.osrm_fetch w 0%nat _) as [nm str|stt text parsed]; [now left|].
  destruct (negb (Route.http_ok stt)); [now right|].
  destruct parsed; now left.
Qed.

(** The answer and the requests of a dispatch do not depend on the
    state it settles on. *)
Lemma dispatch_state_free (w : Route.world) (tend : Z) (req : Route.request)
    (st1 st2 : Route.state) :
  fst (Route.dispatch cfg w tend req st1) = fst (Route.dispatch cfg w tend req st2).
Proof.
  unfold Route.dispatch.
  destruct (Route.ors_stage cfg w req) as [[[provider [p0|]] calls0]|];
    try reflexivity.
  destruct (Route.osrm_stage cfg w req _ provider) as [[[f r] pv] c1].
  destruct (Route.no_valid_route f); [reflexivity|].
  destruct (Route.routes_of f); reflexivity.
Qed.

Lemma first_attempt_fetch (w : Route.world) (req : Route.request) (exclude : string) :
  Route.req_testForceRelax req = false ->
  Route.first_attempt cfg w req exclude
  = Route.callOsrm (Route.osrm_fetch w 0%nat (Route.urlWith req exclude)).
Proof.
  intros H. unfold Route.first_attempt. rewrite H.
  now rewrite !andb_false_r.
Qed.

(** The tail of a request whose primary attempts both fail. *)
Lemma dispatch_failure (w : Route.world) (tend : Z) (req : Route.request)
    (st1 : Route.state) (provider : string) (calls0 : list Route.upstream_call) :
  let first := Route.first_attempt cfg w req
                 (Route.buildExcludeParam (Route.req_avoid req)) in
  Route.ors_stage cfg w req = Some (provider, None, calls0) ->
  Route.needs_retry first = true ->
  Route.usable (Route.second_attempt w req) = false ->
  fst (fst (Route.dispatch cfg w tend req st1))
  = Route.Failure 502 (Route.failure_code first) (Route.failure_message first)
  /\ Route.breakerUntil (snd (Route.dispatch cfg w tend req st1))
     = Route.breaker_after_failure tend first (Route.breakerUntil st1).
Proof.
  intros first Hors Hretry Hus.
  rewrite (dispatch_primary w tend req st1 provider calls0 Hors). cbv zeta.
  fold first. rewrite Hretry, Hus. split; reflexivity.
Qed.

(** C3 (as amended): the breaker is a cooldown timer that a request
    meets when it arrives. While [now < breakerUntil] a valid request
    with no valid cache entry is answered [provider_unavailable] without
    any upstream request; once [breakerUntil <= now] the request goes on
    to the providers with no reset, and issues upstream requests unless
    [callORS] throws on an [avoid] that is no array. When neither
    primary attempt gives a route, the answer and the breaker follow the
    failure kept in [first], which is the first attempt; the failure of
    the retry is dropped. The answer is [provider_timeout] when the
    first attempt was aborted by the timeout and [provider_error]
    otherwise; the deadline becomes 60s after the end of the request on
    a first status of 500 or more, 30s after it on a first network or
    timeout error, and stays as it is in every other case, whatever the
    retry met. The new deadline is assigned over the one in place when
    the request settles, be it later, and the answer and the upstream
    requests of a request do not depend on that state: a request in
    flight when the breaker opens goes on all the same. An answer with
    a payload, relaxed or not, leaves the breaker as it was. *)
Theorem route_breaker_cooldown (w : Route.world) (now tend : Z)
    (req : Route.request) (st settled : Route.state) :
  Route.routeSchema req = true ->
  let exclude := Route.buildExcludeParam (Route.req_avoid req) in
  let url := Route.urlWith req exclude in
  let first := Route.first_attempt cfg w req exclude in
  let second := Route.second_attempt w req in
  let out := Route.route_handler cfg w now tend req st in
  let late := Route.dispatch cfg w tend req settled in
  let cached :=
    fst (Route.lru_get (Route.CACHE_TTL_MS cfg) now (key_of req) (Route.cache st)) in
  let to_primary :=
    exists provider calls0,
      Route.ors_stage cfg w req = Some (provider, None, calls0) in
  (cached = None -> now < Route.breakerUntil st ->
     fst (fst out)
     = Route.Failure 503 "provider_unavailable"
         "Route provider temporarily unavailable"
     /\ snd (fst out) = []
     /\ Route.breakerUntil (snd out) = Route.breakerUntil st)
  /\ (cached = None -> Route.breakerUntil st <= now ->
      fst (Route.receive cfg now req st) = inr tt
      /\ out = Route.dispatch cfg w tend req (snd (Route.receive cfg now req st))
      /\ (snd (fst out) <> [] <-> Route.callORS_throws cfg req = false)
      /\ forall m, fst (fst out) <> Route.Failure 503 "provider_unavailable" m)
  /\ (to_primary ->
      Route.needs_retry first = true -> Route.usable second = false ->
      fst (fst late)
      = Route.Failure 502
          (match Route.error first with
           | Some e => if String.eqb e "timeout" then "provider_timeout"
                       else "provider_error"
           | None => "provider_error"
           end)
          (Route.failure_message first)
      /\ (forall s, Route.status first = Some s -> 500 <= s ->
            Route.breakerUntil (snd late) = tend + 60000)
      /\ (forall e, Route.error first = Some e -> e <> "" ->
            Route.breakerUntil (snd late) = tend + 30000)
      /\ ((forall s, Route.status first = Some s -> s < 500) ->
          Route.error first = None \/ Route.error first = Some "" ->
          Route.breakerUntil (snd late) = Route.breakerUntil settled))
  /\ (to_primary ->
      Route.req_testForceRelax req = false -> Route.usable second = false ->
      (forall str, Route.osrm_fetch w 0%nat url = Route.Threw "AbortError" str ->
         fst (fst late) = Route.Failure 502 "provider_timeout" "timeout"
         /\ Route.breakerUntil (snd late) = tend + 30000)
      /\ (forall s text parsed,
            Route.osrm_fetch w 0%nat url = Route.Responded s text parsed ->
            500 <= s ->
            fst (fst late)
            = Route.Failure 502 "provider_error" "Route computation failed"
            /\ Route.breakerUntil (snd late) = tend + 60000)
      /\ (forall s text parsed,
            Route.osrm_fetch w 0%nat url = Route.Responded s text parsed ->
            Route.http_ok s = false -> s < 500 ->
            fst (fst late)
            = Route.Failure 502 "provider_error" "Route computation failed"
            /\ Route.breakerUntil (snd late) = Route.breakerUntil settled))
  /\ (forall other, fst (Route.dispatch cfg w tend req other) = fst late)
  /\ (forall p, fst (fst late) = Route.Json p ->
        Route.breakerUntil (snd late) = Route.breakerUntil settled)
  /\ (forall p, fst (fst out) = Route.Json p ->
        Route.breakerUntil (snd out) = Route.breakerUntil st).
Proof.
  intros Hv exclude url first second out late cached to_primary.
  subst out late to_primary.
  split; [|split; [|split; [|split; [|split; [|split]]]]];
    [| | | |intros other; apply dispatch_state_free| |].
  - rewrite (route_handler_valid w now tend req st Hv). cbv zeta. fold cached.
    intros -> Hopen. destruct (now <? Route.breakerUntil st) eqn:E; [|lia].
    repeat split.
  - rewrite (route_handler_receive w now tend req st).
    unfold Route.receive. rewrite Hv. simpl negb. cbv iota zeta.
    fold exclude. subst cached.
    destruct (Route.lru_get _ now _ _) as [hit c1]. simpl fst.
    intros -> Hclosed. simpl Route.breakerUntil.
    destruct (now <? Route.breakerUntil st) eqn:E; [lia|].
    split; [reflexivity|]. split; [reflexivity|].
    split; [apply dispatch_calls | intros m; apply dispatch_not_refused].
  - intros (provider & calls0 & Hors) Hretry Hus.
    destruct (dispatch_failure w tend req settled provider calls0 Hors Hretry Hus)
      as (-> & ->).
    fold exclude. fold first.
    split; [reflexivity|]. unfold Route.breaker_after_failure.
    split; [|split].
    + intros s Hs Hge. rewrite Hs. simpl.
      destruct (s =? 0) eqn:E0; [lia|]. destruct (500 <=? s) eqn:E5; [reflexivity | lia].
    + intros e He Hne.
      destruct (first_attempt_shape w req exclude) as [Hst|Herr].
      * fold first in Hst. rewrite Hst, He. simpl.
        destruct e; [congruence | reflexivity].
      * fold first in Herr. congruence.
    + intros Hst Herr.
      destruct (Route.status first) as [s|] eqn:Hs; simpl.
      * specialize (Hst s eq_refl).
        destruct (500 <=? s) eqn:E5; [lia|]. rewrite andb_false_r.
        destruct Herr as [-> | ->]; reflexivity.
      * destruct Herr as [-> | ->]; reflexivity.
  - intros (provider & calls0 & Hors) Hforce Hus.
    pose proof (first_attempt_fetch w req exclude Hforce) as Hfirst.
    fold first in Hfirst. fold url in Hfirst.
    split; [|split].
    + intros str Hfetch. rewrite Hfetch in Hfirst. simpl in Hfirst.
      assert (Hretry : Route.needs_retry first = true) by now rewrite Hfirst.
      destruct (dispatch_failure w tend req settled provider calls0 Hors Hretry Hus)
        as (-> & ->).
      fold exclude. fold first. rewrite Hfirst. split; reflexivity.
    + intros s text parsed Hfetch Hs. rewrite Hfetch in Hfirst.
      unfold Route.callOsrm in Hfirst.
      assert (Hok : Route.http_ok s = false).
      { unfold Route.http_ok. destruct (s <=? 299) eqn:E; [lia|].
        now rewrite andb_false_r. }
      rewrite Hok in Hfirst. simpl in Hfirst.
      assert (Hretry : Route.needs_retry first = true) by now rewrite Hfirst.
      destruct (dispatch_failure w tend req settled provider calls0 Hors Hretry Hus)
        as (-> & ->).
      fold exclude. fold first. rewrite Hfirst. split; [reflexivity|].
      unfold Route.breaker_after_failure. simpl.
      destruct (s =? 0) eqn:E0; [lia|]. destruct (500 <=? s) eqn:E5; [reflexivity | lia].
    + intros s text parsed Hfetch Hok Hs. rewrite Hfetch in Hfirst.
      unfold Route.callOsrm in Hfirst. rewrite Hok in Hfirst. simpl in Hfirst.
      assert (Hretry : Route.needs_retry first = true) by now rewrite Hfirst.
      destruct (dispatch_failure w tend req settled provider calls0 Hors Hretry Hus)
        as (-> & ->).
      fold exclude. fold first. rewrite Hfirst. split; [reflexivity|].
      unfold Route.breaker_after_failure. simpl.
      destruct (500 <=? s) eqn:E5; [lia|]. now rewrite andb_false_r.
  - intros p Hp. now apply dispatch_json in Hp as (_ & -> & _).
  - rewrite (route_handler_valid w now tend req st Hv). cbv zeta. fold cached.
    intros p. destruct cached as [p0|].
    + intros _. reflexivity.
    + destruct (now <? Route.breakerUntil st); [discriminate|].
      intros Hp. now apply dispatch_json in Hp as (_ & -> & _).
Qed.


(** *** The relaxed flag *)

(** Cached payloads marked relaxed sit under keys of requests that carry
    exclude classes. *)
Definition cache_ok (c : Route.lru) : Prop :=
  forall k p t0,
    In (k, (p, t0)) c -> Route.route_retry_relaxed p = true ->
    exists stops ex, k = Route.keyFor stops ex /\ JS.truthy_str ex = true.

Lemma dispatch_cache_In (w : Route.world) (tend : Z) (req : Route.request)
    (st1 : Route.state) (e : string * (Route.payload * Z)) :
  In e (Route.cache (snd (Route.dispatch cfg w tend req st1))) ->
  In e (Route.cache st1)
  \/ exists p, fst (fst (Route.dispatch cfg w tend req st1)) = Route.Json p
               /\ e = (key_of req, (p, tend)).
Proof.
  destruct (fst (fst (Route.dispatch cfg w tend req st1))) as [p|http code0 msg] eqn:Hr.
  - destruct (dispatch_json w tend req st1 p Hr) as (-> & _).
    intros He. apply lru_set_In in He as [->|He]; [right; eauto | now left].
  - intros He. left. revert Hr He.
    destruct (dispatch_cases w tend req st1)
      as [(_ & Hd)|(_ & _ & _ & [(p & Hp & _)|[(_ & Hs)|(_ & Hs)]])].
    + rewrite Hd. intros _ He. exact He.
    + rewrite Hp. discriminate.
    + rewrite Hs. intros _ He. exact He.
    + rewrite Hs. intros _ He. exact He.
Qed.

Lemma route_handler_cache_ok (w : Route.world) (now tend : Z)
    (req : Route.request) (st : Route.state) :
  cache_ok (Route.cache st) ->
  cache_ok (Route.cache (snd (Route.route_handler cfg w now tend req st))).
Proof.
  intros Hok. destruct (Route.routeSchema req) eqn:Hv.
  2:{ unfold Route.route_handler. rewrite Hv. exact Hok. }
  rewrite (route_handler_valid w now tend req st Hv). cbv zeta.
  set (r := Route.lru_get _ now _ _).
  assert (Hsub : cache_ok (snd r)).
  { intros k p t0 Hin. apply (Hok k p t0). eapply lru_get_In. exact Hin. }
  destruct (fst r); [exact Hsub|].
  destruct (now <? Route.breakerUntil st); [exact Hsub|].
  intros k p t0 Hin Hrel.
  apply dispatch_cache_In in Hin as [Hin|(p' & Hp' & [= -> -> ->])].
  - exact (Hsub k p t0 Hin Hrel).
  - apply dispatch_json in Hp' as (_ & _ & Hex).
    destruct (Hex Hrel) as (Ht & _). eauto.
Qed.

Lemma run_from_cache_ok (evs : list Route.event) (st : Route.state) :
  cache_ok (Route.cache st) ->
  cache_ok (Route.cache (fold_left (Route.step cfg) evs st)).
Proof.
  revert st. induction evs as [|e evs IH]; intros st Hok; simpl; [exact Hok|].
  apply IH. unfold Route.step. now apply route_handler_cache_ok.
Qed.

Lemma run_cache_ok (evs : list Route.event) :
  cache_ok (Route.cache (Route.run cfg evs)).
Proof. apply run_from_cache_ok. intros k p t0 []. Qed.

(** C5: in any state the server reaches, a response marked
    [route_retry_relaxed] was asked with at least one (recognised) avoid
    term and, when computed by this invocation, comes from the retry
    issued without the exclude parameter; a request with no avoid term is
    answered with [route_retry_relaxed = false] on every outcome, be it a
    cache hit, the secondary provider, the first primary attempt or the
    retry. *)
Theorem route_relaxed_only_when_avoiding (evs : list Route.event)
    (w : Route.world) (now tend : Z) (req : Route.request) (p : Route.payload) :
  let out := Route.route_handler cfg w now tend req (Route.run cfg evs) in
  let exclude := Route.buildExcludeParam (Route.req_avoid req) in
  fst (fst out) = Route.Json p ->
  (Route.route_retry_relaxed p = true ->
     Route.req_avoid req <> []
     /\ (exists term, In term (Route.req_avoid req) /\ Route.AVOID_MAP term <> None)
     /\ (snd (fst out) <> [] ->
         Route.osrm_calls (snd (fst out))
         = [Route.urlWith req exclude; Route.urlNo req]
         /\ Route.url_exclude (Route.urlNo req) = ""))
  /\ (Route.req_avoid req = [] -> Route.route_retry_relaxed p = false).
Proof.
  intros out exclude Hp.
  assert (Hmain : Route.route_retry_relaxed p = true ->
                  JS.truthy_str exclude = true
                  /\ (snd (fst out) <> [] ->
                      Route.osrm_calls (snd (fst out))
                      = [Route.urlWith req exclude; Route.urlNo req])).
  { subst out. revert Hp. destruct (Route.routeSchema req) eqn:Hv.
    2:{ unfold Route.route_handler. rewrite Hv. discriminate. }
    rewrite (route_handler_valid w now tend req _ Hv). cbv zeta.
    destruct (fst (Route.lru_get _ now _ _)) as [p0|] eqn:Hget.
    - intros [= <-] Hrel. split; [|intros Hne; now destruct Hne].
      apply lru_get_hit in Hget as (t0 & Hin & _).
      destruct (run_cache_ok evs _ _ _ Hin Hrel) as (stops & ex & Hk & Hex).
      apply keyFor_exclude_agree in Hk. fold exclude in Hk. congruence.
    - destruct (now <? Route.breakerUntil _); [discriminate|].
      intros Hd Hrel. apply dispatch_json in Hd as (_ & _ & Hex).
      destruct (Hex Hrel) as (Ht & Hcalls). split; [exact Ht | intros _; exact Hcalls]. }
  split.
  - intros Hrel. destruct (Hmain Hrel) as (Ht & Hcalls).
    split; [|split].
    + intros Hnil. subst exclude. rewrite Hnil in Ht. discriminate.
    + now apply buildExcludeParam_truthy.
    + intros Hne. split; [now apply Hcalls | reflexivity].
  - intros Hnil. destruct (Route.route_retry_relaxed p) eqn:Hrel; [|reflexivity].
    destruct (Hmain eq_refl) as (Ht & _). subst exclude. rewrite Hnil in Ht.
    discriminate.
Qed.

End RouteFacts.

(** *** Concrete runs *)

Module RouteExample.

Definition cfg : Route.config := Route.mkConfig "" false 1000 300000.

Definition telAviv : point := mkPoint (320853 # 10000) (347818 # 10000).
Definition herzliya : point := mkPoint (321093 # 10000) (348555 # 10000).

(** A request with no constraint, and one that avoids tolls. *)
Definition plain : Route.request :=
  Route.mkRequest [telAviv; herzliya] (Some "drive") (Route.AvoidArray []) false.
Definition noTolls : Route.request :=
  Route.mkRequest [telAviv; herzliya] (Some "drive") (Route.AvoidArray ["tolls"])
    false.

Definition a_route : Route.osrm_route :=
  Route.mkOsrmRoute (Some (12000 # 1)) (Some (900 # 1)) "LineString".

Definition no_ors (_ : list point) (_ : list Route.table_value)
  : Route.fetch_outcome (option Route.ors_feature) :=
  Route.Threw "TypeError" "TypeError: fetch failed".

(** OSRM answers every request with one route. *)
Definition serving : Route.world :=
  Route.mkWorld no_ors
    (fun _ _ => Route.Responded 200 ""
                  (inl (Route.mkOsrmJson (Some "Ok") (Some [a_route]) None))).

(** OSRM answers code [Ok] with an empty list of routes. *)
Definition zero_routes : Route.world :=
  Route.mkWorld no_ors
    (fun _ _ => Route.Responded 200 ""
                  (inl (Route.mkOsrmJson (Some "Ok") (Some []) None))).

(** OSRM rejects every request with HTTP 400. *)
Definition rejecting : Route.world :=
  Route.mkWorld no_ors (fun _ _ => Route.Responded 400 "InvalidQuery" (inr "")).

(** OSRM is down: HTTP 503 on every request. *)
Definition down : Route.world :=
  Route.mkWorld no_ors (fun _ _ => Route.Responded 503 "" (inr "")).

(** OSRM rejects the exclude parameter and serves the plain request. *)
Definition relaxing : Route.world :=
  Route.mkWorld no_ors
    (fun _ u =>
       if JS.truthy_str (Route.url_exclude u)
       then Route.Responded 400 "InvalidValue" (inr "")
       else Route.Responded 200 ""
              (inl (Route.mkOsrmJson (Some "Ok") (Some [a_route]) None))).

(** OSRM fails the first request of an invocation and serves the second. *)
Definition flaky : Route.world :=
  Route.mkWorld no_ors
    (fun i _ =>
       match i with
       | O => Route.Responded 400 "InvalidQuery" (inr "")
       | _ => Route.Responded 200 ""
                (inl (Route.mkOsrmJson (Some "Ok") (Some [a_route]) None))
       end).

(** A request that avoids a term outside the table. *)
Definition noBridges : Route.request :=
  Route.mkRequest [telAviv; herzliya] (Some "drive") (Route.AvoidArray ["bridges"])
    false.

(** A request whose avoid term is a name of [Object.prototype]. *)
Definition noConstructor : Route.request :=
  Route.mkRequest [telAviv; herzliya] (Some "drive")
    (Route.AvoidArray ["constructor"]) false.

(** A request whose [avoid] is the string ['tolls'], not an array. *)
Definition tollsString : Route.request :=
  Route.mkRequest [telAviv; herzliya] (Some "drive") (Route.AvoidOther true) false.

(** A server with an ORS key. *)
Definition cfg_ors : Route.config := Route.mkConfig "key" false 1000 300000.

Definition aborted : Route.fetch_outcome Route.osrm_json :=
  Route.Threw "AbortError" "AbortError: This operation was aborted".

(** OSRM answers no request within the timeout. *)
Definition timing_out : Route.world := Route.mkWorld no_ors (fun _ _ => aborted).

(** OSRM rejects the first request of an invocation with HTTP 400 and
    does not answer the second within the timeout. *)
Definition stalling : Route.world :=
  Route.mkWorld no_ors
    (fun i _ =>
       match i with
       | O => Route.Responded 400 "InvalidQuery" (inr "")
       | _ => aborted
       end).

Definition direct : Route.payload := Route.mkPayload 12000 900 "LineString" false.
Definition relaxed : Route.payload := Route.mkPayload 12000 900 "LineString" true.

End RouteExample.

(** The example of the design document: a provider returning 12000 m and
    900 s, no constraint. *)
Example route_plain_example :
  fst (Route.route_handler RouteExample.cfg RouteExample.serving 0 1
         RouteExample.plain Route.initial_state)
  = (Route.Json RouteExample.direct,
     [Route.CallOSRM (Route.urlWith RouteExample.plain "")]).
Proof. vm_compute. reflexivity. Qed.

(** An avoid term outside the table leaves the exclude parameter empty:
    the retry answers with [route_retry_relaxed = false]. *)
Example route_unrecognised_term_example :
  Route.buildExcludeParam ["bridges"] = ""
  /\ Route.buildExcludeParam ["tolls"; "bridges"; "highways"; "tolls"]
     = "toll,motorway".
Proof. split; vm_compute; reflexivity. Qed.

(** An avoid term that is a name of [Object.prototype] is answered by
    the table: the exclude parameter is the text of the function, OSRM
    rejects it, and the retry is marked relaxed. *)
Example route_inherited_term_example :
  Route.buildExcludeParam ["constructor"] = "function Object() { [native code] }"
  /\ Route.buildExcludeParam ["__proto__"; "tolls"] = "[object Object],toll"
  /\ fst (Route.route_handler RouteExample.cfg RouteExample.relaxing 0 1
            RouteExample.noConstructor Route.initial_state)
     = (Route.Json RouteExample.relaxed,
        [Route.CallOSRM (Route.urlWith RouteExample.noConstructor
                           "function Object() { [native code] }");
         Route.CallOSRM (Route.urlNo RouteExample.noConstructor)]).
Proof. repeat split; vm_compute; reflexivity. Qed.

(** An [avoid] that is no array: with an ORS key the string ['tolls']
    ends in [callORS] calling [avoidArr.map], and the answer is 500
    with no upstream request; without a key the request is served like
    one with no avoid term. *)
Example route_avoid_string_example :
  fst (Route.route_handler RouteExample.cfg_ors RouteExample.serving 0 1
         RouteExample.tollsString Route.initial_state)
  = (Route.Failure 500 "internal_error" "avoidArr.map is not a function", [])
  /\ fst (Route.route_handler RouteExample.cfg RouteExample.serving 0 1
            RouteExample.tollsString Route.initial_state)
     = (Route.Json RouteExample.direct,
        [Route.CallOSRM (Route.urlWith RouteExample.tollsString "")]).
Proof. split; vm_compute; reflexivity. Qed.

(** C1 (as stated) fails twice. On a first reply with code [Ok] and zero
    routes no retry is issued: one request goes to the primary provider.
    And a request whose only avoid term is outside the table has an empty
    exclude parameter: its successful retry is not marked relaxed. *)
Lemma route_retry_claim_counterexample :
  ~ (forall (cfg : Route.config) (w : Route.world) (now tend : Z)
            (req : Route.request) (st : Route.state),
       Route.reaches_primary cfg w now req st = true ->
       let first :=
         Route.first_attempt cfg w req
           (Route.buildExcludeParam (Route.req_avoid req)) in
       Route.ok first = false \/ Route.code_is_Ok first = false
       \/ Route.has_routes first = false ->
       length (Route.osrm_calls
                 (snd (fst (Route.route_handler cfg w now tend req st))))
       = 2%nat)
  /\ ~ (forall (cfg : Route.config) (w : Route.world) (now tend : Z)
               (req : Route.request) (st : Route.state) (p : Route.payload),
          Route.reaches_primary cfg w now req st = true ->
          Route.needs_retry
            (Route.first_attempt cfg w req
               (Route.buildExcludeParam (Route.req_avoid req))) = true ->
          Route.usable (Route.second_attempt w req) = true ->
          fst (fst (Route.route_handler cfg w now tend req st)) = Route.Json p ->
          (Route.route_retry_relaxed p = true <-> Route.req_avoid req <> [])).
Proof.
  split; intros H.
  - specialize (H RouteExample.cfg RouteExample.zero_routes 0 1 RouteExample.plain
                  Route.initial_state).
    assert (Hreach : Route.reaches_primary RouteExample.cfg RouteExample.zero_routes
                       0 RouteExample.plain Route.initial_state = true)
      by (vm_compute; reflexivity).
    specialize (H Hreach (or_intror (or_intror eq_refl))).
    vm_compute in H. discriminate H.
  - specialize (H RouteExample.cfg RouteExample.flaky 0 1 RouteExample.noBridges
                  Route.initial_state RouteExample.direct).
    assert (Hreach : Route.reaches_primary RouteExample.cfg RouteExample.flaky
                       0 RouteExample.noBridges Route.initial_state = true)
      by (vm_compute; reflexivity).
    assert (Hout : fst (fst (Route.route_handler RouteExample.cfg RouteExample.flaky
                               0 1 RouteExample.noBridges Route.initial_state))
                   = Route.Json RouteExample.direct)
      by (vm_compute; reflexivity).
    specialize (H Hreach eq_refl eq_refl Hout).
    destruct H as [_ H]. simpl in H.
    assert (Hne : ["bridges"] <> ([] : list string)) by discriminate.
    specialize (H Hne). discriminate H.
Qed.

(** C1, a concrete run: OSRM rejects the exclude parameter, the retry
    without it is accepted and marked relaxed. *)
Lemma route_retry_once_without_exclude_witness :
  Route.reaches_primary RouteExample.cfg RouteExample.relaxing 0
    RouteExample.noTolls Route.initial_state = true
  /\ exists route,
       hd_error (Route.routes_of
                   (Route.second_attempt RouteExample.relaxing RouteExample.noTolls))
       = Some route
       /\ fst (fst (Route.route_handler RouteExample.cfg RouteExample.relaxing 0 1
                      RouteExample.noTolls Route.initial_state))
          = Route.Json
              (Route.payload_of_route route
                 (JS.truthy_str (Route.buildExcludeParam ["tolls"]))).
Proof.
  assert (Hreach : Route.reaches_primary RouteExample.cfg RouteExample.relaxing 0
                     RouteExample.noTolls Route.initial_state = true)
    by (vm_compute; reflexivity).
  split; [exact Hreach|].
  refine (proj1 (proj2 (proj2 (proj2 (proj2
    (route_retry_once_without_exclude RouteExample.cfg RouteExample.relaxing 0 1
       RouteExample.noTolls Route.initial_state Hreach))))) _ _).
  - left. vm_compute. reflexivity.
  - vm_compute. reflexivity.
Defined.

(** C3 (as stated) fails: OSRM rejects the first attempt with HTTP 400
    and the retry is aborted by the timeout. Both primary attempts have
    failed, the second by a timeout, yet the answer is [provider_error]
    and the breaker stays closed, so the next request goes upstream at
    once. *)
Lemma route_breaker_claim_counterexample :
  Route.ok (Route.first_attempt RouteExample.cfg RouteExample.stalling
              RouteExample.plain "") = false
  /\ Route.error (Route.second_attempt RouteExample.stalling RouteExample.plain)
     = Some "timeout"
  /\ fst (Route.route_handler RouteExample.cfg RouteExample.stalling 0 24000
            RouteExample.plain Route.initial_state)
     = (Route.Failure 502 "provider_error" "Route computation failed",
        [Route.CallOSRM (Route.urlWith RouteExample.plain "");
         Route.CallOSRM (Route.urlNo RouteExample.plain)])
  /\ Route.breakerUntil
       (snd (Route.route_handler RouteExample.cfg RouteExample.stalling 0 24000
               RouteExample.plain Route.initial_state)) = 0
  /\ snd (fst (Route.route_handler RouteExample.cfg RouteExample.stalling
                 24001 48001 RouteExample.plain
                 (snd (Route.route_handler RouteExample.cfg RouteExample.stalling
                         0 24000 RouteExample.plain Route.initial_state))))
     <> [].
Proof. repeat split; vm_compute; try reflexivity; discriminate. Qed.

(** C3, a concrete run: OSRM answers no request within the timeout, the
    request that settles at clock 12000 is answered [provider_timeout]
    and opens the breaker until 42000, and a request at clock 13000 is
    turned away. *)
Lemma route_breaker_cooldown_witness :
  let late := Route.dispatch RouteExample.cfg RouteExample.timing_out 12000
                RouteExample.plain Route.initial_state in
  fst (fst late) = Route.Failure 502 "provider_timeout" "timeout"
  /\ Route.breakerUntil (snd late) = 42000
  /\ fst (fst (Route.route_handler RouteExample.cfg RouteExample.serving 13000
                 13001 RouteExample.plain (snd late)))
     = Route.Failure 503 "provider_unavailable"
         "Route provider temporarily unavailable".
Proof.
  intros late.
  pose proof (proj1 (proj1 (proj2 (proj2 (proj2
    (route_breaker_cooldown RouteExample.cfg RouteExample.timing_out 0 12000
       RouteExample.plain Route.initial_state Route.initial_state eq_refl))))
    (ex_intro _ "osrm" (ex_intro _ [] eq_refl)) eq_refl eq_refl)
    "AbortError: This operation was aborted" eq_refl) as [Hcode Hb].
  fold late in Hcode, Hb.
  split; [exact Hcode|]. split; [exact Hb|].
  refine (proj1 (proj1
    (route_breaker_cooldown RouteExample.cfg RouteExample.serving 13000 13001
       RouteExample.plain (snd late) Route.initial_state eq_refl) _ _)).
  - vm_compute. reflexivity.
  - rewrite Hb. lia.
Defined.



(** C5, a concrete run: after a relaxed answer to the toll-avoiding
    request was cached, the plain request is answered unrelaxed. *)
Lemma route_relaxed_only_when_avoiding_witness :
  let evs := [Route.mkEvent RouteExample.relaxing 0 1 RouteExample.noTolls] in
  fst (fst (Route.route_handler RouteExample.cfg RouteExample.serving 10 11
              RouteExample.plain (Route.run RouteExample.cfg evs)))
  = Route.Json RouteExample.direct
  /\ Route.route_retry_relaxed RouteExample.direct = false.
Proof.
  intros evs.
  assert (Hp : fst (fst (Route.route_handler RouteExample.cfg RouteExample.serving
                           10 11 RouteExample.plain
                           (Route.run RouteExample.cfg evs)))
               = Route.Json RouteExample.direct)
    by (vm_compute; reflexivity).
  split; [exact Hp|].
  exact (proj2
    (route_relaxed_only_when_avoiding RouteExample.cfg evs RouteExample.serving
       10 11 RouteExample.plain RouteExample.direct Hp) eq_refl).
Defined.

(* ================================================================== *)
(** * Further properties of the modelled code *)

(* ------------------------------------------------------------------ *)
(** ** routes/route.js: the exclude parameter and the cache key *)

Section DedupeFacts.

Lemma indexOf_nth (v : Route.table_value) (arr : list Route.table_value) (j : nat) :
  Route.indexOf v arr = Some j -> nth_error arr j = Some v.
Proof.
  revert j. induction arr as [|x arr IH]; intros j; simpl; [discriminate|].
  destruct (value_eqb_spec x v) as [->|Hne].
  - now intros [= <-].
  - destruct (Route.indexOf v arr) as [k|]; [|discriminate].
    intros [= <-]. simpl. now apply IH.
Qed.

Lemma indexOf_In (v : Route.table_value) (arr : list Route.table_value) :
  In v arr -> exists j, Route.indexOf v arr = Some j.
Proof.
  induction arr as [|x arr IH]; simpl; [tauto|]. intros Hin.
  destruct (value_eqb_spec x v) as [->|Hne]; [eauto|].
  destruct Hin as [->|Hin]; [congruence|].
  destruct (IH Hin) as (j & ->). simpl. eauto.
Qed.

Lemma enumerate_from_In {A : Type} (s i : nat) (x : A) (l : list A) :
  In (i, x) (Route.enumerate_from s l) <->
  (s <= i)%nat /\ nth_error l (i - s) = Some x.
Proof.
  revert s. induction l as [|y l IH]; intros s; simpl.
  - split; [tauto | intros [_ H]; destruct (i - s)%nat; discriminate].
  - rewrite IH. split.
    + intros [[= <- <-]|[Hle Hn]].
      * rewrite Nat.sub_diag. split; [lia | reflexivity].
      * split; [lia|]. replace (i - s)%nat with (S (i - S s)) by lia. exact Hn.
    + intros [Hle Hn]. destruct (i - s)%nat as [|k] eqn:E.
      * left. injection Hn as ->. f_equal. lia.
      * right. split; [lia|]. replace (i - S s)%nat with k by lia. exact Hn.
Qed.

Lemma enumerate_from_fst {A : Type} (s : nat) (l : list A) :
  map fst (Route.enumerate_from s l) = seq s (length l).
Proof.
  revert s. induction l as [|y l IH]; intros s; simpl; [reflexivity|].
  now rewrite IH.
Qed.

Lemma NoDup_map_snd {A B : Type} (L : list (A * B)) :
  List.NoDup L ->
  (forall a b, In a L -> In b L -> snd a = snd b -> a = b) ->
  List.NoDup (map snd L).
Proof.
  induction 1 as [|a L Ha Hnd IH]; intros Hinj; simpl; constructor.
  - intros Hin. apply in_map_iff in Hin as (b & Hb & Hin).
    assert (b = a) by (apply Hinj; [now right | now left | exact Hb]).
    subst. contradiction.
  - apply IH. intros x y Hx Hy. apply Hinj; now right.
Qed.

Lemma dedupe_In (arr : list Route.table_value) (x : Route.table_value) :
  In x (Route.dedupe arr) <-> In x arr.
Proof.
  unfold Route.dedupe. rewrite in_map_iff. split.
  - intros ([i v] & <- & Hin). apply filter_In in Hin as [Hin _].
    apply enumerate_from_In in Hin as [_ Hn]. eapply nth_error_In, Hn.
  - intros Hin. destruct (indexOf_In x arr Hin) as (j & Hj).
    exists (j, x). split; [reflexivity|]. apply filter_In. simpl. split.
    + apply enumerate_from_In. split; [lia|]. rewrite Nat.sub_0_r.
      now apply indexOf_nth.
    + rewrite Hj. apply Nat.eqb_refl.
Qed.

Lemma dedupe_NoDup (arr : list Route.table_value) : List.NoDup (Route.dedupe arr).
Proof.
  unfold Route.dedupe. apply NoDup_map_snd.
  - apply List.NoDup_filter. apply (NoDup_map_inv fst).
    rewrite enumerate_from_fst. apply seq_NoDup.
  - intros [i v] [j v'] Ha Hb. simpl. intros <-.
    apply filter_In in Ha as [_ Ha]. apply filter_In in Hb as [_ Hb].
    simpl in Ha, Hb. destruct (Route.indexOf v arr) as [k|]; [|discriminate].
    apply Nat.eqb_eq in Ha, Hb. congruence.
Qed.

End DedupeFacts.

(** The values of the table itself. *)
Definition own_classes : list Route.table_value :=
  [Route.Own "toll"; Route.Own "ferry"; Route.Own "motorway"].

(** X1: the exclude parameter is the comma-joined list of what the
    table answers for the avoid terms, each value once, whatever the
    number of times a term is repeated; a term that the table does not
    answer contributes nothing. The table is a plain object, so besides
    [tolls], [ferries] and [highways] it answers the names of
    [Object.prototype]: the avoid list [['constructor']] gives the
    exclude parameter [function Object() { [native code] }]. When no
    term is such a name the values are OSRM classes, at most three. *)
Theorem buildExcludeParam_classes (avoid : list string) :
  exists values,
    Route.buildExcludeParam avoid
    = String.concat "," (map Route.to_string values)
    /\ List.NoDup values
    /\ (forall v, In v values <->
                  exists term, In term avoid /\ Route.AVOID_MAP term = Some v)
    /\ incl values (own_classes ++ map Route.Inherited Route.prototype_names)
    /\ ((forall term, In term avoid -> ~ In term Route.prototype_names) ->
        incl values own_classes /\ (length values <= 3)%nat)
    /\ Route.buildExcludeParam ["constructor"]
       = "function Object() { [native code] }".
Proof.
  exists (Route.dedupe (Route.map_truthy Route.AVOID_MAP avoid)).
  assert (Hmem : forall c,
             In c (Route.dedupe (Route.map_truthy Route.AVOID_MAP avoid)) <->
             exists term, In term avoid /\ Route.AVOID_MAP term = Some c).
  { intros c. rewrite dedupe_In, map_truthy_In. split.
    - intros (t0 & Hin & Hc & _). eauto.
    - intros (t0 & Hin & Hc). exists t0. eauto using AVOID_MAP_truthy. }
  assert (Hval : forall t0 c, Route.AVOID_MAP t0 = Some c ->
             In c own_classes
             \/ (c = Route.Inherited t0 /\ In t0 Route.prototype_names)).
  { intros t0 c. unfold Route.AVOID_MAP, own_classes.
    repeat (destruct (String.eqb t0 _); [intros [= <-]; simpl; tauto|]).
    intros H. right. now apply inherited_spec. }
  split; [|split; [apply dedupe_NoDup|split; [exact Hmem|split; [|split]]]].
  - unfold Route.buildExcludeParam. destruct avoid; reflexivity.
  - intros c Hc. apply Hmem in Hc as (t0 & _ & Hc). apply in_or_app.
    destruct (Hval t0 c Hc) as [H|[-> H]]; [now left | right; now apply in_map].
  - intros Hplain.
    assert (Hincl : incl (Route.dedupe (Route.map_truthy Route.AVOID_MAP avoid))
                         own_classes).
    { intros c Hc. apply Hmem in Hc as (t0 & Hin & Hc).
      destruct (Hval t0 c Hc) as [H|[_ H]]; [exact H|]. now apply Hplain in H. }
    split; [exact Hincl|].
    apply (NoDup_incl_length (dedupe_NoDup _) Hincl).
  - vm_compute. reflexivity.
Qed.

Section KeyInjectivity.

(** A string is empty or starts with a colon. *)
Definition colon_led (s : string) : Prop :=
  s = "" \/ exists rest, s = String ":" rest.

Lemma split_at_colon (a a' b b' : string) :
  colons a = O -> colons a' = O -> colon_led b -> colon_led b' ->
  a +:+ b = a' +:+ b' -> a = a' /\ b = b'.
Proof.
  revert a'. induction a as [|c a IH]; intros a' Ha Ha' Hb Hb' Heq.
  - destruct a' as [|c' a']; [now split|]. simpl in Heq. exfalso.
    destruct Hb as [->|(rest & ->)]; [discriminate|].
    injection Heq as <- _. simpl in Ha'. discriminate.
  - destruct a' as [|c' a'].
    + simpl in Heq. exfalso.
      destruct Hb' as [->|(rest & ->)]; [discriminate|].
      injection Heq as -> _. simpl in Ha. discriminate.
    + simpl in Heq. injection Heq as <- Heq. simpl in Ha, Ha'.
      destruct (Ascii.eqb c ":"); [discriminate|].
      destruct (IH a' Ha Ha' Hb Hb' Heq) as [-> ->]. now split.
Qed.

Lemma colons_route_part (stops : list point) :
  colons (String.concat "->"
            (map (fun p => JS.toFixed 5 (lat p) +:+ "," +:+ JS.toFixed 5 (lon p))
                 stops)) = O.
Proof.
  apply colons_concat; [reflexivity|]. intros s Hs.
  apply in_map_iff in Hs as (p & <- & _).
  now rewrite !colons_app, !colons_toFixed.
Qed.

End KeyInjectivity.

(** X2: two requests share a cache key only if their exclude parameters
    are equal and their stops render to the same rounded text: a cached
    answer is never served across different exclude sets. *)
Theorem keyFor_separates_excludes (stops stops' : list point) (ex ex' : string) :
  Route.keyFor stops ex = Route.keyFor stops' ex' ->
  ex = ex' /\ Route.keyFor stops "" = Route.keyFor stops' "".
Proof.
  unfold Route.keyFor. intros H. apply String.app_inj in H.
  assert (Hled : forall e, colon_led (if JS.truthy_str e then ":ex=" +:+ e else "")).
  { intros e. destruct (JS.truthy_str e); [right; simpl; eauto | now left]. }
  apply split_at_colon in H as [Hs Hsuf];
    try apply colons_route_part; try apply Hled.
  split.
  - destruct ex as [|c ex], ex' as [|c' ex']; simpl in Hsuf;
      try reflexivity; try discriminate. injection Hsuf as -> ->. reflexivity.
  - cbv zeta. now rewrite Hs.
Qed.

(** X2, a concrete pair: two stop lists that differ below the fifth
    decimal share the key. *)
Lemma keyFor_separates_excludes_witness :
  "toll" = "toll"
  /\ Route.keyFor [mkPoint (32085301 # 1000000) (347818 # 10000)] ""
     = Route.keyFor [mkPoint (32085299 # 1000000) (347818 # 10000)] "".
Proof.
  apply (keyFor_separates_excludes
           [mkPoint (32085301 # 1000000) (347818 # 10000)]
           [mkPoint (32085299 # 1000000) (347818 # 10000)] "toll" "toll").
  vm_compute. reflexivity.
Defined.

(* ------------------------------------------------------------------ *)
(** ** routes/route.js: the outcomes of a dispatch *)

Section DispatchOutcomes.

Variable cfg : Route.config.

Local Abbreviation key_of req :=
  (Route.keyFor (Route.req_stops req) (Route.buildExcludeParam (Route.req_avoid req))).

(** The secondary provider is tried: avoidance wanted and a key set. *)
Definition wants_ors (req : Route.request) : Prop :=
  Route.wantsAvoid req = true /\ JS.truthy_str (Route.ORS_API_KEY cfg) = true.

Definition ors_call (req : Route.request) : Route.upstream_call :=
  Route.CallORS (Route.req_stops req) (Route.avoidFeatures (Route.req_avoid req)).

(** What precedes the OSRM block: nothing, or a failed ORS request. *)
Definition prelude (req : Route.request) (provider : string)
    (calls0 : list Route.upstream_call) : Prop :=
  (provider = "osrm" /\ calls0 = [] /\ ~ wants_ors req)
  \/ (provider = "osrm_fallback" /\ calls0 = [ors_call req] /\ wants_ors req).

Lemma callORS_throws_wants (req : Route.request) :
  Route.callORS_throws cfg req = true -> wants_ors req.
Proof.
  unfold Route.callORS_throws, wants_ors. rewrite !andb_true_iff. tauto.
Qed.

Lemma ors_stage_cases (w : Route.world) (req : Route.request) :
  (Route.callORS_throws cfg req = true /\ Route.ors_stage cfg w req = None)
  \/ (exists p, wants_ors req /\ Route.route_retry_relaxed p = false
                /\ Route.ors_stage cfg w req = Some ("ors", Some p, [ors_call req]))
  \/ (exists provider calls0,
        prelude req provider calls0
        /\ Route.ors_stage cfg w req = Some (provider, None, calls0)).
Proof.
  destruct (Route.callORS_throws cfg req) eqn:Ht.
  { left. split; [reflexivity | now apply ors_stage_None]. }
  right. revert Ht.
  unfold Route.ors_stage, Route.callORS_throws, prelude, wants_ors, ors_call,
    Route.req_avoid.
  destruct (Route.wantsAvoid req) eqn:Hw; simpl.
  2:{ intros _. right. exists "osrm", []. split; [left|reflexivity].
      repeat split. intros [H _]. discriminate. }
  destruct (JS.truthy_str (Route.ORS_API_KEY cfg)) eqn:Hk; simpl.
  2:{ intros _. right. exists "osrm", []. split; [left|reflexivity].
      repeat split. intros [_ H]. discriminate. }
  destruct (Route.req_constraints_avoid req) as [avoid|b]; [intros _|discriminate].
  destruct (Route.ors_ok _) eqn:Hok;
    [destruct (Route.ors_payload _) as [p|] eqn:Hp|].
  - left. exists p. repeat split. eapply callORS_not_relaxed; eauto.
  - right. eexists _, _. split; [right|reflexivity]. repeat split.
  - right. eexists _, _. split; [right|reflexivity]. repeat split.
Qed.

(** A dispatch ends in one of four ways: the exception of [callORS];
    the secondary provider's payload; a payload built from an OSRM
    route, from the first attempt or from the retry; a 502 that keeps
    the first failure. *)
Lemma dispatch_outcomes (w : Route.world) (tend : Z) (req : Route.request)
    (st1 : Route.state) :
  let exclude := Route.buildExcludeParam (Route.req_avoid req) in
  let first := Route.first_attempt cfg w req exclude in
  let one := [Route.CallOSRM (Route.urlWith req exclude)] in
  let two := [Route.CallOSRM (Route.urlWith req exclude);
              Route.CallOSRM (Route.urlNo req)] in
  (Route.callORS_throws cfg req = true
   /\ Route.dispatch cfg w tend req st1
      = (Route.Failure 500 "internal_error" "avoidArr.map is not a function",
         [], st1))
  \/ (exists p, wants_ors req /\ Route.route_retry_relaxed p = false
                /\ Route.callORS_throws cfg req = false
                /\ Route.dispatch cfg w tend req st1
                   = Route.respond_ok cfg tend (key_of req) "ors" p [ors_call req] st1)
  \/ (exists provider calls0 route label relaxed osrm,
        prelude req provider calls0
        /\ Route.callORS_throws cfg req = false
        /\ ((label = provider /\ relaxed = false /\ osrm = one)
            \/ (label = (if String.eqb provider "osrm_fallback"
                         then "osrm_fallback_relaxed" else "osrm_relaxed")
                /\ relaxed = JS.truthy_str exclude /\ osrm = two
                /\ Route.needs_retry first = true))
        /\ Route.dispatch cfg w tend req st1
           = Route.respond_ok cfg tend (key_of req) label
               (Route.payload_of_route route relaxed) (calls0 ++ osrm) st1)
  \/ (exists provider calls0 osrm,
        prelude req provider calls0
        /\ Route.callORS_throws cfg req = false
        /\ ((osrm = one /\ Route.needs_retry first = false)
            \/ (osrm = two /\ Route.needs_retry first = true
                /\ Route.usable (Route.second_attempt w req) = false))
        /\ Route.dispatch cfg w tend req st1
           = (Route.Failure 502 (Route.failure_code first)
                (Route.failure_message first),
              calls0 ++ osrm,
              Route.with_breaker st1
                (Route.breaker_after_failure tend first (Route.breakerUntil st1)))).
Proof.
  intros exclude first one two.
  destruct (ors_stage_cases w req)
    as [(Ht & Hors)|[(p & Hw & Hrel & Hors)|(provider & calls0 & Hpre & Hors)]].
  - left. split; [exact Ht | now apply dispatch_throws].
  - right. left. exists p.
    assert (Hno : Route.callORS_throws cfg req = false).
    { destruct (Route.callORS_throws cfg req) eqn:E; [|reflexivity].
      apply (ors_stage_None cfg w) in E. congruence. }
    repeat split; try apply Hw; try exact Hrel; try exact Hno.
    unfold Route.dispatch. now rewrite Hors.
  - right. right.
    assert (Hno : Route.callORS_throws cfg req = false).
    { destruct (Route.callORS_throws cfg req) eqn:E; [|reflexivity].
      apply (ors_stage_None cfg w) in E. congruence. }
    rewrite (dispatch_primary cfg w tend req st1 provider calls0 Hors).
    cbv zeta. fold exclude. fold first.
    destruct (Route.needs_retry first) eqn:Hretry.
    + destruct (Route.usable (Route.second_attempt w req)) eqn:Hus.
      * destruct (usable_route _ Hus) as (_ & route & rest & ->).
        left. exists provider, calls0, route. eexists _, _, two.
        split; [exact Hpre|]. split; [exact Hno|].
        split; [right; repeat split|reflexivity].
      * right. exists provider, calls0, two. split; [exact Hpre|].
        split; [exact Hno|]. split; [right; repeat split|reflexivity].
    + destruct (Route.has_routes first) eqn:Hhas.
      * unfold Route.has_routes in Hhas.
        destruct (Route.routes_of first) as [|route rest]; [discriminate|].
        left. exists provider, calls0, route. eexists _, _, one.
        split; [exact Hpre|]. split; [exact Hno|].
        split; [left; repeat split|reflexivity].
      * right. exists provider, calls0, one. split; [exact Hpre|].
        split; [exact Hno|]. split; [left; repeat split|reflexivity].
Qed.

End DispatchOutcomes.

Section HandlerFacts.

Variable cfg : Route.config.

Local Abbreviation key_of req :=
  (Route.keyFor (Route.req_stops req) (Route.buildExcludeParam (Route.req_avoid req))).
Local Abbreviation cached_for now req st :=
  (fst (Route.lru_get (Route.CACHE_TTL_MS cfg) now (key_of req) (Route.cache st))).

(** The request goes upstream: valid, no valid cache entry, breaker
    closed, and no exception on the way to the first provider. *)
Definition goes_upstream (now : Z) (req : Route.request) (st : Route.state) : Prop :=
  Route.routeSchema req = true /\ cached_for now req st = None
  /\ Route.breakerUntil st <= now /\ Route.callORS_throws cfg req = false.

Lemma route_handler_upstream (w : Route.world) (now tend : Z)
    (req : Route.request) (st : Route.state) :
  goes_upstream now req st ->
  Route.route_handler cfg w now tend req st
  = Route.dispatch cfg w tend req
      (Route.with_cache st
         (snd (Route.lru_get (Route.CACHE_TTL_MS cfg) now (key_of req)
                 (Route.cache st)))).
Proof.
  intros (Hv & Hc & Hb & _). rewrite (route_handler_valid cfg w now tend req st Hv).
  cbv zeta. rewrite Hc. destruct (now <? Route.breakerUntil st) eqn:E; [lia|].
  reflexivity.
Qed.

Lemma route_handler_not_upstream (w : Route.world) (now tend : Z)
    (req : Route.request) (st : Route.state) :
  ~ goes_upstream now req st ->
  snd (fst (Route.route_handler cfg w now tend req st)) = []
  /\ Route.breakerUntil (snd (Route.route_handler cfg w now tend req st))
     = Route.breakerUntil st
  /\ Route.provider_mix (snd (Route.route_handler cfg w now tend req st))
     = Route.provider_mix st
  /\ Route.route_relaxed_count (snd (Route.route_handler cfg w now tend req st))
     = Route.route_relaxed_count st.
Proof.
  intros Hno. destruct (Route.routeSchema req) eqn:Hv.
  2:{ unfold Route.route_handler. rewrite Hv. repeat split. }
  rewrite (route_handler_valid cfg w now tend req st Hv). cbv zeta.
  destruct (cached_for now req st) as [p|] eqn:Hc; [repeat split|].
  destruct (now <? Route.breakerUntil st) eqn:E; [repeat split|].
  destruct (Route.callORS_throws cfg req) eqn:Ht.
  - rewrite (dispatch_throws cfg w tend req _ Ht). repeat split.
  - exfalso. apply Hno. split; [exact Hv | split; [exact Hc | split; [lia|exact Ht]]].
Qed.

Lemma classic_goes_upstream (now : Z) (req : Route.request) (st : Route.state) :
  goes_upstream now req st \/ ~ goes_upstream now req st.
Proof.
  unfold goes_upstream.
  destruct (Route.routeSchema req); [|right; intros (H & _); discriminate].
  destruct (cached_for now req st); [right; intros (_ & H & _); discriminate|].
  destruct (Route.callORS_throws cfg req);
    [right; intros (_ & _ & _ & H); discriminate|].
  destruct (Z_le_gt_dec (Route.breakerUntil st) now);
    [left; repeat split; assumption | right; intros (_ & _ & H & _); lia].
Qed.

Lemma callORS_throws_iff (req : Route.request) :
  Route.callORS_throws cfg req = true <->
  Route.req_constraints_avoid req = Route.AvoidOther true
  /\ JS.truthy_str (Route.ORS_API_KEY cfg) = true.
Proof.
  unfold Route.callORS_throws, Route.wantsAvoid.
  destruct (Route.req_constraints_avoid req) as [avoid|[|]];
    destruct (JS.truthy_str (Route.ORS_API_KEY cfg)); simpl;
    rewrite ?andb_false_r; split; try discriminate; try tauto;
    intros [H _]; discriminate.
Qed.

Lemma wants_ors_array (req : Route.request) :
  wants_ors cfg req /\ Route.callORS_throws cfg req = false <->
  Route.req_avoid req <> [] /\ JS.truthy_str (Route.ORS_API_KEY cfg) = true.
Proof.
  unfold wants_ors, Route.callORS_throws, Route.wantsAvoid, Route.req_avoid.
  destruct (Route.req_constraints_avoid req) as [[|a avoid]|[|]];
    destruct (JS.truthy_str (Route.ORS_API_KEY cfg)); simpl;
    intuition discriminate.
Qed.

(** X3: the handler answers 400 exactly for a request that fails the
    schema, touching nothing; and it issues upstream requests exactly
    when the request is valid, has no valid cache entry, the breaker is
    closed and [callORS] does not throw. [callORS] throws exactly when
    [constraints.avoid] is a value of positive length that is no array,
    such as the string ['tolls'], and an ORS key is set; a valid request
    with no cache entry that meets a closed breaker is then answered
    500, with no upstream request. *)
Theorem route_handler_gatekeeping (w : Route.world) (now tend : Z)
    (req : Route.request) (st : Route.state) :
  let out := Route.route_handler cfg w now tend req st in
  (Route.routeSchema req = false ->
     out = (Route.Failure 400 "invalid_request" "", [], st))
  /\ ((exists code msg, fst (fst out) = Route.Failure 400 code msg) <->
      Route.routeSchema req = false)
  /\ (snd (fst out) <> [] <-> goes_upstream now req st)
  /\ (Route.routeSchema req = true -> cached_for now req st = None ->
      Route.breakerUntil st <= now -> Route.callORS_throws cfg req = true ->
      fst out
      = (Route.Failure 500 "internal_error" "avoidArr.map is not a function", [])
      /\ Route.breakerUntil (snd out) = Route.breakerUntil st)
  /\ (Route.callORS_throws cfg req = true <->
      Route.req_constraints_avoid req = Route.AvoidOther true
      /\ JS.truthy_str (Route.ORS_API_KEY cfg) = true).
Proof.
  intros out. subst out.
  assert (Hinv : Route.routeSchema req = false ->
                 Route.route_handler cfg w now tend req st
                 = (Route.Failure 400 "invalid_request" "", [], st)).
  { intros Hv. unfold Route.route_handler. now rewrite Hv. }
  split; [exact Hinv|]. split; [|split; [|split; [|apply callORS_throws_iff]]].
  - split; [|intros Hv; rewrite (Hinv Hv); simpl; eauto].
    intros (code0 & msg & H). destruct (Route.routeSchema req) eqn:Hv; [|reflexivity].
    exfalso. clear Hinv. revert H.
    rewrite (route_handler_valid cfg w now tend req st Hv). cbv zeta.
    destruct (cached_for now req st); [discriminate|].
    destruct (now <? Route.breakerUntil st); [discriminate|].
    destruct (dispatch_outcomes cfg w tend req
                (Route.with_cache st (snd (Route.lru_get (Route.CACHE_TTL_MS cfg)
                                             now (key_of req) (Route.cache st)))))
      as [(_ & ->)|[(p & _ & _ & _ & ->)
                   |[(pr & c0 & rt & lb & rl & os & _ & _ & _ & ->)
                    |(pr & c0 & os & _ & _ & _ & ->)]]]; discriminate.
  - split.
    + intros Hcalls. destruct (Route.routeSchema req) eqn:Hv.
      2:{ rewrite (Hinv eq_refl) in Hcalls. now destruct Hcalls. }
      revert Hcalls. rewrite (route_handler_valid cfg w now tend req st Hv).
      cbv zeta.
      destruct (cached_for now req st) eqn:Hc; [intros H; now destruct H|].
      destruct (now <? Route.breakerUntil st) eqn:E; [intros H; now destruct H|].
      intros Hne. split; [exact Hv | split; [exact Hc | split; [lia|]]].
      now apply dispatch_calls in Hne.
    + intros Hup. rewrite (route_handler_upstream w now tend req st Hup).
      apply dispatch_calls. apply Hup.
  - intros Hv Hc Hb Ht. rewrite (route_handler_valid cfg w now tend req st Hv).
    cbv zeta. rewrite Hc. destruct (now <? Route.breakerUntil st) eqn:E; [lia|].
    rewrite (dispatch_throws cfg w tend req _ Ht). split; reflexivity.
Qed.

(** X4: the secondary provider is contacted exactly when the request
    goes on to the providers with a non-empty array of avoid terms and
    a configured key; its request then comes first. When it succeeds
    its payload is the answer and the primary provider is not contacted
    at all. An [avoid] that is no array never reaches the secondary
    provider. *)
Theorem route_secondary_provider (w : Route.world) (now tend : Z)
    (req : Route.request) (st : Route.state) :
  let out := Route.route_handler cfg w now tend req st in
  let with_terms :=
    Route.req_avoid req <> [] /\ JS.truthy_str (Route.ORS_API_KEY cfg) = true in
  ((exists coords feats, In (Route.CallORS coords feats) (snd (fst out))) <->
   goes_upstream now req st /\ with_terms)
  /\ (goes_upstream now req st -> with_terms ->
      hd_error (snd (fst out)) = Some (ors_call req))
  /\ (goes_upstream now req st ->
      forall provider p calls0,
        Route.ors_stage cfg w req = Some (provider, Some p, calls0) ->
        fst out = (Route.Json p, [ors_call req]))
  /\ (forall b, Route.req_constraints_avoid req = Route.AvoidOther b ->
      forall coords feats, ~ In (Route.CallORS coords feats) (snd (fst out))).
Proof.
  intros out with_terms. subst out with_terms.
  rewrite <- wants_ors_array.
  destruct (classic_goes_upstream now req st) as [Hup|Hno].
  2:{ destruct (route_handler_not_upstream w now tend req st Hno) as (Hc & _).
      rewrite Hc. split; [|split; [|split]]; try tauto.
      split; [intros (c & f & []) | tauto]. }
  rewrite (route_handler_upstream w now tend req st Hup).
  set (st1 := Route.with_cache st _).
  pose proof (dispatch_outcomes cfg w tend req st1) as Hout. cbv zeta in Hout.
  split; [|split; [|split]].
  - destruct Hout as [(Ht & ->)|[(p & Hw & _ & Hno & ->)
                     |[(pr & c0 & rt & lb & rl & os & Hpre & Hno & Hos & ->)
                      |(pr & c0 & os & Hpre & Hno & Hos & ->)]]]; simpl.
    + split; [intros (c & f & []) | intros (_ & _ & H); congruence].
    + split; [tauto|]. intros _. eexists _, _. left. reflexivity.
    + split.
      * intros (c & f & Hin). split; [exact Hup|]. split; [|exact Hno].
        destruct Hpre as [(_ & -> & _)|(_ & _ & Hw)]; [|exact Hw].
        exfalso. simpl in Hin.
        destruct Hos as [(_ & _ & ->)|(_ & _ & -> & _)]; simpl in Hin;
          intuition discriminate.
      * intros (_ & Hw & _). destruct Hpre as [(_ & _ & Hn)|(_ & -> & _)]; [tauto|].
        eexists _, _. left. reflexivity.
    + split.
      * intros (c & f & Hin). split; [exact Hup|]. split; [|exact Hno].
        destruct Hpre as [(_ & -> & _)|(_ & _ & Hw)]; [|exact Hw].
        exfalso. simpl in Hin.
        destruct Hos as [(-> & _)|(-> & _)]; simpl in Hin; intuition discriminate.
      * intros (_ & Hw & _). destruct Hpre as [(_ & _ & Hn)|(_ & -> & _)]; [tauto|].
        eexists _, _. left. reflexivity.
  - intros _ (Hw & Hno').
    destruct Hout as [(Ht & _)|[(p & _ & _ & _ & ->)
                     |[(pr & c0 & rt & lb & rl & os & Hpre & _ & _ & ->)
                      |(pr & c0 & os & Hpre & _ & _ & ->)]]]; simpl;
      try congruence; try reflexivity;
      (destruct Hpre as [(_ & _ & Hn)|(_ & -> & _)]; [tauto | reflexivity]).
  - intros _ provider p calls0 Hp. unfold Route.dispatch.
    destruct (ors_stage_cases cfg w req)
      as [(_ & Hors)|[(p' & _ & _ & Hors)|(pr & c0 & _ & Hors)]];
      rewrite Hors in Hp |- *; try discriminate.
    injection Hp as _ -> _. reflexivity.
  - intros b Hb coords feats Hin.
    assert (Hnil : Route.req_avoid req = []).
    { unfold Route.req_avoid. now rewrite Hb. }
    destruct Hout as [(Ht & Hd)|[(p & Hw & _ & Hno & Hd)
                     |[(pr & c0 & rt & lb & rl & os & Hpre & Hno & Hos & Hd)
                      |(pr & c0 & os & Hpre & Hno & Hos & Hd)]]];
      rewrite Hd in Hin; simpl in Hin.
    + exact Hin.
    + pose proof (proj1 (wants_ors_array req) (conj Hw Hno)) as [Hne _].
      congruence.
    + destruct Hpre as [(_ & -> & _)|(_ & _ & Hw)].
      * destruct Hos as [(_ & _ & ->)|(_ & _ & -> & _)]; simpl in Hin;
          intuition discriminate.
      * pose proof (proj1 (wants_ors_array req) (conj Hw Hno)) as [Hne _].
        congruence.
    + destruct Hpre as [(_ & -> & _)|(_ & _ & Hw)].
      * destruct Hos as [(-> & _)|(-> & _)]; simpl in Hin; intuition discriminate.
      * pose proof (proj1 (wants_ors_array req) (conj Hw Hno)) as [Hne _].
        congruence.
Qed.

End HandlerFacts.

Section BreakerAndCounters.

Variable cfg : Route.config.

(** A dispatch leaves the deadline alone, or fails with a 502 and
    assigns a deadline that does not depend on the one in place. *)
Lemma dispatch_breaker (w : Route.world) (tend : Z) (req : Route.request)
    (st1 : Route.state) :
  Route.breakerUntil (snd (Route.dispatch cfg w tend req st1))
  = Route.breakerUntil st1
  \/ ((exists code msg,
         fst (fst (Route.dispatch cfg w tend req st1)) = Route.Failure 502 code msg)
      /\ exists d, (d = 60000 \/ d = 30000)
                   /\ forall st2,
                        Route.breakerUntil (snd (Route.dispatch cfg w tend req st2))
                        = tend + d).
Proof.
  unfold Route.dispatch.
  destruct (Route.ors_stage cfg w req) as [[[provider [p0|]] calls0]|];
    try (left; reflexivity).
  destruct (Route.osrm_stage cfg w req _ provider) as [[[f r] pv] c1].
  destruct (Route.no_valid_route f);
    [|destruct (Route.routes_of f); left; reflexivity].
  cbn [fst snd Route.breakerUntil Route.with_breaker].
  unfold Route.breaker_after_failure.
  destruct (_ && _); [right; split; [eauto | exists 60000; auto]|].
  destruct (JS.truthy_ostr _); [right; split; [eauto | exists 30000; auto]|].
  now left.
Qed.

(** X5: a request moves the breaker deadline only when it settles with
    a 502 answer, and then to 60 s or 30 s after that moment. The new
    deadline is assigned whatever deadline is in place, and is not
    compared with it: a request that had arrived before another one
    opened the breaker can settle later and move the deadline to an
    earlier time. The answer and the upstream requests of a request do
    not depend on the state it settles on. When no other request is
    handled between the arrival and the end of a request, and the clock
    does not run backwards, the deadline never moves to an earlier
    time. *)
Theorem route_breaker_transitions (w : Route.world) (now tend : Z)
    (req : Route.request) (st settled other : Route.state) :
  let late := Route.dispatch cfg w tend req settled in
  let out := Route.route_handler cfg w now tend req st in
  fst late = fst (Route.dispatch cfg w tend req other)
  /\ (Route.breakerUntil (snd late) <> Route.breakerUntil settled ->
      (exists code msg, fst (fst late) = Route.Failure 502 code msg)
      /\ (Route.breakerUntil (snd late) = tend + 60000
          \/ Route.breakerUntil (snd late) = tend + 30000)
      /\ Route.breakerUntil (snd (Route.dispatch cfg w tend req other))
         = Route.breakerUntil (snd late))
  /\ (Route.breakerUntil (snd out) <> Route.breakerUntil st ->
      (exists code msg, fst (fst out) = Route.Failure 502 code msg)
      /\ (Route.breakerUntil (snd out) = tend + 60000
          \/ Route.breakerUntil (snd out) = tend + 30000))
  /\ (now <= tend -> Route.breakerUntil st <= Route.breakerUntil (snd out)).
Proof.
  intros late out. subst late out.
  split; [apply (dispatch_state_free cfg)|]. split.
  { destruct (dispatch_breaker w tend req settled)
      as [->|(H502 & d & Hd & Hall)]; [intros H; now destruct H|].
    intros _. split; [exact H502|]. rewrite !Hall.
    split; [destruct Hd as [-> | ->]; auto | reflexivity]. }
  destruct (classic_goes_upstream cfg now req st) as [Hup|Hno].
  2:{ destruct (route_handler_not_upstream cfg w now tend req st Hno) as (_ & -> & _).
      split; [intros H; now destruct H | lia]. }
  rewrite (route_handler_upstream cfg w now tend req st Hup).
  destruct Hup as (_ & _ & Hclosed).
  set (st1 := Route.with_cache st _).
  assert (Hst1 : Route.breakerUntil st1 = Route.breakerUntil st) by reflexivity.
  destruct (dispatch_breaker w tend req st1) as [->|(H502 & d & Hd & Hall)].
  - rewrite Hst1. split; [intros H; now destruct H | lia].
  - rewrite Hall. split; [|destruct Hd as [-> | ->]; lia].
    intros _. split; [exact H502 | destruct Hd as [-> | ->]; auto].
Qed.

(** Two requests in flight together: both arrive while the breaker is
    closed; the second settles at clock 100 on a 503 of the provider
    and opens the breaker until 60100; the first settles at clock 24000
    on a timeout and moves the deadline back to 54000. *)
Example route_breaker_in_flight_example :
  Route.breakerUntil
    (Route.interleave RouteExample.cfg
       [Route.Arrive 0 RouteExample.plain; Route.Arrive 50 RouteExample.noTolls;
        Route.Settle RouteExample.down 100 RouteExample.noTolls]
       Route.initial_state) = 60100
  /\ Route.breakerUntil
       (Route.interleave RouteExample.cfg
          [Route.Arrive 0 RouteExample.plain; Route.Arrive 50 RouteExample.noTolls;
           Route.Settle RouteExample.down 100 RouteExample.noTolls;
           Route.Settle RouteExample.timing_out 24000 RouteExample.plain]
          Route.initial_state) = 54000.
Proof. split; vm_compute; reflexivity. Qed.

(** The number of requests counted under a provider label. *)
Definition mix_count (name : string) (st : Route.state) : nat :=
  default O (Route.provider_mix st !! name).

Definition provider_labels : list string :=
  ["ors"; "osrm"; "osrm_fallback"; "osrm_relaxed"; "osrm_fallback_relaxed"].

Lemma prelude_label (req : Route.request) (provider : string)
    (calls0 : list Route.upstream_call) :
  prelude cfg req provider calls0 ->
  provider = "osrm" \/ provider = "osrm_fallback".
Proof. intros [(-> & _)|(-> & _)]; [now left | now right]. Qed.

(** What one request does to the counters. *)
Lemma counters_step (w : Route.world) (now tend : Z) (req : Route.request)
    (st : Route.state) :
  let out := Route.route_handler cfg w now tend req st in
  (Route.provider_mix (snd out) = Route.provider_mix st
   /\ Route.route_relaxed_count (snd out) = Route.route_relaxed_count st
   /\ (snd (fst out) = [] \/ exists code msg, fst (fst out) = Route.Failure 502 code msg))
  \/ (exists p label,
        fst (fst out) = Route.Json p /\ snd (fst out) <> []
        /\ In label provider_labels
        /\ Route.provider_mix (snd out)
           = <[label := S (mix_count label st)]> (Route.provider_mix st)
        /\ Route.route_relaxed_count (snd out)
           = (if Route.route_retry_relaxed p then S (Route.route_relaxed_count st)
              else Route.route_relaxed_count st)
        /\ (Route.route_retry_relaxed p = true ->
            label = "osrm_relaxed" \/ label = "osrm_fallback_relaxed")).
Proof.
  intros out. subst out.
  destruct (classic_goes_upstream cfg now req st) as [Hup|Hno].
  2:{ destruct (route_handler_not_upstream cfg w now tend req st Hno)
        as (Hc & _ & Hm & Hr). left. repeat split; auto. }
  rewrite (route_handler_upstream cfg w now tend req st Hup).
  set (st1 := Route.with_cache st _).
  destruct (dispatch_outcomes cfg w tend req st1)
    as [(_ & ->)|[(p & _ & Hrel & _ & ->)
                 |[(pr & c0 & rt & lb & rl & os & Hpre & _ & Hos & ->)
                  |(pr & c0 & os & _ & _ & _ & ->)]]].
  - left. repeat split. now left.
  - right. exists p, "ors".
    cbn [fst snd Route.respond_ok Route.provider_mix Route.route_relaxed_count
         Route.with_cache st1].
    split; [reflexivity|]. split; [discriminate|].
    split; [simpl; tauto|]. split; [reflexivity|]. split; [reflexivity|].
    rewrite Hrel. discriminate.
  - right. exists (Route.payload_of_route rt rl), lb.
    cbn [fst snd Route.respond_ok Route.provider_mix Route.route_relaxed_count
         Route.with_cache st1].
    split; [reflexivity|].
    split.
    { destruct Hos as [(_ & _ & ->)|(_ & _ & -> & _)]; destruct c0; discriminate. }
    pose proof (prelude_label req pr c0 Hpre) as Hpr.
    assert (Hlb : In lb provider_labels
                  /\ (rl = true -> lb = "osrm_relaxed" \/ lb = "osrm_fallback_relaxed")).
    { destruct Hos as [(-> & -> & _)|(-> & _)].
      - split; [|discriminate]. destruct Hpr as [->| ->]; simpl; tauto.
      - destruct Hpr as [->| ->]; simpl; tauto. }
    destruct Hlb as [Hin Hrl]. split; [exact Hin|].
    split.
    { unfold Route.incrProvider, mix_count.
      replace (JS.truthy_str lb) with true; [reflexivity|].
      simpl in Hin. decompose [or] Hin; subst; try reflexivity; contradiction. }
    split; [reflexivity | exact Hrl].
  - left. cbn [fst snd Route.provider_mix Route.route_relaxed_count
               Route.with_breaker Route.with_cache st1].
    repeat split. right. eauto.
Qed.

(** X6: a request answered from the cache, rejected, refused by the
    breaker or failed with 502 leaves both counters as they were; a
    request answered with a computed route adds one to exactly one
    provider label, and one to the relaxed counter exactly when the
    payload is flagged relaxed, which happens only under a relaxed
    label. *)
Theorem route_counters_per_request (w : Route.world) (now tend : Z)
    (req : Route.request) (st : Route.state) :
  let out := Route.route_handler cfg w now tend req st in
  ((snd (fst out) = [] \/ exists code msg, fst (fst out) = Route.Failure 502 code msg) ->
     Route.provider_mix (snd out) = Route.provider_mix st
     /\ Route.route_relaxed_count (snd out) = Route.route_relaxed_count st)
  /\ (forall p, fst (fst out) = Route.Json p -> snd (fst out) <> [] ->
        exists label,
          In label provider_labels
          /\ mix_count label (snd out) = S (mix_count label st)
          /\ (forall other, other <> label ->
                mix_count other (snd out) = mix_count other st)
          /\ Route.route_relaxed_count (snd out)
             = (if Route.route_retry_relaxed p then S (Route.route_relaxed_count st)
                else Route.route_relaxed_count st)
          /\ (Route.route_retry_relaxed p = true ->
              label = "osrm_relaxed" \/ label = "osrm_fallback_relaxed")).
Proof.
  intros out. subst out.
  destruct (counters_step w now tend req st)
    as [(Hm & Hr & _)|(p & label & Hj & Hc & Hin & Hm & Hr & Hl)].
  - split; [auto|]. intros p Hj Hc.
    destruct (counters_step w now tend req st)
      as [(_ & _ & [H|(c & m & H)])|(p' & label & Hj' & Hc' & Hin & Hm' & Hr' & Hl)].
    + contradiction.
    + rewrite H in Hj. discriminate.
    + rewrite Hj' in Hj. injection Hj as ->. exists label.
      unfold mix_count. rewrite Hm'. repeat split; auto.
      * now rewrite lookup_insert_eq.
      * intros other Hne. now rewrite lookup_insert_ne.
  - split.
    + intros [H|(c & m & H)]; [contradiction | rewrite H in Hj; discriminate].
    + intros p' Hj' _. rewrite Hj in Hj'. injection Hj' as <-. exists label.
      unfold mix_count. rewrite Hm. repeat split; auto.
      * now rewrite lookup_insert_eq.
      * intros other Hne. now rewrite lookup_insert_ne.
Qed.

(** The relaxed counter is covered by the two relaxed labels. *)
Definition relaxed_covered (st : Route.state) : Prop :=
  (Route.route_relaxed_count st
   <= mix_count "osrm_relaxed" st + mix_count "osrm_fallback_relaxed" st)%nat.

Lemma lookup_incremented (m : gmap string nat) (label name : string) (n : nat) :
  default O (<[label := n]> m !! name)
  = if String.eqb label name then n else default O (m !! name).
Proof.
  rewrite lookup_insert.
  destruct (String.eqb_spec label name), (decide (label = name));
    try contradiction; reflexivity.
Qed.

Lemma relaxed_covered_step (w : Route.world) (now tend : Z) (req : Route.request)
    (st : Route.state) :
  relaxed_covered st ->
  relaxed_covered (snd (Route.route_handler cfg w now tend req st)).
Proof.
  unfold relaxed_covered, mix_count. intros Hinv.
  destruct (counters_step w now tend req st)
    as [(Hm & Hr & _)|(p & label & _ & _ & _ & Hm & Hr & Hl)];
    rewrite Hm, Hr; [exact Hinv|].
  rewrite !lookup_incremented. unfold mix_count.
  destruct (Route.route_retry_relaxed p).
  - destruct (Hl eq_refl) as [->| ->]; simpl; lia.
  - destruct (String.eqb_spec label "osrm_relaxed") as [E1|_];
      destruct (String.eqb_spec label "osrm_fallback_relaxed") as [E2|_];
      try congruence; subst; lia.
Qed.

(** X7: over any sequence of requests from a fresh server, the relaxed
    counter never exceeds the number of routes counted under the labels
    osrm_relaxed and osrm_fallback_relaxed. *)
Theorem route_relaxed_counter_covered (evs : list Route.event) :
  let st := Route.run cfg evs in
  (Route.route_relaxed_count st
   <= mix_count "osrm_relaxed" st + mix_count "osrm_fallback_relaxed" st)%nat.
Proof.
  cbv zeta. change (relaxed_covered (Route.run cfg evs)). unfold Route.run.
  assert (H0 : relaxed_covered Route.initial_state)
    by (unfold relaxed_covered, mix_count; simpl; lia).
  revert H0. generalize Route.initial_state.
  induction evs as [|e evs IH]; intros st Hst; simpl; [exact Hst|].
  apply IH. unfold Route.step. now apply relaxed_covered_step.
Qed.

End BreakerAndCounters.

Section TravelMatrixFacts.

Variable Date_parse : string -> option Z.

Local Abbreviation cacheKey := (MatrixCache.cacheKey Date_parse).
Local Abbreviation timeBucket := (MatrixCache.timeBucket Date_parse).
Local Abbreviation getMatrixCache := (MatrixCache.getMatrixCache Date_parse).
Local Abbreviation getTravelMatrix := (MatrixCache.getTravelMatrix Date_parse).

(** The store holds an entry for the key that is at most 60 s old. *)
Definition fresh_entry (store : gmap string MatrixCache.entry) (key : string)
    (now : Z) : Prop :=
  exists ent, store !! key = Some ent /\ now - MatrixCache.t ent <= 60000.

Lemma getTravelMatrix_hit (provider : list point -> string -> matrix_reply)
    (store : gmap string MatrixCache.entry) (now tset : Z)
    (points : list point) (mode : string) (iso : option string)
    (ent : MatrixCache.entry) :
  store !! cacheKey mode points iso now = Some ent ->
  now - MatrixCache.t ent <= 60000 ->
  getTravelMatrix provider store now tset points mode iso
  = (inl (MatrixCache.v ent), O, store).
Proof.
  intros Hk Hage. unfold MatrixCache.getTravelMatrix.
  now rewrite (getMatrixCache_fresh Date_parse _ _ _ _ _ _ Hk Hage).
Qed.

Lemma getTravelMatrix_miss (provider : list point -> string -> matrix_reply)
    (store : gmap string MatrixCache.entry) (now tset : Z)
    (points : list point) (mode : string) (iso : option string) :
  ~ fresh_entry store (cacheKey mode points iso now) now ->
  getTravelMatrix provider store now tset points mode iso
  = match provider points mode with
    | MatrixFail e =>
        (inr e, 1%nat, delete (cacheKey mode points iso now) store)
    | MatrixOk res =>
        (inl res, 1%nat,
         <[cacheKey mode points iso now := MatrixCache.mkEntry tset res]> store)
    end.
Proof.
  intros Hno. unfold MatrixCache.getTravelMatrix, MatrixCache.getMatrixCache,
    MatrixCache.setMatrixCache.
  destruct (store !! cacheKey mode points iso now) as [ent|] eqn:Hk.
  - destruct (60000 <? now - MatrixCache.t ent) eqn:E.
    + cbn [MatrixCache.hit MatrixCache.key].
      destruct (provider points mode); [|reflexivity].
      now rewrite insert_delete_eq.
    + exfalso. apply Hno. exists ent. split; [exact Hk | lia].
  - cbn [MatrixCache.hit MatrixCache.key].
    destruct (provider points mode); [reflexivity|].
    now rewrite delete_id.
Qed.

Lemma fresh_entry_dec (store : gmap string MatrixCache.entry) (key : string)
    (now : Z) :
  fresh_entry store key now \/ ~ fresh_entry store key now.
Proof.
  unfold fresh_entry. destruct (store !! key) as [ent|] eqn:Hk.
  - destruct (Z_le_gt_dec (now - MatrixCache.t ent) 60000).
    + left. eauto.
    + right. intros (e & [= <-] & H). lia.
  - right. intros (e & H & _). discriminate.
Qed.

(** X8: [getTravelMatrix] is cache first. It asks the provider at most
    once, and not at all exactly when the store holds an entry for the
    key that is at most 60 s old, which it then returns untouched.
    Otherwise a provider success is returned and stored under the key
    with the time of the store, and a provider failure is thrown and
    leaves no entry under the key. *)
Theorem getTravelMatrix_cache_first (provider : list point -> string -> matrix_reply)
    (store : gmap string MatrixCache.entry) (now tset : Z)
    (points : list point) (mode : string) (iso : option string) :
  let key := cacheKey mode points iso now in
  let out := getTravelMatrix provider store now tset points mode iso in
  (snd (fst out) <= 1)%nat
  /\ (snd (fst out) = O <-> fresh_entry store key now)
  /\ (forall ent, store !! key = Some ent -> now - MatrixCache.t ent <= 60000 ->
        out = (inl (MatrixCache.v ent), O, store))
  /\ (forall res, ~ fresh_entry store key now -> provider points mode = MatrixOk res ->
        fst (fst out) = inl res
        /\ snd out !! key = Some (MatrixCache.mkEntry tset res)
        /\ (forall k, k <> key -> snd out !! k = store !! k))
  /\ (forall e, ~ fresh_entry store key now -> provider points mode = MatrixFail e ->
        fst (fst out) = inr e
        /\ snd out !! key = None
        /\ (forall k, k <> key -> snd out !! k = store !! k)).
Proof.
  intros key out. subst out key.
  destruct (fresh_entry_dec store (cacheKey mode points iso now) now)
    as [(ent & Hk & Hage)|Hno].
  - rewrite (getTravelMatrix_hit provider _ _ tset _ _ _ _ Hk Hage). simpl.
    split; [lia|]. split; [split; [intros _; exists ent; auto | reflexivity]|].
    split; [intros ent' Hk' _; rewrite Hk in Hk'; now injection Hk' as <-|].
    split; intros x Hno; exfalso; apply Hno; exists ent; auto.
  - rewrite (getTravelMatrix_miss provider _ _ tset _ _ _ Hno).
    split; [destruct (provider points mode); simpl; lia|].
    split; [split; [destruct (provider points mode); discriminate | tauto]|].
    split; [intros ent Hk Hage; exfalso; apply Hno; exists ent; auto|].
    split.
    + intros res _ ->. cbn [fst snd]. split; [reflexivity|].
      split; [apply lookup_insert_eq | intros k Hne; now apply lookup_insert_ne].
    + intros e _ ->. cbn [fst snd]. split; [reflexivity|].
      split; [apply lookup_delete_eq | intros k Hne; now apply lookup_delete_ne].
Qed.


End TravelMatrixFacts.


Section IntermediateStops.

Variable cfg : Route.config.

Lemma ors_stage_not_wanted (w : Route.world) (req : Route.request) :
  ~ wants_ors cfg req -> Route.ors_stage cfg w req = Some ("osrm", None, []).
Proof.
  intros Hno.
  destruct (ors_stage_cases cfg w req)
    as [(Ht & _)|[(p & Hw & _)|(pr & c0 & [(-> & -> & _)|(_ & _ & Hw)] & ->)]];
    [|contradiction | reflexivity | contradiction].
  now apply callORS_throws_wants in Ht.
Qed.

Lemma wants_ors_same_terms (now : Z) (req req' : Route.request) (st : Route.state) :
  Route.req_avoid req = Route.req_avoid req' ->
  ~ wants_ors cfg req -> goes_upstream cfg now req' st -> ~ wants_ors cfg req'.
Proof.
  intros Havoid Hno (_ & _ & _ & Ht') Hw'.
  pose proof (proj1 (wants_ors_array cfg req') (conj Hw' Ht')) as [Hne Hk].
  apply Hno. apply (wants_ors_array cfg req). split; [congruence | exact Hk].
Qed.

(** X10: the primary provider is asked for a route between the first
    and the last stop only. Two requests that agree on these two stops,
    on the avoid list and on the test flag, and that go upstream without
    the secondary provider, get the same answer from the same upstream
    requests, whatever their intermediate stops are. *)
Theorem route_ignores_intermediate_stops (w : Route.world) (now tend : Z)
    (req req' : Route.request) (st : Route.state) :
  nth_error (Route.req_stops req) 0 = nth_error (Route.req_stops req') 0 ->
  nth_error (Route.req_stops req) (length (Route.req_stops req) - 1)
  = nth_error (Route.req_stops req') (length (Route.req_stops req') - 1) ->
  Route.req_avoid req = Route.req_avoid req' ->
  Route.req_testForceRelax req = Route.req_testForceRelax req' ->
  ~ wants_ors cfg req ->
  goes_upstream cfg now req st -> goes_upstream cfg now req' st ->
  fst (Route.route_handler cfg w now tend req st)
  = fst (Route.route_handler cfg w now tend req' st).
Proof.
  intros Hfirst Hlast Havoid Hflag Hno Hup Hup'.
  pose proof (wants_ors_same_terms now req req' st Havoid Hno Hup') as Hno'.
  rewrite (route_handler_upstream cfg w now tend req st Hup),
    (route_handler_upstream cfg w now tend req' st Hup').
  rewrite (dispatch_primary cfg w tend req _ _ _ (ors_stage_not_wanted w req Hno)),
    (dispatch_primary cfg w tend req' _ _ _ (ors_stage_not_wanted w req' Hno')).
  cbv zeta.
  assert (Hurl : forall ex, Route.urlWith req' ex = Route.urlWith req ex)
    by (intros ex; unfold Route.urlWith; cbv zeta; now rewrite Hfirst, Hlast).
  assert (H1 : forall ex, Route.first_attempt cfg w req' ex
                          = Route.first_attempt cfg w req ex)
    by (intros ex; unfold Route.first_attempt; now rewrite Hurl, Hflag).
  assert (H2 : Route.second_attempt w req' = Route.second_attempt w req)
    by (unfold Route.second_attempt, Route.urlNo; now rewrite Hurl).
  unfold Route.urlNo. rewrite <- Havoid, H1, H2, !Hurl.
  destruct (Route.needs_retry _).
  - destruct (Route.usable _); [|reflexivity].
    destruct (Route.routes_of _); reflexivity.
  - destruct (Route.has_routes _); [|reflexivity].
    destruct (Route.routes_of _); reflexivity.
Qed.

End IntermediateStops.

(** X10, a concrete run: a detour over Haifa does not change the
    answer. *)
Lemma route_ignores_intermediate_stops_witness :
  let haifa := mkPoint (327940 # 10000) (349896 # 10000) in
  let detour := Route.mkRequest [RouteExample.telAviv; haifa; RouteExample.herzliya]
                  (Some "drive") (Route.AvoidArray []) false in
  fst (Route.route_handler RouteExample.cfg RouteExample.serving 0 1
         RouteExample.plain Route.initial_state)
  = fst (Route.route_handler RouteExample.cfg RouteExample.serving 0 1
           detour Route.initial_state).
Proof.
  intros haifa detour.
  apply (route_ignores_intermediate_stops RouteExample.cfg RouteExample.serving
           0 1 RouteExample.plain detour Route.initial_state);
    try reflexivity.
  - intros [H _]. discriminate H.
  - repeat split. simpl. lia.
  - repeat split. simpl. lia.
Defined.

(* ------------------------------------------------------------------ *)
(** ** Search along route: sampling and results *)

Section SampleFacts.

Lemma filter_seq_sorted (f : nat -> bool) (s k : nat) :
  StronglySorted lt (List.filter f (seq s k)).
Proof.
  pose proof (seq_sorted s k) as Hs. induction Hs as [|a l Hs IH Hall]; simpl.
  - constructor.
  - destruct (f a); [|exact IH]. constructor; [exact IH|].
    apply List.Forall_forall. intros x Hx. apply List.filter_In in Hx as [Hx _].
    rewrite List.Forall_forall in Hall. now apply Hall.
Qed.

(** The multiples of [step] below [len] number [ceil (len / step)]. *)
Lemma multiples_count (step len : nat) :
  (1 <= step)%nat ->
  let c := length (List.filter (fun i => (i mod step =? 0)%nat) (seq 0 len)) in
  (len <= c * step /\ c * step < len + step)%nat.
Proof.
  intros Hstep. induction len as [|n IH]; cbv zeta in *.
  - simpl. lia.
  - rewrite seq_S, List.filter_app, length_app. simpl List.filter.
    set (c := length _) in *. clearbody c.
    destruct (Nat.eqb_spec (n mod step) 0) as [E|E]; simpl length.
    + apply Nat.Div0.mod_divides in E as (q & ->).
      assert (c = q) by nia. subst c. nia.
    + assert (n <> c * step)%nat.
      { intros ->. apply E. apply Nat.Div0.mod_mul. }
      nia.
Qed.

Lemma sample_count (len : nat) :
  (length (List.filter (fun i => (i mod Nat.max 1 (len / 20) =? 0)%nat) (seq 0 len))
   <= 39)%nat.
Proof.
  set (step := Nat.max 1 (len / 20)).
  assert (Hstep : (1 <= step)%nat) by (unfold step; lia).
  pose proof (multiples_count step len Hstep) as [H1 H2]. cbv zeta in *.
  set (c := length _) in *. clearbody c.
  assert (Hq : (len < 20 * (len / 20) + 20)%nat).
  { pose proof (Nat.div_mod_eq len 20). pose proof (Nat.mod_upper_bound len 20). lia. }
  destruct (Nat.le_gt_cases (len / 20) 1) as [Hs|Hs].
  - assert (step = 1)%nat by (unfold step; lia). nia.
  - assert (step = len / 20)%nat by (unfold step; lia). nia.
Qed.

Lemma sorted_le_last (l : list nat) (x : nat) :
  StronglySorted lt l -> In x l -> (x <= List.last l O)%nat.
Proof.
  intros Hs. revert x. induction Hs as [|a l Hs IH Hall]; intros x; [intros []|].
  intros [<-|Hx].
  - destruct l as [|b l']; [simpl; lia|].
    change (List.last (a :: b :: l') O) with (List.last (b :: l') O).
    inversion Hall as [|? ? Hab _]; subst.
    specialize (IH b (or_introl eq_refl)). lia.
  - destruct l as [|b l']; [destruct Hx|].
    change (List.last (a :: b :: l') O) with (List.last (b :: l') O).
    now apply IH.
Qed.

Lemma last_In {A : Type} (l : list A) (d : A) : l <> [] -> In (List.last l d) l.
Proof.
  induction l as [|a l IH]; [congruence|]. intros _.
  destruct l as [|b l']; [now left|]. right.
  change (List.last (a :: b :: l') d) with (List.last (b :: l') d).
  now apply IH.
Qed.

Lemma sorted_snoc (l : list nat) (x : nat) :
  StronglySorted lt l -> (forall i, In i l -> (i < x)%nat) ->
  StronglySorted lt (l ++ [x]).
Proof.
  induction 1 as [|a l Hs IH Hall]; intros Hlt; simpl.
  - repeat constructor.
  - constructor; [apply IH; intros i Hi; apply Hlt; now right|].
    apply Forall_app. split; [exact Hall|].
    constructor; [apply Hlt; now left | constructor].
Qed.

(** The sampled indices of a non-empty route: strictly increasing, below
    [len], from 0 to [len - 1], at most 40 of them. *)
Lemma sample_indices_spec (len : nat) :
  (1 <= len)%nat ->
  StronglySorted lt (Sar.sample_indices len)
  /\ Forall (fun i => (i < len)%nat) (Sar.sample_indices len)
  /\ hd_error (Sar.sample_indices len) = Some O
  /\ List.last (Sar.sample_indices len) O = (len - 1)%nat
  /\ (length (Sar.sample_indices len) <= 40)%nat.
Proof.
  intros Hlen. unfold Sar.sample_indices. cbv zeta.
  set (step := Nat.max 1 (len / 20)).
  set (f := fun i => (i mod step =? 0)%nat).
  pose proof (filter_seq_sorted f 0 len) as Hs.
  pose proof (sample_count len) as Hc. fold step in Hc. fold f in Hc.
  assert (Hin : forall i, In i (List.filter f (seq 0 len)) -> (i < len)%nat).
  { intros i Hi. apply List.filter_In in Hi as [Hi _]. apply in_seq in Hi. lia. }
  assert (Hhd : hd_error (List.filter f (seq 0 len)) = Some O).
  { destruct len as [|n]; [lia|]. simpl. unfold f at 1.
    rewrite Nat.Div0.mod_0_l. reflexivity. }
  destruct (Nat.eqb_spec (List.last (List.filter f (seq 0 len)) O) (len - 1)) as [E|E].
  - split; [exact Hs|]. split; [now apply List.Forall_forall|].
    split; [exact Hhd|]. split; [exact E | lia].
  - split; [|split; [|split; [|split]]].
    + apply sorted_snoc; [exact Hs|]. intros i Hi.
      pose proof (sorted_le_last _ _ Hs Hi).
      assert (Hl : In (List.last (List.filter f (seq 0 len)) O)
                      (List.filter f (seq 0 len))).
      { apply last_In. intros Hnil. rewrite Hnil in Hi. destruct Hi. }
      apply Hin in Hl. lia.
    + apply Forall_app. split; [now apply List.Forall_forall|].
      constructor; [lia | constructor].
    + destruct (List.filter f (seq 0 len)); [discriminate | exact Hhd].
    + apply last_last.
    + rewrite length_app. simpl. lia.
Qed.

Lemma select_nil {A : Type} (idx : list nat) : Sar.select (@nil A) idx = [].
Proof. induction idx as [|i idx IH]; simpl; [|destruct i]; auto. Qed.

Lemma select_length {A : Type} (l : list A) (idx : list nat) :
  Forall (fun i => (i < length l)%nat) idx ->
  length (Sar.select l idx) = length idx.
Proof.
  induction 1 as [|i idx Hi _ IH]; simpl; [reflexivity|].
  destruct (nth_error l i) eqn:E; [simpl; now rewrite IH|].
  apply nth_error_None in E. lia.
Qed.

Lemma select_app {A : Type} (l : list A) (idx idx' : list nat) :
  Sar.select l (idx ++ idx') = Sar.select l idx ++ Sar.select l idx'.
Proof.
  induction idx as [|i idx IH]; simpl; [reflexivity|].
  destruct (nth_error l i); simpl; now rewrite IH.
Qed.

Lemma select_tail {A : Type} (x : A) (l : list A) (idx : list nat) :
  Forall (fun i => (0 < i)%nat) idx ->
  Sar.select (x :: l) idx = Sar.select l (map Nat.pred idx).
Proof.
  induction 1 as [|i idx Hi _ IH]; simpl; [reflexivity|].
  destruct i as [|i]; [lia|]. simpl. now rewrite IH.
Qed.

Lemma pred_sorted (idx : list nat) :
  Forall (fun i => (0 < i)%nat) idx ->
  StronglySorted lt idx -> StronglySorted lt (map Nat.pred idx).
Proof.
  intros Hpos Hs. induction Hs as [|a l Hs IH Hall]; simpl; constructor.
  - apply IH. now inversion Hpos.
  - inversion Hpos as [|? ? Ha Hl]; subst. apply Forall_map.
    rewrite List.Forall_forall in Hall, Hl |- *. intros x Hx.
    specialize (Hall x Hx). specialize (Hl x Hx). simpl in Hl. lia.
Qed.

(** Selecting at strictly increasing indices yields a subsequence. *)
Lemma select_sublist {A : Type} (l : list A) (idx : list nat) :
  StronglySorted lt idx -> sublist (Sar.select l idx) l.
Proof.
  revert idx. induction l as [|x l IH]; intros idx Hs.
  - rewrite select_nil. constructor.
  - destruct idx as [|i idx]; [apply sublist_nil_l|].
    inversion Hs as [|? ? Hs' Hall]; subst.
    assert (Hpos : Forall (fun j => (0 < j)%nat) idx).
    { rewrite List.Forall_forall in Hall |- *. intros j Hj.
      specialize (Hall j Hj). simpl. lia. }
    destruct i as [|i].
    + simpl. apply sublist_skip. rewrite (select_tail x l idx Hpos).
      apply IH. now apply pred_sorted.
    + rewrite (select_tail x l (S i :: idx)); [|constructor; [lia | exact Hpos]].
      apply sublist_cons. apply IH. apply pred_sorted; auto.
      constructor; [lia | exact Hpos].
Qed.

End SampleFacts.


Lemma nth_error_last {A : Type} (l : list A) (d : A) :
  l <> [] -> nth_error l (length l - 1) = Some (List.last l d).
Proof.
  induction l as [|a l IH]; [congruence|]. intros _.
  destruct l as [|b l']; [reflexivity|].
  change (List.last (a :: b :: l') d) with (List.last (b :: l') d).
  rewrite <- IH by discriminate. simpl. now rewrite Nat.sub_0_r.
Qed.

(** X11: the route is sampled at no more than 40 points, taken in route
    order without repetition, and the sample always starts at the first
    stop and ends at the last one. *)
Theorem sample_keeps_route_ends (pts : list point) (d : point) :
  let sample := Sar.select pts (Sar.sample_indices (length pts)) in
  hd_error sample = hd_error pts
  /\ List.last sample d = List.last pts d
  /\ sublist sample pts
  /\ (length sample <= 40)%nat.
Proof.
  intros sample. subst sample.
  destruct pts as [|p pts]; [repeat split; simpl; [constructor | lia]|].
  destruct (sample_indices_spec (length (p :: pts))) as (Hs & Hlt & Hhd & Hlast & Hlen);
    [simpl; lia|].
  set (idx := Sar.sample_indices (length (p :: pts))) in *.
  split; [|split; [|split]].
  - destruct idx as [|i idx']; [discriminate|]. injection Hhd as ->. reflexivity.
  - assert (Hne : idx <> []) by (intros E; rewrite E in Hhd; discriminate).
    rewrite (app_removelast_last O Hne), Hlast, select_app.
    cbn [Sar.select]. rewrite (nth_error_last (p :: pts) d) by discriminate.
    apply last_last.
  - now apply select_sublist.
  - rewrite select_length by exact Hlt. exact Hlen.
Qed.

Section SarResults.

Variable log1p : Q -> Q.
Variable fmul : Q -> Q -> Q.
Variable placesTextSearch : nat -> point -> Sar.search_reply.
Variable googleComputeRouteMatrix : nat -> list point -> string -> matrix_reply.
Variable placeDetails : nat -> option string -> option Sar.detail.

Local Abbreviation compare_poi := (Sar.compare_poi log1p fmul).
Local Abbreviation score_candidate :=
  (Sar.score_candidate googleComputeRouteMatrix).
Local Abbreviation score_all := (Sar.score_all googleComputeRouteMatrix).
Local Abbreviation collect := (Sar.collect placesTextSearch).
Local Abbreviation enrich := (Sar.enrich placeDetails).
Local Abbreviation searchAlongRoute :=
  (Sar.searchAlongRoute log1p fmul placesTextSearch googleComputeRouteMatrix
     placeDetails).

(** A scored candidate before enrichment. *)
Definition well_scored (p : Sar.poi) : Prop :=
  0 <= Sar.detour_min p
  /\ JS.truthy_num (lat (Sar.location p)) = true
  /\ JS.truthy_num (lon (Sar.location p)) = true
  /\ Sar.extra p = None.

Lemma score_candidate_well_scored (origin dest : point) (mode : string)
    (maxDetourMin : Q) (j : nat) (c : Sar.place) (p : Sar.poi) :
  score_candidate origin dest mode maxDetourMin j c = Some p -> well_scored p.
Proof.
  unfold Sar.score_candidate, well_scored.
  destruct (JS.nullish (Sar.latitude c) (Sar.plat c)) as [la|]; [|discriminate].
  destruct (JS.nullish (Sar.longitude c) (Sar.plon c)) as [lo|]; [|discriminate].
  destruct (JS.truthy_num la && JS.truthy_num lo) eqn:Ht; [|discriminate].
  apply andb_true_iff in Ht as [Hla Hlo].
  destruct (googleComputeRouteMatrix j _ _) as [m|e]; [|discriminate].
  destruct (cell (duration_s m) 0 1) as [[a|]|]; try discriminate.
  destruct (cell (duration_s m) 1 2) as [[b|]|]; try discriminate.
  destruct (cell (duration_s m) 0 2) as [[d0|]|]; try discriminate.
  destruct (Qle_bool _ maxDetourMin); [|discriminate].
  intros [= <-]. simpl. unfold Sar.detour_min_of. repeat split; auto. lia.
Qed.

Lemma score_all_well_scored (origin dest : point) (mode : string)
    (maxDetourMin : Q) (cands : list Sar.place) (j : nat) :
  Forall well_scored (score_all origin dest mode maxDetourMin j cands).
Proof.
  revert j. induction cands as [|c cands IH]; intros j; simpl; [constructor|].
  destruct (score_candidate origin dest mode maxDetourMin j c) eqn:E; [|apply IH].
  constructor; [eapply score_candidate_well_scored; eauto | apply IH].
Qed.

(** What [enrich] changes: the details of the results it reaches while
    its counter is below six. *)
Lemma enrich_nth (top : list Sar.poi) (i k : nat) (p : Sar.poi) :
  nth_error (enrich i top) k = Some p ->
  exists q, nth_error top k = Some q /\ same_core p q
            /\ (Sar.extra p = Sar.extra q \/ (i + k < 6)%nat).
Proof.
  revert i k. induction top as [|q top IH]; intros i k; simpl.
  - destruct k; discriminate.
  - destruct k as [|k]; simpl.
    + intros [= <-]. exists q. split; [reflexivity|].
      destruct (Nat.ltb_spec i 6).
      * destruct (placeDetails i (Sar.place_id q)); simpl;
          (split; [repeat split | right; lia]).
      * split; [repeat split | now left].
    + intros H. apply IH in H as (q' & Hq & Hc & He). exists q'.
      split; [exact Hq|]. split; [exact Hc|].
      destruct He as [He|He]; [now left | right; lia].
Qed.

(** The result is the sorted, truncated list of scored candidates,
    enriched on request. *)
Lemma searchAlongRoute_unfold (query : string) (maxResults : JS.num)
    (maxDetourMin : Q) (stops : list point) (mode : string)
    (enrichDetails : bool) :
  searchAlongRoute query maxResults maxDetourMin stops mode enrichDetails = []
  \/ exists scored,
       Forall well_scored scored
       /\ searchAlongRoute query maxResults maxDetourMin stops mode enrichDetails
          = (if enrichDetails
             then enrich O (JS.slice_to maxResults (JS.sort compare_poi scored))
             else JS.slice_to maxResults (JS.sort compare_poi scored)).
Proof.
  unfold Sar.searchAlongRoute.
  destruct (negb (JS.truthy_str query) || (length stops <? 2)%nat); [now left|].
  cbv zeta. destruct (collect _ _ _ _) as [|c cands]; [now left|].
  destruct (Sar.select stops _) as [|origin sample']; [now left|].
  right. eexists. split; [|reflexivity]. apply score_all_well_scored.
Qed.

(** X12: every result has a detour of at least 0 minutes and a location
    whose two coordinates are non-zero; a result carries place details
    only when enrichment was asked for and it is among the first six. *)
Theorem searchAlongRoute_results_well_formed (query : string) (maxResults : JS.num)
    (maxDetourMin : Q) (stops : list point) (mode : string)
    (enrichDetails : bool) (k : nat) (p : Sar.poi) :
  nth_error (searchAlongRoute query maxResults maxDetourMin stops mode enrichDetails) k
  = Some p ->
  0 <= Sar.detour_min p
  /\ JS.truthy_num (lat (Sar.location p)) = true
  /\ JS.truthy_num (lon (Sar.location p)) = true
  /\ (Sar.extra p <> None -> enrichDetails = true /\ (k < 6)%nat).
Proof.
  destruct (searchAlongRoute_unfold query maxResults maxDetourMin stops mode
              enrichDetails) as [->|(scored & Hw & ->)].
  { destruct k; discriminate. }
  assert (Htop : Forall well_scored
                   (JS.slice_to maxResults (JS.sort compare_poi scored))).
  { apply List.Forall_forall. intros q Hq. apply slice_to_In in Hq.
    apply (Permutation_in _ (sort_perm compare_poi scored)) in Hq.
    rewrite List.Forall_forall in Hw. now apply Hw. }
  rewrite List.Forall_forall in Htop.
  destruct enrichDetails.
  - intros H. apply enrich_nth in H as (q & Hq & Hc & He).
    apply nth_error_In in Hq. destruct (Htop q Hq) as (Hd & Hla & Hlo & Hx).
    destruct Hc as (_ & Hdm & Hloc & _). rewrite Hdm, Hloc.
    repeat split; auto; destruct He as [He|He]; try lia; congruence.
  - intros H. apply nth_error_In in H. destruct (Htop p H) as (Hd & Hla & Hlo & Hx).
    repeat split; auto; congruence.
Qed.

Lemma collect_all_failed (sample : list point) (i : nat) (seen : gset string)
    (cands : list Sar.place) :
  (forall j p, Sar.s_ok (placesTextSearch j p) = false) ->
  collect i sample seen cands = cands.
Proof.
  intros Hf. revert i. induction sample as [|p sample IH]; intros i; simpl;
    [reflexivity|].
  rewrite Hf. simpl. apply IH.
Qed.

Lemma score_all_all_failed (origin dest : point) (mode : string)
    (maxDetourMin : Q) (cands : list Sar.place) (j : nat) :
  (forall i pts md, exists e, googleComputeRouteMatrix i pts md = MatrixFail e) ->
  score_all origin dest mode maxDetourMin j cands = [].
Proof.
  intros Hf. revert j. induction cands as [|c cands IH]; intros j; simpl;
    [reflexivity|].
  replace (score_candidate origin dest mode maxDetourMin j c) with (@None Sar.poi);
    [apply IH|].
  unfold Sar.score_candidate.
  destruct (JS.nullish (Sar.latitude c) (Sar.plat c)) as [la|]; [|reflexivity].
  destruct (JS.nullish (Sar.longitude c) (Sar.plon c)) as [lo|]; [|reflexivity].
  destruct (JS.truthy_num la && JS.truthy_num lo); [|reflexivity].
  destruct (Hf j [origin; mkPoint la lo; dest] (JS.toUpperCase mode)) as (e & ->).
  reflexivity.
Qed.

(** X13: the search returns no result when the query is empty, when the
    route has fewer than two stops, when no result is asked for (the
    integral part of [maxResults] is 0), when every text search fails,
    or when every travel-matrix request fails. *)
Theorem searchAlongRoute_empty (query : string) (maxResults : JS.num)
    (maxDetourMin : Q) (stops : list point) (mode : string)
    (enrichDetails : bool) :
  JS.truthy_str query = false
  \/ (length stops < 2)%nat
  \/ (exists q, maxResults = JS.Num q /\ JS.trunc q = 0)
  \/ (forall j p, Sar.s_ok (placesTextSearch j p) = false)
  \/ (forall i pts md, exists e, googleComputeRouteMatrix i pts md = MatrixFail e) ->
  searchAlongRoute query maxResults maxDetourMin stops mode enrichDetails = [].
Proof.
  unfold Sar.searchAlongRoute. intros [H|[H|[H|[H|H]]]].
  - now rewrite H.
  - apply Nat.ltb_lt in H. rewrite H, orb_true_r. reflexivity.
  - destruct (_ || _); [reflexivity|]. cbv zeta. destruct H as (q & -> & Hq).
    destruct (collect _ _ _ _); [reflexivity|].
    destruct (Sar.select _ _); [reflexivity|].
    unfold JS.slice_to. rewrite Hq. simpl. now destruct enrichDetails.
  - destruct (_ || _); [reflexivity|]. cbv zeta.
    now rewrite (collect_all_failed _ _ _ _ H).
  - destruct (_ || _); [reflexivity|]. cbv zeta.
    destruct (collect _ _ _ _); [reflexivity|].
    destruct (Sar.select _ _); [reflexivity|].
    rewrite (score_all_all_failed _ _ _ _ _ _ H). simpl JS.sort.
    destruct (slice_to_firstn maxResults (@nil Sar.poi)) as (k & ->).
    rewrite firstn_nil. now destruct enrichDetails.
Qed.

End SarResults.

(** X12, a concrete run: the one result of the example, enriched. *)
Lemma searchAlongRoute_results_well_formed_witness :
  let details := fun (_ : nat) (_ : option string) =>
                   Some (Sar.mkDetail (Some "09:00-17:00") None None) in
  let run := Sar.searchAlongRoute (fun x => x) Qmult SarExample.search
               (fun _ => SarExample.provider) details
               "coffee" (JS.Num 12) 30 [SarExample.A; SarExample.B] "drive" true in
  exists p, nth_error run 0 = Some p
            /\ Sar.extra p <> None
            /\ JS.truthy_num (lat (Sar.location p)) = true.
Proof.
  intros details run.
  assert (H : nth_error run 0
              = Some (Sar.mkPoi (Some "p1") (Some "Cafe") (Some (9 # 2))
                        (Some (120 # 1)) None (mkPoint (3 # 2) (3 # 2)) 20
                        (Some (Sar.mkDetail (Some "09:00-17:00") None None))))
    by (vm_compute; reflexivity).
  eexists. split; [exact H|]. split; [discriminate|].
  exact (proj1 (proj2
    (searchAlongRoute_results_well_formed (fun x => x) Qmult SarExample.search
       (fun _ => SarExample.provider) details
       "coffee" (JS.Num 12) 30%Q [SarExample.A; SarExample.B] "drive" true O _ H))).
Defined.

(** X13, a concrete run: a route of one stop. *)
Lemma searchAlongRoute_empty_witness :
  Sar.searchAlongRoute (fun x => x) Qmult SarExample.search
    (fun _ => SarExample.provider) (fun _ _ => None)
    "coffee" (JS.Num 12) 30 [SarExample.A] "drive" true = [].
Proof.
  apply searchAlongRoute_empty. right. left. simpl. lia.
Defined.

(* ------------------------------------------------------------------ *)
(** ** Day planner: picks, timeline and route search *)

Lemma filter_StronglySorted {A : Type} (R : A -> A -> Prop) (f : A -> bool)
    (l : list A) :
  StronglySorted R l -> StronglySorted R (List.filter f l).
Proof.
  induction 1 as [|a l Hs IH Hall]; simpl; [constructor|].
  destruct (f a); [|exact IH]. constructor; [exact IH|].
  rewrite List.Forall_forall in Hall |- *. intros x Hx.
  apply List.filter_In in Hx as [Hx _]. now apply Hall.
Qed.

Lemma filter_map_NoDup {A B : Type} (g : A -> B) (f : A -> bool) (l : list A) :
  List.NoDup (map g l) -> List.NoDup (map g (List.filter f l)).
Proof.
  induction l as [|a l IH]; simpl; [auto|]. intros H.
  inversion H as [|? ? Hx Hnd]; subst. destruct (f a); [|now apply IH].
  simpl. constructor; [|now apply IH]. intros Hin. apply Hx.
  apply in_map_iff in Hin as (y & <- & Hy). apply List.filter_In in Hy as [Hy _].
  now apply in_map.
Qed.

Lemma firstn_map_NoDup {A B : Type} (g : A -> B) (n : nat) (l : list A) :
  List.NoDup (map g l) -> List.NoDup (map g (firstn n l)).
Proof. rewrite <- firstn_map. apply firstn_NoDup. Qed.

Section PlannerPicks.

Variable log1p : Q -> Q.
Variable fmul : Q -> Q -> Q.
Variable searchType : nat -> string -> Sar.search_reply.

Local Abbreviation weight := (Sar.weight log1p fmul).
Local Abbreviation compare_candidate := (Planner.compare_candidate log1p fmul).
Local Abbreviation collect_types := (Planner.collect_types searchType).
Local Abbreviation collectNearOriginCandidates :=
  (Planner.collectNearOriginCandidates log1p fmul searchType).
Local Abbreviation collect_picks := (Planner.collect_picks log1p fmul searchType).

(** [a] is rated at least as high as [b]. *)
Definition by_weight (a b : Planner.candidate) : Prop :=
  (weight (Planner.rating b) (Planner.user_ratings_total b)
   <= weight (Planner.rating a) (Planner.user_ratings_total a))%Q.

Lemma compare_candidate_ordered (a b : Planner.candidate) :
  ordered compare_candidate a b <-> by_weight a b.
Proof. unfold ordered, Planner.compare_candidate, by_weight. split; intros H; lra. Qed.

Lemma compare_candidate_total (a b : Planner.candidate) :
  ~ ordered compare_candidate a b -> ordered compare_candidate b a.
Proof.
  rewrite !compare_candidate_ordered. unfold by_weight. intros H.
  apply Qnot_lt_le. intros Hlt. apply H. now apply Qlt_le_weak.
Qed.

Lemma sort_by_weight (l : list Planner.candidate) :
  StronglySorted by_weight (JS.sort compare_candidate l).
Proof.
  apply Sorted_StronglySorted.
  - intros a b c. unfold by_weight. intros H1 H2. eapply Qle_trans; eauto.
  - pose proof (sort_Sorted compare_candidate compare_candidate_total l) as Hs.
    induction Hs as [|a l' _ IH Hd]; constructor; [exact IH|].
    destruct Hd; constructor. now apply compare_candidate_ordered.
Qed.

(** Every candidate gathered so far has a non-empty id, recorded in
    [seen], and no id occurs twice. *)
Definition gathered (seen : gset string) (all : list Planner.candidate) : Prop :=
  List.NoDup (map Planner.place_id all)
  /\ forall c, In c all ->
       exists i, Planner.place_id c = Some i /\ JS.truthy_str i = true /\ i ∈ seen.

Lemma add_places_gathered (its : list Sar.place) (seen : gset string)
    (all : list Planner.candidate) :
  gathered seen all ->
  gathered (fst (Planner.add_places its seen all))
           (snd (Planner.add_places its seen all)).
Proof.
  revert seen all. induction its as [|r its IH]; intros seen all Hg; simpl;
    [exact Hg|].
  destruct (Sar.id r) as [i|] eqn:Hi; [|now apply IH].
  destruct (JS.truthy_str i && negb (bool_decide (i ∈ seen))) eqn:E; [|now apply IH].
  apply IH. apply andb_true_iff in E as [Ht E]. apply negb_true_iff in E.
  apply bool_decide_eq_false in E. destruct Hg as [Hnd Hseen]. split.
  - rewrite map_app. simpl.
    apply List.NoDup_app; [exact Hnd | repeat constructor; simpl; tauto |].
    intros o Ho [<-|[]]. apply in_map_iff in Ho as (c & Hc & Hin).
    destruct (Hseen c Hin) as (i' & Hi' & _ & Hmem). congruence.
  - intros c Hin. apply in_app_iff in Hin as [Hin|[<-|[]]].
    + destruct (Hseen c Hin) as (i' & Hi' & Ht' & Hmem). exists i'.
      split; [exact Hi'|]. split; [exact Ht' | set_solver].
    + exists i. simpl. split; [reflexivity|]. split; [exact Ht | set_solver].
Qed.

Lemma collect_types_gathered (searchTypes : list string) (lim : JS.num)
    (i : nat) (seen : gset string) (all : list Planner.candidate) :
  gathered seen all ->
  exists seen', gathered seen' (collect_types i searchTypes lim seen all).
Proof.
  revert i seen all. induction searchTypes as [|typ rest IH]; intros i seen all Hg;
    simpl; [eauto|].
  destruct (Sar.s_ok (searchType i typ)); [|now apply IH].
  destruct (Sar.items (searchType i typ)) as [its|]; [|now apply IH].
  pose proof (add_places_gathered its seen all Hg) as Hg'.
  destruct (Planner.add_places its seen all) as [seen' all']. simpl in Hg'.
  destruct (JS.length_ge (length all') lim); [eauto | now apply IH].
Qed.

Lemma collectNearOriginCandidates_spec (types : list string) (lim : JS.num) :
  let cands := collectNearOriginCandidates types lim in
  List.NoDup (map Planner.place_id cands)
  /\ StronglySorted by_weight cands
  /\ (forall q, lim = JS.Num q -> 0 <= JS.trunc q ->
        Z.of_nat (length cands) <= JS.trunc q)
  /\ Forall (fun c => JS.truthy_ostr (Planner.place_id c) = true) cands.
Proof.
  intros cands. subst cands. unfold Planner.collectNearOriginCandidates.
  set (searchTypes := match types with [] => _ | _ => _ end).
  destruct (collect_types_gathered searchTypes lim O ∅ [])
    as (seen' & Hnd & Hids).
  { split; [constructor | intros c []]. }
  set (all := collect_types O searchTypes lim ∅ []) in *.
  pose proof (sort_perm compare_candidate all) as Hp.
  destruct (slice_to_firstn lim (JS.sort compare_candidate all)) as (k & Hk).
  split; [|split; [|split]].
  - rewrite Hk. apply firstn_map_NoDup.
    eapply Permutation_NoDup; [|exact Hnd].
    symmetry. now apply Permutation_map.
  - rewrite Hk. apply firstn_StronglySorted, sort_by_weight.
  - intros q -> Hq. now apply slice_to_length.
  - apply List.Forall_forall. intros c Hc. apply slice_to_In in Hc.
    apply (Permutation_in _ Hp) in Hc.
    destruct (Hids c Hc) as (i & -> & Ht & _). exact Ht.
Qed.


End PlannerPicks.

(** The finite seconds of a matrix cell, as a timeline leg reports them. *)
Definition finite_seconds (d : option JS.xnum) : option Z :=
  match d with
  | Some (JS.Fin z) => Some z
  | _ => None
  end.

(** The seconds of the legs that have a finite duration. *)
Definition elapsed (tl : list Planner.leg) : Z :=
  fold_right (fun t acc => default 0 (Planner.leg_seconds t) + acc) 0 tl.

Section TimelineFacts.

Variables (O_ D_ : Planner.coords) (picks : list Planner.candidate) (n : nat).
Variable dur : list (list JS.xnum).

Local Abbreviation build_timeline := (Planner.build_timeline O_ D_ picks n dur).
Local Abbreviation stop_of := (Planner.stop_of O_ D_ picks n).

Lemma build_timeline_cons (a b : nat) (rest : list nat) (cum : Z) :
  build_timeline (a :: b :: rest) cum
  = match cell dur a b with
    | Some (JS.Fin leg_s) =>
      Planner.mkLeg (stop_of a) (stop_of b) (Some leg_s) (Some (cum + leg_s))
        :: build_timeline (b :: rest) (cum + leg_s)
    | _ =>
      Planner.mkLeg (stop_of a) (stop_of b) None None
        :: build_timeline (b :: rest) cum
    end.
Proof. reflexivity. Qed.

Lemma build_timeline_length (order : list nat) (cum : Z) :
  length (build_timeline order cum) = (length order - 1)%nat.
Proof.
  revert cum. induction order as [|a order IH]; intros cum; [reflexivity|].
  destruct order as [|b rest]; [reflexivity|].
  rewrite build_timeline_cons.
  destruct (cell dur a b) as [[z|]|]; cbn [length]; rewrite IH; simpl; lia.
Qed.

Lemma build_timeline_nth (order : list nat) (cum : Z) (k : nat) (t : Planner.leg) :
  nth_error (build_timeline order cum) k = Some t ->
  exists a b,
    nth_error order k = Some a /\ nth_error order (S k) = Some b
    /\ Planner.from t = stop_of a /\ Planner.to t = stop_of b
    /\ Planner.leg_seconds t = finite_seconds (cell dur a b)
    /\ Planner.eta_seconds t
       = match Planner.leg_seconds t with
         | Some _ => Some (cum + elapsed (firstn (S k) (build_timeline order cum)))
         | None => None
         end.
Proof.
  revert cum k. induction order as [|a order IH]; intros cum k;
    [destruct k; discriminate|].
  destruct order as [|b rest]; [destruct k; discriminate|].
  rewrite build_timeline_cons.
  destruct (cell dur a b) as [[z|]|] eqn:Hc.
  - destruct k as [|k]; cbn [nth_error].
    + intros [= <-]. exists a, b. rewrite Hc. unfold elapsed. simpl.
      repeat split. f_equal. lia.
    + intros H. apply IH in H as (a' & b' & Ha & Hb & Hf & Ht & Hl & He).
      exists a', b'. repeat split; auto; rewrite He;
        destruct (Planner.leg_seconds t); try reflexivity;
        f_equal; unfold elapsed; simpl; lia.
  - destruct k as [|k]; cbn [nth_error].
    + intros [= <-]. exists a, b. rewrite Hc. cbn. repeat split.
    + intros H. apply IH in H as (a' & b' & Ha & Hb & Hf & Ht & Hl & He).
      exists a', b'. repeat split; auto; rewrite He;
        destruct (Planner.leg_seconds t); try reflexivity;
        f_equal; unfold elapsed; simpl; lia.
  - destruct k as [|k]; cbn [nth_error].
    + intros [= <-]. exists a, b. rewrite Hc. cbn. repeat split.
    + intros H. apply IH in H as (a' & b' & Ha & Hb & Hf & Ht & Hl & He).
      exists a', b'. repeat split; auto; rewrite He;
        destruct (Planner.leg_seconds t); try reflexivity;
        f_equal; unfold elapsed; simpl; lia.
Qed.

End TimelineFacts.

Section EnrichTimeline.

Variable placeDetails : nat -> option string -> option Sar.detail.

Local Abbreviation enrich_timeline := (Planner.enrich_timeline placeDetails).

(** The place behind a stop, details apart. *)
Definition stop_place (s : Planner.stop) : Planner.stop :=
  match s with
  | Planner.StopPoi c _ => Planner.StopPoi c None
  | _ => s
  end.

Definition has_details (s : Planner.stop) : bool :=
  match s with
  | Planner.StopPoi _ (Some _) => true
  | _ => false
  end.

(** Two legs that differ at most in the details of their arrival stop. *)
Definition same_leg (t' t : Planner.leg) : Prop :=
  Planner.from t' = Planner.from t
  /\ stop_place (Planner.to t') = stop_place (Planner.to t)
  /\ Planner.leg_seconds t' = Planner.leg_seconds t
  /\ Planner.eta_seconds t' = Planner.eta_seconds t.

Lemma same_leg_refl (t : Planner.leg) : same_leg t t.
Proof. repeat split. Qed.

Lemma Forall2_same_leg_refl (tl : list Planner.leg) : Forall2 same_leg tl tl.
Proof. induction tl; constructor; [apply same_leg_refl | assumption]. Qed.

Lemma enrich_timeline_cons (t : Planner.leg) (tl : list Planner.leg)
    (i enriched : nat) :
  enrich_timeline i enriched (t :: tl)
  = if (3 <=? enriched)%nat then t :: tl
    else
      match Planner.to t with
      | Planner.StopPoi (Some c) _ =>
        if JS.truthy_ostr (Planner.place_id c) then
          match placeDetails i (Planner.place_id c) with
          | Some d =>
            Planner.mkLeg (Planner.from t) (Planner.StopPoi (Some c) (Some d))
                          (Planner.leg_seconds t) (Planner.eta_seconds t)
              :: enrich_timeline (S i) (S enriched) tl
          | None => t :: enrich_timeline (S i) enriched tl
          end
        else t :: enrich_timeline (S i) enriched tl
      | _ => t :: enrich_timeline (S i) enriched tl
      end.
Proof. reflexivity. Qed.

Lemma enrich_timeline_same_leg (tl : list Planner.leg) (i enriched : nat) :
  Forall2 same_leg (enrich_timeline i enriched tl) tl.
Proof.
  revert i enriched. induction tl as [|t tl IH]; intros i enriched;
    [constructor|]. rewrite enrich_timeline_cons.
  destruct (3 <=? enriched)%nat; [apply Forall2_same_leg_refl|].
  destruct (Planner.to t) as [c|c|[c|] d] eqn:Hto;
    try (constructor; [apply same_leg_refl | apply IH]).
  destruct (JS.truthy_ostr (Planner.place_id c));
    [|constructor; [apply same_leg_refl | apply IH]].
  destruct (placeDetails i (Planner.place_id c));
    constructor; try apply IH; try apply same_leg_refl.
  unfold same_leg. simpl. rewrite Hto. repeat split.
Qed.

(** The arrival stops that carry details after enrichment, when
    [already] legs carried details before and none of [tl] does. *)
Lemma enrich_timeline_count (tl : list Planner.leg) (i enriched : nat) :
  Forall (fun t => has_details (Planner.to t) = false) tl ->
  (length (List.filter (fun t => has_details (Planner.to t))
             (enrich_timeline i enriched tl)) + enriched
   <= Nat.max 3 enriched)%nat.
Proof.
  intros Hno. revert i enriched.
  induction Hno as [|t tl Ht Hno IH]; intros i enriched; [simpl; lia|].
  rewrite enrich_timeline_cons.
  assert (Hplain : (length (List.filter (fun t => has_details (Planner.to t))
                              (t :: tl)) = 0)%nat).
  { simpl. rewrite Ht. clear IH. induction Hno as [|u tl Hu _ IHn]; simpl;
      [reflexivity | now rewrite Hu]. }
  destruct (Nat.leb_spec 3 enriched) as [H3|H3]; [rewrite Hplain; lia|].
  clear Hplain.
  destruct (Planner.to t) as [c|c|[c|] [d|]] eqn:Hto; simpl in Ht;
    try discriminate Ht;
    repeat match goal with
           | |- context [JS.truthy_ostr ?x] => destruct (JS.truthy_ostr x)
           | |- context [placeDetails ?j ?x] => destruct (placeDetails j x)
           end;
    simpl; rewrite ?Hto; simpl;
    first [ specialize (IH (S i) (S enriched)); lia
          | specialize (IH (S i) enriched); lia ].
Qed.

End EnrichTimeline.

Lemma Forall2_same_leg_nth (tl' tl : list Planner.leg) (k : nat) (t' : Planner.leg) :
  Forall2 same_leg tl' tl -> nth_error tl' k = Some t' ->
  exists t, nth_error tl k = Some t /\ same_leg t' t.
Proof.
  intros H. revert k. induction H as [|a' a l' l Ha _ IH]; intros k.
  - destruct k; discriminate.
  - destruct k as [|k]; simpl; [intros [= <-]; eauto | apply IH].
Qed.

Lemma Forall2_same_leg_elapsed (tl' tl : list Planner.leg) (k : nat) :
  Forall2 same_leg tl' tl -> elapsed (firstn k tl') = elapsed (firstn k tl).
Proof.
  intros H. revert k. induction H as [|a' a l' l Ha _ IH]; intros k.
  - reflexivity.
  - destruct k as [|k]; [reflexivity|]. unfold elapsed in *. simpl.
    destruct Ha as (_ & _ & -> & _). now rewrite IH.
Qed.

Lemma Forall2_same_leg_from (tl' tl : list Planner.leg) :
  Forall2 same_leg tl' tl ->
  Forall (fun t => has_details (Planner.from t) = false) tl ->
  Forall (fun t => has_details (Planner.from t) = false) tl'.
Proof.
  induction 1 as [|t' t l' l Ht _ IH]; intros Hp; constructor.
  - destruct Ht as (-> & _). now inversion Hp.
  - apply IH. now inversion Hp.
Qed.

Lemma route_stops_app (l l' : list Planner.stop) :
  Planner.route_stops (l ++ l') = Planner.route_stops l ++ Planner.route_stops l'.
Proof.
  induction l as [|s l IH]; simpl; [reflexivity|].
  destruct (Planner.stop_lat s), (Planner.stop_lon s); try exact IH.
  destruct (_ && _); [simpl; now rewrite IH | exact IH].
Qed.

Section TimelineStops.

Variables (O_ D_ : Planner.coords) (picks : list Planner.candidate) (n : nat).
Variable dur : list (list JS.xnum).

Local Abbreviation build_timeline := (Planner.build_timeline O_ D_ picks n dur).
Local Abbreviation stop_of := (Planner.stop_of O_ D_ picks n).

(** The stops of a timeline, departure by departure and then the last
    arrival, are the stops of the order. *)
Lemma timeline_stops (a b : nat) (rest : list nat) (cum : Z) (t0 : Planner.leg) :
  let tl := build_timeline (a :: b :: rest) cum in
  map Planner.from tl ++ [Planner.to (List.last tl t0)]
  = map stop_of (a :: b :: rest).
Proof.
  cbv zeta. revert a b cum t0. induction rest as [|c rest IH]; intros a b cum t0.
  - rewrite build_timeline_cons. destruct (cell dur a b) as [[z|]|]; reflexivity.
  - rewrite build_timeline_cons.
    destruct (cell dur a b) as [[z|]|];
      match goal with
      | |- context [build_timeline (b :: c :: rest) ?cm] =>
        specialize (IH b c cm t0);
        destruct (build_timeline (b :: c :: rest) cm) as [|t1 tl1] eqn:E;
        [pose proof (build_timeline_length O_ D_ picks n dur (b :: c :: rest) cm) as Hl;
         rewrite E in Hl; simpl in Hl; lia|];
        cbn [map app]; f_equal;
        change (List.last (?x :: t1 :: tl1) t0) with (List.last (t1 :: tl1) t0);
        exact IH
      end.
Qed.

Lemma no_poi_on_route (visited : list nat) :
  incl visited (seq 1 (n - 2)) ->
  Planner.route_stops (map stop_of visited) = [].
Proof.
  induction visited as [|a visited IH]; intros Hincl; [reflexivity|].
  assert (Ha : In a (seq 1 (n - 2))) by (apply Hincl; now left).
  apply in_seq in Ha. simpl. unfold Planner.stop_of at 1.
  destruct (Nat.eqb_spec a 0); [lia|]. destruct (Nat.eqb_spec a (n - 1)); [lia|].
  simpl. apply IH. intros x Hx. apply Hincl. now right.
Qed.

Lemma build_timeline_plain (order : list nat) (cum : Z) :
  Forall (fun t => has_details (Planner.from t) = false
                   /\ has_details (Planner.to t) = false)
         (build_timeline order cum).
Proof.
  assert (Hs : forall a, has_details (stop_of a) = false).
  { intros a. unfold Planner.stop_of.
    destruct (a =? 0)%nat; [reflexivity|]. now destruct (a =? n - 1)%nat. }
  revert cum. induction order as [|a order IH]; intros cum; [constructor|].
  destruct order as [|b rest]; [constructor|]. rewrite build_timeline_cons.
  destruct (cell dur a b) as [[z|]|];
    (constructor; [simpl; split; apply Hs | apply IH]).
Qed.

End TimelineStops.

Section PlanDayFacts.

Variable log1p : Q -> Q.
Variable fmul : Q -> Q -> Q.
Variable searchOrigin : string -> Sar.search_reply.
Variable searchType : nat -> string -> Sar.search_reply.
Variable googleComputeRouteMatrix : list Planner.coords -> string -> matrix_reply.
Variable placeDetails : nat -> option string -> option Sar.detail.
Variable sarSearch : nat -> point -> Sar.search_reply.
Variable sarMatrix : nat -> list point -> string -> matrix_reply.

Local Abbreviation planDay :=
  (Planner.planDay log1p fmul searchOrigin searchType googleComputeRouteMatrix
     placeDetails sarSearch sarMatrix).
Local Abbreviation resolve_origin := (Planner.resolve_origin searchOrigin).
Local Abbreviation collect_picks := (Planner.collect_picks log1p fmul searchType).
Local Abbreviation plan_waypoints :=
  (Planner.plan_waypoints log1p fmul searchOrigin searchType).
Local Abbreviation run_sar := (Planner.run_sar log1p fmul sarSearch sarMatrix).
Local Abbreviation origin_of b := (Planner.center (resolve_origin b)).
Local Abbreviation dest_of b :=
  (Planner.destination (Planner.dest b) (Planner.center (resolve_origin b))).
Local Abbreviation mode_of b := (default "drive" (Planner.mode b)).

(** The timeline of the plan before the details are added. *)
Definition bare_timeline (b : Planner.body) (m : matrix_res) (order : list nat)
  : list Planner.leg :=
  Planner.build_timeline (origin_of b) (dest_of b) (fst (collect_picks b))
    (length (plan_waypoints b)) (duration_s m) order 0.

(** The two ways [planDay] answers with a plan. *)
Lemma planDay_ok (b : Planner.body) (s : Planner.summary) (order : list nat)
    (tl : list Planner.leg) :
  planDay b = Planner.PlanOk s order tl ->
  Planner.r_ok (resolve_origin b) = true
  /\ Planner.count s = length (fst (collect_picks b))
  /\ ((fst (collect_picks b) = [] /\ order = [] /\ tl = []
       /\ Planner.sar_scanned s = false /\ Planner.sar_results s = [])
      \/ (exists m,
            fst (collect_picks b) <> []
            /\ googleComputeRouteMatrix (plan_waypoints b)
                 (JS.toUpperCase (mode_of b)) = MatrixOk m
            /\ Planner.tsp_order (length (plan_waypoints b)) (duration_s m)
               = Some order
            /\ tl = Planner.enrich_timeline placeDetails O O (bare_timeline b m order)
            /\ (Planner.sar_scanned s, Planner.sar_results s)
               = run_sar b (mode_of b) (bare_timeline b m order))).
Proof.
  unfold Planner.planDay, bare_timeline.
  destruct (Planner.r_ok (resolve_origin b)); simpl; [|discriminate].
  destruct (fst (collect_picks b)) as [|c picks] eqn:Hp.
  - intros [= <- <- <-]. split; [reflexivity|]. split; [reflexivity|].
    left. repeat split.
  - destruct (googleComputeRouteMatrix _ _) as [m|e] eqn:Hm; [|discriminate].
    destruct (Planner.tsp_order _ _) as [o|] eqn:Ho; [|discriminate].
    intros [= <- <- <-]. split; [reflexivity|]. split; [reflexivity|].
    right. exists m. split; [discriminate|]. split; [reflexivity|].
    split; [exact Ho|]. split; [reflexivity|]. simpl.
    now destruct (run_sar _ _ _).
Qed.

(** X15: a plan has one leg per consecutive pair of its order; each leg
    reports the matrix duration between its two waypoints when that is
    finite, and then an ETA equal to the total of the finite legs up to
    and including it; a leg without a finite duration reports neither
    and does not count towards later ETAs. *)
Theorem planDay_timeline_cumulative (b : Planner.body) (s : Planner.summary)
    (order : list nat) (tl : list Planner.leg) :
  planDay b = Planner.PlanOk s order tl ->
  length tl = (length order - 1)%nat
  /\ (forall k t, nth_error tl k = Some t ->
        Planner.eta_seconds t
        = match Planner.leg_seconds t with
          | Some _ => Some (elapsed (firstn (S k) tl))
          | None => None
          end)
  /\ (forall m k t,
        googleComputeRouteMatrix (plan_waypoints b) (JS.toUpperCase (mode_of b))
        = MatrixOk m ->
        nth_error tl k = Some t ->
        exists i j, nth_error order k = Some i /\ nth_error order (S k) = Some j
                    /\ Planner.leg_seconds t = finite_seconds (cell (duration_s m) i j)).
Proof.
  intros H. apply planDay_ok in H as (_ & _ & [(_ & -> & -> & _)|(m & _ & Hm & _ & -> & _)]).
  { split; [reflexivity|]. split; intros; destruct k; discriminate. }
  pose proof (enrich_timeline_same_leg placeDetails (bare_timeline b m order) O O) as H2.
  split; [|split].
  - rewrite (Forall2_length _ _ _ H2). apply build_timeline_length.
  - intros k t Hk.
    destruct (Forall2_same_leg_nth _ _ _ _ H2 Hk) as (t0 & Hk0 & (_ & _ & Hl & He)).
    apply build_timeline_nth in Hk0 as (i & j & _ & _ & _ & _ & _ & He0).
    rewrite He, Hl, He0, (Forall2_same_leg_elapsed _ _ (S k) H2).
    destruct (Planner.leg_seconds t0); [f_equal; lia | reflexivity].
  - intros m' k t Hm' Hk. rewrite Hm in Hm'. injection Hm' as <-.
    destruct (Forall2_same_leg_nth _ _ _ _ H2 Hk) as (t0 & Hk0 & (_ & _ & Hl & _)).
    apply build_timeline_nth in Hk0 as (i & j & Hi & Hj & _ & _ & Hl0 & _).
    exists i, j. rewrite Hl. auto.
Qed.

(** X16: when a plan ran the search along the route, the route it
    searched along consists of the origin and the destination only,
    both with non-zero coordinates: no pick is part of it, and the
    results carry no details. *)
Theorem planDay_sar_route_origin_dest (b : Planner.body) (s : Planner.summary)
    (order : list nat) (tl : list Planner.leg) :
  planDay b = Planner.PlanOk s order tl ->
  Planner.sar_scanned s = true ->
  exists sp la lo la' lo',
    Planner.sar b = Some sp
    /\ Planner.s_origin s = Planner.mkCoords (Some la) (Some lo)
    /\ Planner.s_dest s = Planner.mkCoords (Some la') (Some lo')
    /\ Planner.sar_results s
       = Sar.searchAlongRoute log1p fmul sarSearch sarMatrix (fun _ _ => None)
           (default "" (Planner.sar_query sp))
           (default (JS.Num 12) (Planner.sar_maxResults sp))
           (default 15%Q (Planner.sar_maxDetourMin sp))
           [mkPoint la lo; mkPoint la' lo'] (mode_of b) false
    /\ JS.truthy_num la = true /\ JS.truthy_num lo = true
    /\ JS.truthy_num la' = true /\ JS.truthy_num lo' = true.
Proof.
  intros H Hscan. pose proof (planDay_summary _ _ _ _ _ _ _ _ _ _ _ _ H) as (_ & HO & HD).
  apply planDay_ok in H as (_ & _ & [(_ & _ & _ & Hf & _)|(m & Hp & _ & Ho & _ & Hsar)]);
    [congruence|].
  rewrite Hscan in Hsar.
  apply (tsp_order_ends (duration_s m)) in Ho as (_ & _ & visited & -> & _ & Hincl).
  assert (Hn : (3 <= length (plan_waypoints b))%nat).
  { rewrite plan_waypoints_length. destruct (fst (collect_picks b)); [congruence|].
    simpl. lia. }
  remember (length (plan_waypoints b)) as n eqn:En.
  unfold Planner.run_sar in Hsar.
  destruct (Planner.sar b) as [sp|]; [|discriminate].
  remember (bare_timeline b m (O :: visited ++ [(n - 1)%nat])) as tl0 eqn:Etl0.
  destruct tl0 as [|t0 tl1]; [discriminate|].
  destruct (JS.truthy_ostr (Planner.sar_query sp)); [|discriminate].
  assert (Hstops : map Planner.from (t0 :: tl1)
                     ++ [Planner.to (List.last (t0 :: tl1) t0)]
                   = map (Planner.stop_of (origin_of b) (dest_of b)
                            (fst (collect_picks b)) n)
                         (O :: visited ++ [(n - 1)%nat])).
  { rewrite Etl0. unfold bare_timeline. rewrite <- En.
    destruct visited as [|v visited']; apply timeline_stops. }
  rewrite Hstops in Hsar. clear Hstops Etl0.
  change (O :: visited ++ [(n - 1)%nat]) with ([O] ++ visited ++ [(n - 1)%nat]) in Hsar.
  rewrite !map_app, !route_stops_app,
    (no_poi_on_route (origin_of b) (dest_of b) (fst (collect_picks b)) n visited Hincl)
    in Hsar.
  rewrite HO, HD. clear HO HD.
  remember (dest_of b) as Dc eqn:ED. remember (origin_of b) as Oc eqn:EO.
  clear ED EO En.
  cbn [map app] in Hsar. unfold Planner.stop_of in Hsar.
  destruct (Nat.eqb_spec (n - 1) 0) as [E|_]; [lia|].
  rewrite (Nat.eqb_refl (n - 1)) in Hsar.
  change (0 =? 0)%nat with true in Hsar.
  cbn [Planner.route_stops Planner.stop_lat Planner.stop_lon] in Hsar.
  destruct Oc as [[la|] [lo|]], Dc as [[la'|] [lo'|]];
    cbn [Planner.c_lat Planner.c_lon app length] in Hsar;
    repeat match type of Hsar with
           | context [JS.truthy_num ?x && JS.truthy_num ?y] =>
             let E := fresh "E" in
             destruct (JS.truthy_num x && JS.truthy_num y) eqn:E;
             cbn [app length] in Hsar
           end;
    try discriminate Hsar.
  injection Hsar as Hres.
  repeat match goal with
         | E : _ && _ = true |- _ => apply andb_true_iff in E as [? ?]
         end.
  exists sp, la, lo, la', lo'. repeat split; auto.
Qed.

(** X17: a 400 answer of the planner comes only from an origin that
    could not be resolved, and carries the resolver's error text; a 502
    answer comes only from a failed travel-matrix request for a plan
    with picks. The ordering loop ends for every matrix. Without
    [near_origin] there is no pick, and a plan with no pick is empty:
    no order, no timeline, a count of 0, and no search along the route
    even when [sar] is set. *)
Theorem planDay_failures_and_empty_plan (b : Planner.body) :
  (forall code err, planDay b = Planner.PlanFailure 400 code err ->
     code = "invalid_request"
     /\ Planner.r_ok (resolve_origin b) = false
     /\ err = Planner.r_error (resolve_origin b))
  /\ (forall code err, planDay b = Planner.PlanFailure 502 code err ->
      code = "matrix_error"
      /\ Planner.r_ok (resolve_origin b) = true
      /\ fst (collect_picks b) <> []
      /\ exists e, googleComputeRouteMatrix (plan_waypoints b)
                     (JS.toUpperCase (mode_of b)) = MatrixFail e)
  /\ (forall dur n, exists order, Planner.tsp_order n dur = Some order)
  /\ (Planner.near_origin b = None -> fst (collect_picks b) = [])
  /\ (forall s order tl,
        planDay b = Planner.PlanOk s order tl -> fst (collect_picks b) = [] ->
        order = [] /\ tl = []
        /\ Planner.count s = O
        /\ Planner.sar_scanned s = false
        /\ Planner.sar_results s = []).
Proof.
  split; [|split; [|split; [|split]]].
  - intros code0 err. unfold Planner.planDay.
    destruct (Planner.r_ok (resolve_origin b)); simpl negb; cbv iota.
    2:{ intros [= <- <-]. auto. }
    destruct (fst (collect_picks b)) as [|c picks] eqn:Hp; [discriminate|].
    cbv zeta.
    destruct (googleComputeRouteMatrix _ _) as [m|e] eqn:Hm; [|discriminate].
    destruct (Planner.tsp_order _ _); discriminate.
  - intros code0 err. unfold Planner.planDay.
    destruct (Planner.r_ok (resolve_origin b)); simpl negb; cbv iota;
      [|discriminate].
    destruct (fst (collect_picks b)) as [|c picks] eqn:Hp; [discriminate|].
    cbv zeta.
    destruct (googleComputeRouteMatrix _ _) as [m|e] eqn:Hm.
    + destruct (Planner.tsp_order _ _); discriminate.
    + intros [= <- <-]. repeat split; eauto; discriminate.
  - intros dur n. apply tsp_order_total.
  - intros Hn. unfold Planner.collect_picks. now rewrite Hn.
  - intros s order tl. unfold Planner.planDay.
    destruct (Planner.r_ok (resolve_origin b)); simpl negb; cbv iota;
      [|discriminate].
    intros H Hp. rewrite Hp in H. injection H as <- <- <-. repeat split.
Qed.

(** X18: at most three legs of a plan carry place details, and only on
    their arrival stop; adding the details changes neither the stops
    nor the times of the timeline. *)
Theorem planDay_enriches_at_most_three (b : Planner.body) (s : Planner.summary)
    (order : list nat) (tl : list Planner.leg) :
  planDay b = Planner.PlanOk s order tl ->
  (length (List.filter (fun t => has_details (Planner.to t)) tl) <= 3)%nat
  /\ Forall (fun t => has_details (Planner.from t) = false) tl
  /\ (forall m, googleComputeRouteMatrix (plan_waypoints b)
                  (JS.toUpperCase (mode_of b)) = MatrixOk m ->
                Forall2 same_leg tl (bare_timeline b m order)).
Proof.
  intros H. apply planDay_ok in H as (_ & _ & [(_ & -> & -> & _)|(m & _ & Hm & _ & -> & _)]).
  { split; [simpl; lia|]. split; [constructor|]. intros m _. constructor. }
  pose proof (build_timeline_plain (origin_of b) (dest_of b) (fst (collect_picks b))
                (length (plan_waypoints b)) (duration_s m) order 0) as Hplain.
  fold (bare_timeline b m order) in Hplain.
  pose proof (enrich_timeline_same_leg placeDetails (bare_timeline b m order) O O) as H2.
  split; [|split].
  - pose proof (enrich_timeline_count placeDetails (bare_timeline b m order) O O) as Hc.
    simpl in Hc. rewrite Nat.add_0_r in Hc. apply Hc.
    eapply List.Forall_impl; [|exact Hplain]. now intros t [_ Ht].
  - apply (Forall2_same_leg_from _ _ H2).
    eapply List.Forall_impl; [|exact Hplain]. now intros t [Ht _].
  - intros m' Hm'. rewrite Hm in Hm'. injection Hm' as <-. exact H2.
Qed.

End PlanDayFacts.

(** X15, a concrete plan: legs of 300 s, 120 s and 300 s. *)
Lemma planDay_timeline_cumulative_witness :
  exists s order tl,
    PlanExample.plan PlanExample.request = Planner.PlanOk s order tl
    /\ length tl = (length order - 1)%nat
    /\ map Planner.eta_seconds tl = [Some 300; Some 420; Some 720].
Proof.
  destruct (PlanExample.plan PlanExample.request) as [h c e|s order tl] eqn:H;
    [vm_compute in H; discriminate|].
  exists s, order, tl. split; [reflexivity|]. split.
  - exact (proj1 (planDay_timeline_cumulative (fun x => x) Qmult
                    PlanExample.searchOrigin PlanExample.searchType
                    PlanExample.provider PlanExample.noDetails
                    PlanExample.noSearch PlanExample.noMatrix
                    PlanExample.request s order tl H)).
  - vm_compute in H. injection H as <- <- <-. reflexivity.
Defined.

(** X16, a concrete plan: the same request with a route search for
    gelato; the destination defaults to the origin. *)
Lemma planDay_sar_route_origin_dest_witness :
  let b := Planner.mkBody (Planner.origin PlanExample.request) None None
             (Some "drive") (Some PlanExample.near)
             (Some (Planner.mkSarSpec (Some "gelato") None None)) in
  exists s order tl sp la lo,
    PlanExample.plan b = Planner.PlanOk s order tl
    /\ Planner.sar b = Some sp
    /\ Planner.sar_results s
       = Sar.searchAlongRoute (fun x => x) Qmult PlanExample.noSearch
           PlanExample.noMatrix (fun _ _ => None)
           (default "" (Planner.sar_query sp))
           (default (JS.Num 12) (Planner.sar_maxResults sp))
           (default 15%Q (Planner.sar_maxDetourMin sp))
           [mkPoint la lo; mkPoint la lo] "drive" false.
Proof.
  intros b.
  destruct (PlanExample.plan b) as [h c e|s order tl] eqn:H;
    [vm_compute in H; discriminate|].
  assert (Hscan : Planner.sar_scanned s = true)
    by (vm_compute in H; injection H as <- _ _; reflexivity).
  destruct (planDay_sar_route_origin_dest (fun x => x) Qmult
              PlanExample.searchOrigin PlanExample.searchType
              PlanExample.provider PlanExample.noDetails
              PlanExample.noSearch PlanExample.noMatrix b s order tl H Hscan)
    as (sp & la & lo & la' & lo' & Hsp & HO & HD & Hres & _).
  assert (E : la' = la /\ lo' = lo).
  { vm_compute in H. injection H as <- _ _. simpl in HO, HD.
    injection HO as <- <-. injection HD as <- <-. split; reflexivity. }
  destruct E as [-> ->].
  exists s, order, tl, sp, la, lo. split; [reflexivity|]. split; assumption.
Defined.

(** X18, a concrete plan: two picks, both enriched. *)
Lemma planDay_enriches_at_most_three_witness :
  let details := fun (_ : nat) (_ : option string) =>
                   Some (Sar.mkDetail (Some "09:00-17:00") None None) in
  let plan := Planner.planDay (fun x => x) Qmult PlanExample.searchOrigin
                PlanExample.searchType PlanExample.provider details
                PlanExample.noSearch PlanExample.noMatrix PlanExample.request in
  exists s order tl,
    plan = Planner.PlanOk s order tl
    /\ length (List.filter (fun t => has_details (Planner.to t)) tl) = 2%nat
    /\ Forall (fun t => has_details (Planner.from t) = false) tl.
Proof.
  intros details plan.
  destruct plan as [h c e|s order tl] eqn:H; [vm_compute in H; discriminate|].
  exists s, order, tl. split; [reflexivity|]. split.
  - vm_compute in H. injection H as <- <- <-. reflexivity.
  - exact (proj1 (proj2 (planDay_enriches_at_most_three (fun x => x) Qmult
                           PlanExample.searchOrigin PlanExample.searchType
                           PlanExample.provider details
                           PlanExample.noSearch PlanExample.noMatrix
                           PlanExample.request s order tl H))).
Defined.

(* ------------------------------------------------------------------ *)
(** ** Travel modes and durations *)

Section GoogleMatrixFacts.

Lemma upper_ascii_idem (c : ascii) :
  JS.upper_ascii (JS.upper_ascii c) = JS.upper_ascii c.
Proof.
  destruct c as [[] [] [] [] [] [] [] []]; reflexivity.
Qed.

Lemma toUpperCase_idem (s : string) :
  JS.toUpperCase (JS.toUpperCase s) = JS.toUpperCase s.
Proof.
  induction s as [|c s IH]; simpl; [reflexivity|].
  now rewrite upper_ascii_idem, IH.
Qed.

Lemma toUpperCase_truthy (s : string) :
  JS.truthy_str (JS.toUpperCase s) = JS.truthy_str s.
Proof. destruct s; reflexivity. Qed.

Lemma toMode_In (mode : option string) :
  In (GoogleMatrix.toMode mode) GoogleMatrix.TRAVEL_MODES.
Proof.
  unfold GoogleMatrix.toMode. cbv zeta.
  destruct (existsb _ _) eqn:E; [|now left].
  apply existsb_exists in E as (x & Hx & Heq). apply String.eqb_eq in Heq.
  now subst.
Qed.

Lemma toMode_fixed (m : string) :
  In m GoogleMatrix.TRAVEL_MODES -> GoogleMatrix.toMode (Some m) = m.
Proof.
  simpl. intros H. decompose [or] H; subst; try reflexivity. contradiction.
Qed.

(** X19: [toMode] always returns one of the five travel modes of the
    provider, and it is idempotent. On ASCII text it ignores the case
    of its argument, so the upper-casing done by its callers changes
    nothing, and a mode whose upper case is none of the five becomes
    [DRIVE]; outside ASCII this needs care, since the upper case of a
    text with a dotless i can be [TRANSIT]. An absent or empty mode
    becomes [DRIVE], and the four modes of the planner API map to their
    own travel mode. *)
Theorem toMode_total_on_travel_modes (mode : option string) :
  In (GoogleMatrix.toMode mode) GoogleMatrix.TRAVEL_MODES
  /\ GoogleMatrix.toMode (Some (GoogleMatrix.toMode mode)) = GoogleMatrix.toMode mode
  /\ (forall s, JS.is_ascii s = true ->
                GoogleMatrix.toMode (Some (JS.toUpperCase s))
                = GoogleMatrix.toMode (Some s))
  /\ (forall s, JS.is_ascii s = true ->
                ~ In (JS.toUpperCase s) GoogleMatrix.TRAVEL_MODES ->
                GoogleMatrix.toMode (Some s) = "DRIVE")
  /\ GoogleMatrix.toMode None = "DRIVE"
  /\ GoogleMatrix.toMode (Some "") = "DRIVE"
  /\ map (fun s => GoogleMatrix.toMode (Some s)) ["drive"; "walk"; "bicycle"; "transit"]
     = ["DRIVE"; "WALK"; "BICYCLE"; "TRANSIT"].
Proof.
  split; [apply toMode_In|]. split; [apply toMode_fixed, toMode_In|].
  split; [|split; [|split; [|split]; reflexivity]].
  - intros s _. unfold GoogleMatrix.toMode. cbv zeta. unfold JS.truthy_ostr.
    simpl default. rewrite toUpperCase_truthy.
    destruct (JS.truthy_str s); [now rewrite toUpperCase_idem | reflexivity].
  - intros s _ Hno. unfold GoogleMatrix.toMode. cbv zeta. unfold JS.truthy_ostr.
    simpl default. destruct (JS.truthy_str s) eqn:Hs; [|reflexivity].
    destruct (existsb _ _) eqn:E; [|reflexivity].
    apply existsb_exists in E as (x & Hx & Heq). apply String.eqb_eq in Heq.
    subst x. contradiction.
Qed.

(** A non-empty string of decimal digits. *)
Fixpoint all_digits (s : string) : bool :=
  match s with
  | EmptyString => true
  | String c rest => GoogleMatrix.is_digit c && all_digits rest
  end.

Lemma match_seconds_form (s digits : string) :
  GoogleMatrix.match_seconds s = Some digits ->
  s = digits +:+ "s" /\ digits <> "" /\ all_digits digits = true.
Proof.
  revert digits. induction s as [|c rest IH]; intros digits; simpl; [discriminate|].
  destruct (GoogleMatrix.is_digit c) eqn:Hc; [|discriminate].
  assert (Hrec : option_map (String c) (GoogleMatrix.match_seconds rest) = Some digits ->
                 String c rest = digits +:+ "s" /\ digits <> ""
                 /\ all_digits digits = true).
  { destruct (GoogleMatrix.match_seconds rest) as [ds|]; [|discriminate].
    intros [= <-]. destruct (IH ds eq_refl) as (-> & _ & Hd).
    simpl. rewrite Hc, Hd. repeat split. discriminate. }
  destruct rest as [|c' rest']; [exact Hrec|].
  destruct (Ascii.eqb_spec c' "s") as [->|Hne].
  - destruct rest' as [|c'' rest'']; [|exact Hrec].
    intros [= <-]. simpl. rewrite Hc. repeat split. discriminate.
  - intros H. apply Hrec. revert H.
    destruct c' as [[] [] [] [] [] [] [] []]; try exact (fun H => H).
    now contradiction Hne.
Qed.

Lemma string_of_uint_digits (d : Decimal.uint) :
  all_digits (NilZero.string_of_uint d) = true.
Proof.
  assert (H : forall u, all_digits (NilEmpty.string_of_uint u) = true)
    by (induction u; simpl; auto).
  destruct d; try apply H. reflexivity.
Qed.

Lemma match_seconds_digits (digits : string) :
  digits <> "" -> all_digits digits = true ->
  GoogleMatrix.match_seconds (digits +:+ "s") = Some digits.
Proof.
  induction digits as [|c rest IH]; [congruence|]. intros _ Hd.
  simpl in Hd. apply andb_true_iff in Hd as [Hc Hd].
  change (String c rest +:+ "s") with (String c (rest +:+ "s")).
  cbn [GoogleMatrix.match_seconds]. rewrite Hc.
  destruct rest as [|c' rest']; [reflexivity|].
  rewrite IH by (discriminate || exact Hd).
  change (String c' rest' +:+ "s") with (String c' (rest' +:+ "s")).
  simpl in Hd. apply andb_true_iff in Hd as [Hc' _].
  destruct c' as [[] [] [] [] [] [] [] []]; try discriminate Hc'; reflexivity.
Qed.

Lemma int_to_string_nonneg (n : Z) :
  0 <= n -> JS.int_to_string n = NilZero.string_of_uint (N.to_uint (Z.to_N n)).
Proof. destruct n; [reflexivity | reflexivity | lia]. Qed.

Lemma to_uint_nonnil (m : N) : NilZero.string_of_uint (N.to_uint m) <> "".
Proof.
  destruct m as [|p]; simpl; [discriminate|].
  pose proof (DecimalPos.Unsigned.to_uint_nonnil p) as Hp.
  destruct (Pos.to_uint p); [congruence|discriminate..].
Qed.

(** X20: [parseDurationSeconds] reads the text [<n>s] back as [n], for
    every whole number of seconds [0 <= n < 2^53]; on a string it never
    returns a negative number, and it returns 0 for every string that is
    not a non-empty run of decimal digits followed by [s]; an absent
    duration is 0 and a numeric one is rounded. *)
Theorem parseDurationSeconds_round_trip :
  (forall n, 0 <= n < 2 ^ 53 ->
     GoogleMatrix.parseDurationSeconds
       (GoogleMatrix.DurString (JS.int_to_string n +:+ "s")) = n)
  /\ (forall s, 0 <= GoogleMatrix.parseDurationSeconds (GoogleMatrix.DurString s))
  /\ (forall s, GoogleMatrix.parseDurationSeconds (GoogleMatrix.DurString s) <> 0 ->
        exists digits, s = digits +:+ "s" /\ digits <> ""
                       /\ all_digits digits = true)
  /\ GoogleMatrix.parseDurationSeconds GoogleMatrix.DurMissing = 0
  /\ (forall x, GoogleMatrix.parseDurationSeconds (GoogleMatrix.DurNumber x)
                = JS.Math_round x).
Proof.
  split; [|split; [|split; [|split]]].
  - intros n [Hn _]. unfold GoogleMatrix.parseDurationSeconds.
    rewrite (int_to_string_nonneg n Hn).
    rewrite match_seconds_digits
      by (apply to_uint_nonnil || apply string_of_uint_digits).
    replace (JS.truthy_str _) with true.
    + unfold GoogleMatrix.parseInt. rewrite NilZero.usu.
      change (Z.of_uint (N.to_uint (Z.to_N n)))
        with (Z.of_N (N.of_uint (N.to_uint (Z.to_N n)))).
      * rewrite DecimalN.Unsigned.of_to. now apply Z2N.id.
      * destruct (Z.to_N n) as [|p]; [discriminate|].
        exact (DecimalPos.Unsigned.to_uint_nonnil p).
    + pose proof (to_uint_nonnil (Z.to_N n)) as Hne.
      destruct (NilZero.string_of_uint (N.to_uint (Z.to_N n)));
        [congruence | reflexivity].
  - intros s. unfold GoogleMatrix.parseDurationSeconds, GoogleMatrix.parseInt.
    destruct (JS.truthy_str s); [|lia].
    destruct (GoogleMatrix.match_seconds s); [|lia].
    destruct (NilZero.uint_of_string _) as [u|]; [|lia].
    unfold Z.of_uint. lia.
  - intros s. unfold GoogleMatrix.parseDurationSeconds.
    destruct (JS.truthy_str s); [|congruence].
    destruct (GoogleMatrix.match_seconds s) as [ds|] eqn:E; [|congruence].
    intros _. exists ds. now apply match_seconds_form.
  - reflexivity.
  - intros x. unfold GoogleMatrix.parseDurationSeconds.
    destruct (JS.truthy_num x) eqn:E; [reflexivity|].
    unfold JS.truthy_num in E. unfold JS.Math_round.
    apply negb_false_iff in E. apply Qeq_bool_iff in E. rewrite E. reflexivity.
Qed.

End GoogleMatrixFacts.

(* ------------------------------------------------------------------ *)
(** ** Text search *)

Section GooglePlacesFacts.

Variable log1p : Q -> Q.
Variable fmul : Q -> Q -> Q.

Local Abbreviation scorePlace := (GooglePlaces.scorePlace log1p fmul).
Local Abbreviation by_score := (GooglePlaces.by_score log1p fmul).
Local Abbreviation placesTextSearch := (GooglePlaces.placesTextSearch log1p fmul).

(** [a] scores at least as high as [b]. *)
Definition score_desc (a b : Sar.place) : Prop := (scorePlace b <= scorePlace a)%Q.

Lemma by_score_total (a b : Sar.place) :
  ~ ordered by_score a b -> ordered by_score b a.
Proof.
  unfold ordered, GooglePlaces.by_score. intros H.
  apply Qnot_lt_le. intros Hlt. apply H. lra.
Qed.

Lemma sort_by_score (l : list Sar.place) :
  StronglySorted score_desc (JS.sort by_score l).
Proof.
  apply Sorted_StronglySorted.
  - intros a b c. unfold score_desc. intros H1 H2. eapply Qle_trans; eauto.
  - pose proof (sort_Sorted by_score by_score_total l) as Hs.
    induction Hs as [|a l' _ IH Hd]; constructor; [exact IH|].
    destruct Hd as [|b l'' Hab]; constructor.
    unfold ordered, GooglePlaces.by_score in Hab. unfold score_desc. lra.
Qed.

(** X21: a successful text search needs an API key and a 2xx reply, and
    then always carries a list of items: the places of the reply whose
    rating ([0] when absent) reaches [minRating], every one of them when
    [minRating] is 0, in descending order of
    [rating * log1p(review count)]. *)
Theorem placesTextSearch_filtered_ranked (API_KEY : option string) (minRating : Q)
    (reply : GooglePlaces.http_reply) (r : GooglePlaces.search_result) :
  placesTextSearch API_KEY minRating reply = GooglePlaces.Returned r ->
  GooglePlaces.ok r = true ->
  JS.truthy_ostr API_KEY = true
  /\ exists places l,
       reply = GooglePlaces.HttpOk places
       /\ GooglePlaces.items r = Some l
       /\ Permutation l (List.filter (GooglePlaces.rated minRating) (default [] places))
       /\ StronglySorted score_desc l
       /\ (forall p, In p l -> (minRating == 0)%Q
                                \/ (minRating <= JS.or_zero (Sar.rating p))%Q)
       /\ ((minRating == 0)%Q -> Permutation l (default [] places)).
Proof.
  unfold GooglePlaces.placesTextSearch.
  destruct (JS.truthy_ostr API_KEY); simpl; [|intros [= <-]; discriminate].
  destruct reply as [|st text|places]; [discriminate|intros [= <-]; discriminate|].
  intros [= <-] _. split; [reflexivity|]. exists places. eexists.
  split; [reflexivity|]. split; [reflexivity|].
  set (kept := List.filter _ _).
  pose proof (sort_perm by_score kept) as Hp.
  split; [exact Hp|]. split; [apply sort_by_score|]. split.
  - intros p Hp'. apply (Permutation_in _ Hp) in Hp'.
    apply List.filter_In in Hp' as [_ Hr]. unfold GooglePlaces.rated in Hr.
    apply orb_true_iff in Hr as [Hr|Hr].
    + left. unfold JS.truthy_num in Hr. apply negb_true_iff, negb_false_iff in Hr.
      now apply Qeq_bool_iff.
    + right. now apply Qle_bool_iff.
  - intros H0. rewrite Hp. subst kept.
    assert (Hall : forall p, GooglePlaces.rated minRating p = true).
    { intros p. unfold GooglePlaces.rated, JS.truthy_num.
      apply Qeq_bool_iff in H0. now rewrite H0. }
    clear -Hall. induction (default [] places) as [|p l IH]; simpl; [constructor|].
    rewrite Hall. now constructor.
Qed.

End GooglePlacesFacts.

(* ------------------------------------------------------------------ *)
(** ** Request metrics *)

Section MetricsFacts.

Variable WINDOW_MS : Z.

(** The observations of one service. *)
Definition of_kind (kind : string) (obs : list Metrics.observation)
  : list Metrics.observation :=
  List.filter (fun o => String.eqb (Metrics.o_kind o) kind) obs.

Definition failed (obs : list Metrics.observation) : list Metrics.observation :=
  List.filter (fun o => negb (Metrics.o_ok o)) obs.

Definition service (kind : string) (services : gmap string Metrics.svc)
  : Metrics.svc :=
  default Metrics.makeSvc (services !! kind).

Lemma trim_length (cutoff : Z) (samples : list (Z * Z)) :
  (length (Metrics.trim cutoff samples) <= length samples)%nat.
Proof.
  induction samples as [|[t ms] rest IH]; simpl; [lia|].
  destruct (t <? cutoff); simpl; lia.
Qed.

Lemma observe_same (tpush tcut : Z) (kind : string) (ms : Z) (ok : bool)
    (services : gmap string Metrics.svc) :
  let s := service kind services in
  service kind (Metrics.observe WINDOW_MS tpush tcut kind ms ok services)
  = Metrics.mkSvc (S (Metrics.reqs s))
      (if ok then Metrics.errs s else S (Metrics.errs s))
      (Metrics.trim (tcut - WINDOW_MS) (Metrics.samples s ++ [(tpush, ms)])).
Proof.
  unfold service, Metrics.observe. cbv zeta. now rewrite lookup_insert_eq.
Qed.

Lemma observe_other (tpush tcut : Z) (kind other : string) (ms : Z) (ok : bool)
    (services : gmap string Metrics.svc) :
  other <> kind ->
  service other (Metrics.observe WINDOW_MS tpush tcut kind ms ok services)
  = service other services.
Proof.
  intros Hne. unfold service, Metrics.observe. cbv zeta.
  now rewrite lookup_insert_ne by congruence.
Qed.

Lemma run_snoc (obs : list Metrics.observation) (o : Metrics.observation) :
  Metrics.run WINDOW_MS (obs ++ [o])
  = Metrics.step WINDOW_MS (Metrics.run WINDOW_MS obs) o.
Proof. unfold Metrics.run. now rewrite fold_left_app. Qed.

(** X22: after any sequence of observations, a service has counted
    every observation of its kind as a request and every failed one as
    an error, so errors never exceed requests, and it holds at most one
    sample per request; observations of other kinds do not touch it. *)
Theorem metrics_counts (obs : list Metrics.observation) (kind : string) :
  let s := service kind (Metrics.run WINDOW_MS obs) in
  Metrics.reqs s = length (of_kind kind obs)
  /\ Metrics.errs s = length (failed (of_kind kind obs))
  /\ (Metrics.errs s <= Metrics.reqs s)%nat
  /\ (length (Metrics.samples s) <= Metrics.reqs s)%nat.
Proof.
  cbv zeta.
  assert (H : Metrics.reqs (service kind (Metrics.run WINDOW_MS obs))
              = length (of_kind kind obs)
              /\ Metrics.errs (service kind (Metrics.run WINDOW_MS obs))
                 = length (failed (of_kind kind obs))
              /\ (length (Metrics.samples (service kind (Metrics.run WINDOW_MS obs)))
                  <= length (of_kind kind obs))%nat).
  { induction obs as [|o obs IH] using rev_ind;
      [unfold service, Metrics.run; simpl; rewrite lookup_empty; simpl;
       repeat split; lia|].
    rewrite run_snoc. unfold Metrics.step, of_kind, failed.
    rewrite List.filter_app, List.filter_app, !length_app. simpl.
    destruct IH as (Hr & He & Hs).
    destruct (String.eqb_spec (Metrics.o_kind o) kind) as [->|Hne].
    - rewrite observe_same. cbv zeta. simpl.
      pose proof (trim_length (Metrics.o_tcut o - WINDOW_MS)
                    (Metrics.samples (service kind (Metrics.run WINDOW_MS obs))
                     ++ [(Metrics.o_tpush o, Metrics.o_ms o)])) as Ht.
      rewrite length_app in Ht. simpl in Ht.
      unfold of_kind, failed in *.
      destruct (Metrics.o_ok o); simpl; lia.
    - rewrite observe_other by congruence. simpl.
      unfold of_kind, failed in *. lia. }
  destruct H as (Hr & He & Hs). rewrite Hr, He.
  split; [reflexivity|]. split; [reflexivity|]. split; [|exact Hs].
  apply List.filter_length_le.
Qed.

(** Samples in the order of their time stamps. *)
Definition chronological (samples : list (Z * Z)) : Prop :=
  StronglySorted (fun a b => fst a <= fst b) samples.

Lemma trim_chronological (cutoff : Z) (samples : list (Z * Z)) :
  chronological samples ->
  chronological (Metrics.trim cutoff samples)
  /\ Forall (fun e => cutoff <= fst e) (Metrics.trim cutoff samples)
  /\ forall e, In e samples -> cutoff <= fst e -> In e (Metrics.trim cutoff samples).
Proof.
  unfold chronological.
  induction 1 as [|[t ms] rest Hs IH Hall]; simpl.
  - split; [constructor|]. split; [constructor | intros e []].
  - destruct (Z.ltb_spec t cutoff) as [Hlt|Hge].
    + destruct IH as (H1 & H2 & H3). repeat split; auto.
      intros e [<-|He] Hc; [simpl in Hc; lia | now apply H3].
    + split; [now constructor|]. split; [|intros e He _; exact He].
      constructor; [exact Hge|].
      rewrite List.Forall_forall in Hall |- *. intros e He.
      specialize (Hall e He). simpl in Hall. lia.
Qed.

Lemma snoc_chronological (samples : list (Z * Z)) (e : Z * Z) :
  chronological samples -> Forall (fun a => fst a <= fst e) samples ->
  chronological (samples ++ [e]).
Proof.
  unfold chronological. induction 1 as [|a l Hs IH Hall]; intros Hle; simpl.
  - repeat constructor.
  - inversion Hle as [|? ? Ha Hl]; subst. constructor; [now apply IH|].
    apply Forall_app. split; [exact Hall | repeat constructor; exact Ha].
Qed.

(** The clock never goes backwards over the observations. *)
Fixpoint monotone (t0 : Z) (obs : list Metrics.observation) : Prop :=
  match obs with
  | [] => True
  | o :: rest =>
    t0 <= Metrics.o_tpush o /\ Metrics.o_tpush o <= Metrics.o_tcut o
    /\ monotone (Metrics.o_tcut o) rest
  end.

Lemma monotone_snoc (t0 : Z) (obs : list Metrics.observation)
    (o : Metrics.observation) :
  monotone t0 (obs ++ [o]) ->
  monotone t0 obs
  /\ Metrics.o_tpush o <= Metrics.o_tcut o
  /\ t0 <= Metrics.o_tpush o
  /\ Forall (fun p => Metrics.o_tpush p <= Metrics.o_tpush o) obs.
Proof.
  revert t0. induction obs as [|p obs IH]; intros t0; simpl.
  - intros (H1 & H2 & _). repeat split; auto.
  - intros (H1 & H2 & H3). destruct (IH _ H3) as (Hm & Hc & Ht & Hall).
    repeat split; auto; try lia. constructor; [lia | exact Hall].
Qed.

(** Every sample was pushed by an observation of the kind. *)
Lemma samples_from_observations (obs : list Metrics.observation) (kind : string)
    (e : Z * Z) :
  In e (Metrics.samples (service kind (Metrics.run WINDOW_MS obs))) ->
  exists o, In o (of_kind kind obs)
            /\ e = (Metrics.o_tpush o, Metrics.o_ms o).
Proof.
  induction obs as [|o obs IH] using rev_ind;
    [unfold service, Metrics.run; simpl; rewrite lookup_empty; intros []|].
  rewrite run_snoc. unfold Metrics.step, of_kind. rewrite List.filter_app. simpl.
  destruct (String.eqb_spec (Metrics.o_kind o) kind) as [->|Hne].
  - rewrite observe_same. cbv zeta. simpl. intros He.
    assert (Hin : In e (Metrics.samples (service kind (Metrics.run WINDOW_MS obs))
                        ++ [(Metrics.o_tpush o, Metrics.o_ms o)])).
    { clear -He. revert He.
      generalize (Metrics.samples (service kind (Metrics.run WINDOW_MS obs))
                  ++ [(Metrics.o_tpush o, Metrics.o_ms o)]).
      intros l. induction l as [|[t ms] l IHl]; simpl; [tauto|].
      destruct (t <? _); [intros H; right; now apply IHl | tauto]. }
    apply in_app_iff in Hin as [Hin|[<-|[]]].
    + destruct (IH Hin) as (p & Hp & ->). exists p. split; [|reflexivity].
      apply in_app_iff. now left.
    + exists o. split; [|reflexivity]. apply in_app_iff. right. now left.
  - rewrite observe_other by congruence. rewrite app_nil_r. exact IH.
Qed.

Lemma run_chronological (t0 : Z) (obs : list Metrics.observation) (kind : string) :
  monotone t0 obs ->
  chronological (Metrics.samples (service kind (Metrics.run WINDOW_MS obs))).
Proof.
  induction obs as [|o obs IH] using rev_ind; intros Hm;
    [unfold service, Metrics.run; simpl; rewrite lookup_empty; constructor|].
  apply monotone_snoc in Hm as (Hm & Hc & Ht & Hall).
  rewrite run_snoc. unfold Metrics.step.
  destruct (String.eqb_spec (Metrics.o_kind o) kind) as [->|Hne].
  - rewrite observe_same. cbv zeta. simpl.
    apply trim_chronological, snoc_chronological; [now apply IH|].
    apply List.Forall_forall. intros e He.
    apply samples_from_observations in He as (p & Hp & ->). simpl.
    apply List.filter_In in Hp as [Hp _].
    rewrite List.Forall_forall in Hall. now apply Hall.
  - rewrite observe_other by congruence. now apply IH.
Qed.

(** X23: when the clock never goes backwards, right after an
    observation its service holds exactly its samples that are not older
    than the window, in order: every sample kept is at or after the
    cutoff, no sample at or after the cutoff was dropped, and the sample
    just pushed is kept whenever the window is at least as long as the
    time between the push and the cutoff. *)
Theorem metrics_window (t0 : Z) (obs : list Metrics.observation)
    (o : Metrics.observation) :
  monotone t0 (obs ++ [o]) ->
  let kind := Metrics.o_kind o in
  let cutoff := Metrics.o_tcut o - WINDOW_MS in
  let before := Metrics.samples (service kind (Metrics.run WINDOW_MS obs)) in
  let after := Metrics.samples (service kind (Metrics.run WINDOW_MS (obs ++ [o]))) in
  Forall (fun e => cutoff <= fst e) after
  /\ (forall e, In e before -> cutoff <= fst e -> In e after)
  /\ (Metrics.o_tcut o - Metrics.o_tpush o <= WINDOW_MS ->
      In (Metrics.o_tpush o, Metrics.o_ms o) after)
  /\ chronological after.
Proof.
  intros Hm kind cutoff before after.
  pose proof (run_chronological t0 _ kind Hm) as Hafter. fold after in Hafter.
  apply monotone_snoc in Hm as (Hm & Hc & Ht & Hall).
  pose proof (run_chronological t0 _ kind Hm) as Hbefore. fold before in Hbefore.
  assert (Hsn : chronological (before ++ [(Metrics.o_tpush o, Metrics.o_ms o)])).
  { apply snoc_chronological; [exact Hbefore|].
    apply List.Forall_forall. intros e He.
    apply samples_from_observations in He as (p & Hp & ->). simpl.
    apply List.filter_In in Hp as [Hp _].
    rewrite List.Forall_forall in Hall. now apply Hall. }
  assert (Eafter : after = Metrics.trim cutoff
                             (before ++ [(Metrics.o_tpush o, Metrics.o_ms o)])).
  { subst after before. rewrite run_snoc. unfold Metrics.step.
    fold kind. now rewrite observe_same. }
  destruct (trim_chronological cutoff _ Hsn) as (_ & Hwin & Hkeep).
  rewrite Eafter. split; [exact Hwin|]. split; [|split].
  - intros e He Hce. apply Hkeep; [|exact Hce]. apply in_app_iff. now left.
  - intros Hw. apply Hkeep; [apply in_app_iff; right; now left|].
    subst cutoff. simpl. lia.
  - rewrite <- Eafter. exact Hafter.
Qed.

Lemma count_le_monotone (l : list Z) (b b' : Z) :
  b <= b' ->
  (length (List.filter (fun ms => Z.leb ms b) l)
   <= length (List.filter (fun ms => Z.leb ms b') l))%nat.
Proof.
  intros Hb. induction l as [|x l IH]; simpl; [lia|].
  destruct (Z.leb_spec x b), (Z.leb_spec x b'); simpl; lia.
Qed.

(** X24: the bucket counts of a snapshot are cumulative: they never
    decrease from one bound to the next, none exceeds the number of
    recent samples, and a service none of whose recent samples took
    longer than 12 s has all of them in the last bucket. *)
Theorem snapshot_buckets_cumulative (cutoff : Z) (s : Metrics.svc) :
  let bs := Metrics.snapshot_buckets cutoff s in
  map fst bs = Metrics.buckets
  /\ StronglySorted (fun a b => (snd a <= snd b)%nat) bs
  /\ Forall (fun a => (snd a <= length (Metrics.recent cutoff s))%nat) bs
  /\ (Forall (fun ms => ms <= 12000) (Metrics.recent cutoff s) ->
      snd (List.last bs (0, O)) = length (Metrics.recent cutoff s)).
Proof.
  intros bs. subst bs. unfold Metrics.snapshot_buckets.
  set (l := Metrics.recent cutoff s).
  split; [|split; [|split]].
  - reflexivity.
  - assert (Hb : StronglySorted Z.le Metrics.buckets).
    { unfold Metrics.buckets.
      repeat (constructor; [|repeat (constructor; [lia|]); constructor]).
      constructor. }
    induction Hb as [|b bs Hs IH Hall]; simpl; constructor; [exact IH|].
    apply Forall_map. rewrite List.Forall_forall in Hall |- *. intros b' Hb'.
    simpl. apply count_le_monotone. now apply Hall.
  - apply Forall_map. apply List.Forall_forall. intros b _. simpl.
    apply List.filter_length_le.
  - intros Hall. simpl. clear -Hall. induction Hall as [|x l' Hx _ IH]; simpl;
      [reflexivity|].
    destruct (Z.leb_spec x 12000); [simpl; now rewrite IH | lia].
Qed.

End MetricsFacts.

(* ------------------------------------------------------------------ *)
(** ** Places cache and details route *)

Section PlacesFacts.

Variable detail : Type.

Local Abbreviation get := (Places.get detail).
Local Abbreviation set := (Places.set detail).
Variable truthy : detail -> bool.

Local Abbreviation details_route := (Places.details_route detail truthy).
Local Abbreviation fetch_details := (Places.fetch_details detail).

Lemma places_get_set (ttl : Z) (k : string) (value : Places.cached_value detail)
    (tset now : Z) (cache : gmap string (Places.entry detail)) :
  get ttl k now (set k value tset cache)
  = if ttl <? now - tset
    then (None, delete k cache)
    else (Some value, set k value tset cache).
Proof.
  unfold Places.get, Places.set. rewrite lookup_insert_eq. simpl.
  destruct (ttl <? now - tset); [|reflexivity].
  now rewrite delete_insert_eq.
Qed.

(** X25: an entry written to the places cache is read back unchanged
    while it is at most 10 minutes old through [getSearchCache], and at
    most 6 hours old through [getDetailsCache]; an older entry is not
    returned and is removed by the read that finds it; a write never
    affects what is read under another key. *)
Theorem places_cache_round_trip (k : string) (value : Places.cached_value detail)
    (tset now : Z) (cache : gmap string (Places.entry detail)) :
  (fst (Places.getSearchCache detail k now (set k value tset cache)) = Some value
   <-> now - tset <= 600000)
  /\ (fst (Places.getDetailsCache detail k now (set k value tset cache)) = Some value
      <-> now - tset <= 21600000)
  /\ (600000 < now - tset ->
      Places.getSearchCache detail k now (set k value tset cache)
      = (None, delete k cache))
  /\ (21600000 < now - tset ->
      Places.getDetailsCache detail k now (set k value tset cache)
      = (None, delete k cache))
  /\ (forall ttl k', k' <> k ->
        fst (get ttl k' now (set k value tset cache)) = fst (get ttl k' now cache)).
Proof.
  unfold Places.getSearchCache, Places.getDetailsCache.
  rewrite !places_get_set.
  change Places.SEARCH_TTL with 600000. change Places.DETAILS_TTL with 21600000.
  destruct (Z.ltb_spec 600000 (now - tset)), (Z.ltb_spec 21600000 (now - tset));
    simpl; (split; [split; [try discriminate; lia | try lia; reflexivity]|]);
    (split; [split; [try discriminate; lia | try lia; reflexivity]|]);
    (split; [try lia; reflexivity|]); (split; [try lia; reflexivity|]);
    intros ttl k' Hne; unfold Places.get, Places.set;
    rewrite lookup_insert_ne by congruence;
    destruct (cache !! k') as [e|]; try reflexivity;
    destruct (ttl <? now - Places.t detail e); reflexivity.
Qed.

Lemma get_miss_absent (ttl : Z) (k : string) (now : Z)
    (cache : gmap string (Places.entry detail)) :
  fst (get ttl k now cache) = None -> snd (get ttl k now cache) !! k = None.
Proof.
  unfold Places.get. destruct (cache !! k) as [e|] eqn:E; [|intros _; exact E].
  destruct (ttl <? now - Places.t detail e); simpl; [|discriminate].
  intros _. apply lookup_delete_eq.
Qed.

(** The outcomes of the provider request. *)
Lemma fetch_details_spec (API_KEY : option string)
    (reply : Places.http_reply detail) (tset : Z) (k : string)
    (cache1 : gmap string (Places.entry detail)) :
  let out := fetch_details API_KEY reply tset k cache1 in
  (snd (fst out) <= 1)%nat
  /\ (JS.truthy_ostr API_KEY = false -> snd (fst out) = O)
  /\ (forall c, fst (fst out) <> Places.Place detail true c)
  /\ fst (fst out) <> Places.Invalid detail
  /\ (forall d, fst (fst out) = Places.Place detail false (Places.Detail detail d) ->
        snd out = set k (Places.Detail detail d) tset cache1)
  /\ ((forall c, fst (fst out) <> Places.Place detail false c) -> snd out = cache1).
Proof.
  unfold Places.fetch_details, Places.placeDetails.
  destruct (JS.truthy_ostr API_KEY); simpl negb; cbv iota;
    [destruct reply as [|st text|d]|]; cbn [fst snd];
    repeat split; try discriminate; try lia; auto.
  - now intros d0 [= ->].
  - intros H. now destruct (H (Places.Detail detail d)).
Qed.


(** X27: the details route asks the provider at most once, and not at
    all for an empty id (answered 400), for a cached value that it
    serves, or without an API key. It serves a cached value only when
    that value is truthy. A failed or rejected provider request writes
    nothing to the cache, which is left as the lookup left it, and a
    successful one writes the details under the key of the request. *)
Theorem details_route_failures (API_KEY : option string)
    (reply : Places.http_reply detail) (now tset : Z)
    (header : option string) (id : string)
    (cache : gmap string (Places.entry detail)) :
  let out := details_route API_KEY reply now tset header id cache in
  let k := Places.keyDetails id (Places.lang_of header) in
  let looked := Places.getDetailsCache detail k now cache in
  (snd (fst out) <= 1)%nat
  /\ (JS.truthy_str id = false -> out = (Places.Invalid detail, O, cache))
  /\ (forall c, fst (fst out) = Places.Place detail true c ->
        snd (fst out) = O /\ fst looked = Some c
        /\ Places.truthy_cached detail truthy c = true)
  /\ (JS.truthy_ostr API_KEY = false -> snd (fst out) = O)
  /\ (forall why, fst (fst out) = Places.ProviderError detail why ->
        snd out = snd looked)
  /\ (fst (fst out) = Places.Unhandled detail -> snd out = snd looked)
  /\ (forall d, fst (fst out) = Places.Place detail false (Places.Detail detail d) ->
        snd out = set k (Places.Detail detail d) tset (snd looked)).
Proof.
  intros out k looked. subst out looked.
  unfold Places.details_route. cbv zeta. fold k.
  destruct (JS.truthy_str id); simpl negb; cbv iota.
  2:{ repeat split; try discriminate; simpl; lia. }
  destruct (Places.getDetailsCache detail k now cache) as [cached cache1].
  cbn [fst snd].
  pose proof (fetch_details_spec API_KEY reply tset k cache1) as Hf.
  cbv zeta in Hf. destruct Hf as (Hle & Hkey & Hnot & Hinv & Hset & Hkeep).
  destruct cached as [c|];
    [destruct (Places.truthy_cached detail truthy c) eqn:Ht|].
  - cbn [fst snd]. split; [lia|]. split; [discriminate|].
    split; [intros c' [= <-]; auto|]. repeat split; discriminate.
  - split; [exact Hle|]. split; [discriminate|].
    split; [intros c0 H; now destruct (Hnot c0)|]. split; [exact Hkey|].
    split; [|split; [|exact Hset]].
    + intros why H. apply Hkeep. intros c0 Hc. congruence.
    + intros H. apply Hkeep. intros c0 Hc. congruence.
  - split; [exact Hle|]. split; [discriminate|].
    split; [intros c0 H; now destruct (Hnot c0)|]. split; [exact Hkey|].
    split; [|split; [|exact Hset]].
    + intros why H. apply Hkeep. intros c0 Hc. congruence.
    + intros H. apply Hkeep. intros c0 Hc. congruence.
Qed.

End PlacesFacts.

(* ------------------------------------------------------------------ *)
(** ** The matrix and along-route endpoints *)

Section MatrixRouteFacts.

Variable Date_parse : string -> option Z.

Local Abbreviation matrix_route := (Endpoints.matrix_route Date_parse).
Local Abbreviation cacheKey := (MatrixCache.cacheKey Date_parse).
Local Abbreviation timeBucket := (MatrixCache.timeBucket Date_parse).

Lemma getTravelMatrix_calls (provider : list point -> string -> matrix_reply)
    (store : gmap string MatrixCache.entry) (now tset : Z)
    (points : list point) (mode : string) (iso : option string) :
  let out := MatrixCache.getTravelMatrix Date_parse provider store now tset
               points mode iso in
  (snd (fst out) <= 1)%nat
  /\ (forall e, fst (fst out) = inr e -> provider points mode = MatrixFail e).
Proof.
  cbv zeta.
  destruct (fresh_entry_dec store (cacheKey mode points iso now) now)
    as [(ent & Hk & Hage)|Hno].
  - rewrite (getTravelMatrix_hit Date_parse provider _ _ tset _ _ _ _ Hk Hage).
    simpl. split; [lia | discriminate].
  - rewrite (getTravelMatrix_miss Date_parse provider _ _ tset _ _ _ Hno).
    destruct (provider points mode) as [m|e']; simpl;
      (split; [lia|]); [discriminate|]. now intros e [= ->].
Qed.

Lemma sample_of_cell (dur : list (list JS.xnum)) (i j : nat) :
  (i < 3)%nat -> (j < 3)%nat ->
  cell (Endpoints.sample_of dur) i j = cell dur i j.
Proof.
  intros Hi Hj. unfold cell, Endpoints.sample_of.
  rewrite nth_error_map, nth_error_firstn.
  destruct (Nat.ltb_spec i 3); [|lia].
  destruct (nth_error dur i) as [row|]; simpl; [|reflexivity].
  rewrite nth_error_firstn. destruct (Nat.ltb_spec j 3); [reflexivity | lia].
Qed.

Lemma well_formed_map (pts : list point) :
  Endpoints.well_formed (map Some pts) = Some pts.
Proof. induction pts as [|p pts IH]; simpl; [reflexivity | now rewrite IH]. Qed.

Lemma well_formed_Some (raw : list (option point)) (pts : list point) :
  Endpoints.well_formed raw = Some pts -> raw = map Some pts.
Proof.
  revert pts. induction raw as [|[p|] raw IH]; intros pts; simpl.
  - now intros [= <-].
  - destruct (Endpoints.well_formed raw) as [ps|]; [|discriminate].
    intros [= <-]. simpl. f_equal. now apply IH.
  - discriminate.
Qed.

Lemma well_formed_None (raw : list (option point)) :
  Endpoints.well_formed raw = None <-> In None raw.
Proof.
  induction raw as [|[p|] raw IH]; simpl.
  - split; [discriminate | tauto].
  - destruct (Endpoints.well_formed raw) as [ps|].
    + split; [discriminate|]. intros [H|H]; [discriminate | now apply IH in H].
    + split; [intros _; right; now apply IH | reflexivity].
  - split; [now left | reflexivity].
Qed.

(** X28: the matrix endpoint answers 400 exactly when the body holds no
    array of at least two elements, then without a provider request.
    When the array holds an element that is not a point with a numeric
    latitude and longitude, the cache key cannot be built and the
    answer is 502 with no provider request and the store untouched; a
    502 comes from such an element or from a failed provider request,
    and from nothing else. Otherwise the endpoint reports the top-left
    3 by 3 corner of the duration matrix, leaving out everything else.
    It asks the provider at most once. *)
Theorem matrix_route_sample (provider : list point -> string -> matrix_reply)
    (store : gmap string MatrixCache.entry) (now tset : Z)
    (points : option (list (option point))) (mode departureTime : option string) :
  let out := matrix_route provider store now tset points mode departureTime in
  let raw := default [] points in
  (fst (fst out) = Endpoints.MatrixInvalid <-> (length raw < 2)%nat)
  /\ (fst (fst out) = Endpoints.MatrixInvalid -> snd (fst out) = O /\ snd out = store)
  /\ (snd (fst out) <= 1)%nat
  /\ ((2 <= length raw)%nat -> In None raw ->
      out = (Endpoints.MatrixError, O, store))
  /\ (fst (fst out) = Endpoints.MatrixError ->
      In None raw
      \/ exists pts e, raw = map Some pts
                       /\ provider pts (default "DRIVE" mode) = MatrixFail e)
  /\ (forall n sample, fst (fst out) = Endpoints.MatrixSample n sample ->
        (length sample <= 3)%nat
        /\ Forall (fun row => (length row <= 3)%nat) sample
        /\ exists pts m,
             raw = map Some pts
             /\ fst (fst (MatrixCache.getTravelMatrix Date_parse provider store now
                            tset pts (default "DRIVE" mode) departureTime)) = inl m
             /\ n = mx_n m
             /\ forall i j, (i < 3)%nat -> (j < 3)%nat ->
                            cell sample i j = cell (duration_s m) i j).
Proof.
  intros out raw. subst out raw. unfold Endpoints.matrix_route.
  destruct points as [raw|]; simpl default.
  2:{ simpl. repeat split; try discriminate; try lia; auto. }
  destruct (Nat.ltb_spec (length raw) 2) as [Hlt|Hge].
  { simpl. repeat split; try discriminate; try lia; auto. }
  destruct (Endpoints.well_formed raw) as [pts|] eqn:Hw.
  2:{ apply well_formed_None in Hw. cbn [fst snd].
      split; [split; [discriminate | lia]|]. split; [discriminate|].
      split; [lia|]. split; [reflexivity|]. split; [now left | discriminate]. }
  assert (Hall : ~ In None raw).
  { intros Hin. apply well_formed_None in Hin. congruence. }
  apply well_formed_Some in Hw.
  pose proof (getTravelMatrix_calls provider store now tset
                pts (default "DRIVE" mode) departureTime) as Hcalls.
  destruct (MatrixCache.getTravelMatrix Date_parse provider store now tset pts
              (default "DRIVE" mode) departureTime) as [[[m|e] calls] store'] eqn:Hg;
    cbn [fst snd] in *.
  - split; [split; [discriminate | lia]|]. split; [discriminate|].
    split; [apply (proj1 Hcalls)|]. split; [tauto|]. split; [discriminate|].
    intros n sample [= <- <-]. split.
    + unfold Endpoints.sample_of. rewrite length_map. apply firstn_le_length.
    + split.
      * unfold Endpoints.sample_of. apply Forall_map, List.Forall_forall.
        intros row _. apply firstn_le_length.
      * exists pts, m. split; [exact Hw|]. split; [now rewrite Hg|].
        split; [reflexivity|]. intros i j. apply sample_of_cell.
  - split; [split; [discriminate | lia]|]. split; [discriminate|].
    split; [apply (proj1 Hcalls)|]. split; [tauto|]. split; [|discriminate].
    intros _. right. exists pts, e. split; [exact Hw|].
    apply (proj2 Hcalls). reflexivity.
Qed.

End MatrixRouteFacts.

Section AlongRouteFacts.

Variable log1p : Q -> Q.
Variable fmul : Q -> Q -> Q.
Variable placesTextSearch : nat -> point -> Sar.search_reply.
Variable googleComputeRouteMatrix : nat -> list point -> string -> matrix_reply.
Variable placeDetails : nat -> option string -> option Sar.detail.
Variable decode : string -> list point.

Local Abbreviation searchAlongRoute :=
  (Sar.searchAlongRoute log1p fmul placesTextSearch googleComputeRouteMatrix
     placeDetails).
Local Abbreviation along_route :=
  (Endpoints.along_route log1p fmul placesTextSearch googleComputeRouteMatrix
     placeDetails decode).

Lemma searchAlongRoute_length (query : string) (q : Q)
    (maxDetourMin : Q) (stops : list point) (mode : string)
    (enrichDetails : bool) :
  0 <= JS.trunc q ->
  Z.of_nat (length (searchAlongRoute query (JS.Num q) maxDetourMin stops mode
                      enrichDetails)) <= JS.trunc q.
Proof.
  intros Hq.
  destruct (searchAlongRoute_unfold log1p fmul placesTextSearch
              googleComputeRouteMatrix placeDetails query (JS.Num q) maxDetourMin
              stops mode enrichDetails) as [->|(scored & _ & ->)]; [simpl; lia|].
  destruct enrichDetails; [|now apply slice_to_length].
  pose proof (enrich_same_core placeDetails
                (JS.slice_to (JS.Num q) (JS.sort (Sar.compare_poi log1p fmul) scored)) O)
    as H2.
  rewrite (Forall2_length _ _ _ H2). now apply slice_to_length.
Qed.

Lemma searchAlongRoute_short_route (query : string) (maxResults : JS.num)
    (maxDetourMin : Q) (stops : list point) (mode : string)
    (enrichDetails : bool) :
  (length stops < 2)%nat ->
  searchAlongRoute query maxResults maxDetourMin stops mode enrichDetails = [].
Proof.
  intros H. unfold Sar.searchAlongRoute. apply Nat.ltb_lt in H.
  rewrite H, orb_true_r. reflexivity.
Qed.


End AlongRouteFacts.

(* ------------------------------------------------------------------ *)
(** ** Hazards *)

Section HazardsFacts.

Variable distanceMeters : Q -> Q -> Q -> Q -> Q.

Local Abbreviation isWithinRadius := (Hazards.isWithinRadius distanceMeters).
Local Abbreviation hazards_payload := (Hazards.hazards_payload distanceMeters).

Lemma middle_In (l : list (Q * Q)) :
  l <> [] -> exists p, In p l /\ Hazards.middle l = Some (Hazards.flip p).
Proof.
  intros Hne. unfold Hazards.middle.
  destruct (nth_error l (length l / 2)) as [p|] eqn:E.
  - exists p. split; [eapply nth_error_In; eauto | reflexivity].
  - apply nth_error_None in E. destruct l as [|x l]; [congruence|].
    exfalso. simpl length in E.
    pose proof (Nat.Div0.div_lt_upper_bound (S (length l)) 2 (S (length l))).
    lia.
Qed.

(** X30: [normalizeWeather] keeps one feature per feature of the feed,
    in order and with its geometry, and gives each a severity that is
    [severe], [moderate] or [minor], where [severe] wins when the feed's
    text holds both words, in any letter case; the hazards payload
    reports only features whose centre lies within the radius, counts
    them, and is flagged severe exactly when one of them is a severe
    weather feature or a traffic feature whose severity holds the word
    [severe]. A feature without geometry is never reported. *)
Theorem hazards_payload_normalised (lat lon radius : Q)
    (weatherRaw trafficRaw : option (list Hazards.raw_feature)) :
  let p := hazards_payload lat lon radius weatherRaw trafficRaw in
  map Hazards.f_geometry (Hazards.normalizeWeather weatherRaw)
  = map Hazards.r_geometry (default [] weatherRaw)
  /\ Forall (fun f => Hazards.kind f = "weather"
                      /\ In (Hazards.severity f) ["severe"; "moderate"; "minor"])
            (Hazards.normalizeWeather weatherRaw)
  /\ (forall f, Hazards.includes
                  (Hazards.toLowerCase
                     (Hazards.or_str (Hazards.r_severity f)
                        (Hazards.or_str (Hazards.r_SEVERITY f) ""))) "severe" = true ->
                Hazards.severity (Hazards.weather_feature f) = "severe")
  /\ Hazards.count_weather p = length (Hazards.weather p)
  /\ Hazards.count_traffic p = length (Hazards.traffic p)
  /\ (forall f, In f (Hazards.weather p) <->
                In f (Hazards.normalizeWeather weatherRaw)
                /\ isWithinRadius lat lon f radius = true)
  /\ (forall f, In f (Hazards.traffic p) <->
                In f (Hazards.normalizeTraffic trafficRaw)
                /\ isWithinRadius lat lon f radius = true)
  /\ (forall f, In f (Hazards.weather p) \/ In f (Hazards.traffic p) ->
                Hazards.f_geometry f <> None)
  /\ (Hazards.severe p = true <->
      (exists f, In f (Hazards.weather p) /\ Hazards.severity f = "severe")
      \/ (exists f, In f (Hazards.traffic p)
                    /\ Hazards.includes (Hazards.toLowerCase (Hazards.severity f))
                         "severe" = true)).
Proof.
  intros p. subst p. unfold Hazards.hazards_payload. cbv zeta.
  cbn [Hazards.severe Hazards.count_weather Hazards.count_traffic Hazards.weather
       Hazards.traffic].
  split; [unfold Hazards.normalizeWeather; now rewrite map_map|].
  split.
  { unfold Hazards.normalizeWeather. apply Forall_map, List.Forall_forall.
    intros f _. unfold Hazards.weather_feature. cbv zeta. simpl.
    split; [reflexivity|].
    destruct (Hazards.includes _ "severe"); [tauto|].
    destruct (Hazards.includes _ "moderate"); tauto. }
  split.
  { intros f Hs. unfold Hazards.weather_feature. cbv zeta. simpl. now rewrite Hs. }
  split; [reflexivity|]. split; [reflexivity|].
  split; [intros f; apply List.filter_In|].
  split; [intros f; apply List.filter_In|].
  split.
  { intros f [H|H]; apply List.filter_In in H as [_ H];
      unfold Hazards.isWithinRadius in H;
      destruct (Hazards.f_geometry f); try discriminate H; discriminate. }
  rewrite orb_true_iff, !existsb_exists. split.
  - intros [(f & Hf & Hs)|(f & Hf & Hs)]; [left | right]; exists f;
      (split; [exact Hf|]); [now apply String.eqb_eq | exact Hs].
  - intros [(f & Hf & Hs)|(f & Hf & Hs)]; [left | right]; exists f;
      (split; [exact Hf|]); [now apply String.eqb_eq | exact Hs].
Qed.

(** The centre of a line or of the outer ring of a polygon is one of
    its positions. *)
Lemma getCenterPoint_on_geometry (g : Hazards.geometry) (c : Q * Q) :
  Hazards.getCenterPoint (Some g) = Some c ->
  match g with
  | Hazards.Point p => c = Hazards.flip p
  | Hazards.LineString coords => exists p, In p coords /\ c = Hazards.flip p
  | Hazards.Polygon rings =>
    exists ring p, hd_error rings = Some ring /\ In p ring /\ c = Hazards.flip p
  | Hazards.OtherGeometry => False
  end.
Proof.
  destruct g as [p|coords|rings|]; simpl.
  - now intros [= <-].
  - destruct coords as [|x coords]; [discriminate|]. simpl Nat.ltb. cbv iota.
    destruct (middle_In (x :: coords)) as (p & Hp & ->); [discriminate|].
    intros [= <-]. eauto.
  - destruct rings as [|ring rings]; [discriminate|].
    destruct ring as [|x ring]; [discriminate|]. simpl Nat.ltb. cbv iota.
    destruct (middle_In (x :: ring)) as (p & Hp & ->); [discriminate|].
    intros [= <-]. exists (x :: ring), p. auto.
  - discriminate.
Qed.

End HazardsFacts.

(* ------------------------------------------------------------------ *)
(** ** Concrete runs *)

(** X21, a concrete search: two places, a lower bound of 4.3. *)
Lemma placesTextSearch_filtered_ranked_witness :
  let reply := GooglePlaces.HttpOk (Some [PlanExample.gelato; PlanExample.museum]) in
  exists r l,
    GooglePlaces.placesTextSearch (fun x => x) Qmult (Some "key") (43 # 10) reply
    = GooglePlaces.Returned r
    /\ GooglePlaces.items r = Some l
    /\ StronglySorted (score_desc (fun x => x) Qmult) l
    /\ map Sar.displayName l = [Some "Museum"; Some "Gelato"].
Proof.
  intros reply.
  destruct (GooglePlaces.placesTextSearch (fun x => x) Qmult (Some "key") (43 # 10) reply)
    as [|r] eqn:H; [discriminate H|].
  assert (Hok : GooglePlaces.ok r = true)
    by (vm_compute in H; injection H as <-; reflexivity).
  destruct (placesTextSearch_filtered_ranked (fun x => x) Qmult (Some "key")
              (43 # 10) reply r H Hok)
    as (_ & places & l & _ & Hitems & _ & Hsorted & _).
  exists r, l. split; [reflexivity|]. split; [exact Hitems|].
  split; [exact Hsorted|].
  vm_compute in H. injection H as <-. injection Hitems as <-. reflexivity.
Defined.

(** X23, a concrete run: two route requests one second apart, a
    10-minute window. *)
Lemma metrics_window_witness :
  let first := Metrics.mkObs 1000 1001 "route" 120 true in
  let second := Metrics.mkObs 2000 2001 "route" 80 false in
  In (2000, 80)
     (Metrics.samples (service "route" (Metrics.run 600000 ([first] ++ [second])))).
Proof.
  intros first second.
  refine (proj1 (proj2 (proj2
    (metrics_window 600000 0 [first] second _))) _);
    simpl; lia.
Defined.

